(** * Durable Streams client: the streaming session ([StreamResponseImpl])

    A shallow embedding of [packages/client/src/utils.ts]: the session state
    machine, the chunk producer ([#createByteStream]), the record decoder
    ([#parseJsonChunk]) and the consumption adapters built on them, together
    with the platform pieces they call ([TextDecoder], [JSON.parse],
    [String.prototype.split]/[trim], the controller of a [ReadableStream],
    a promise with its resolve and reject functions).

    Conventions.  Mutable state is passed explicitly: a step of the
    program is a function from the world (the session and the byte stream
    it works on) to a result or an exception and the new world.  What the
    network and the caller do is an argument of the step ([PullEnv],
    [SubEnv]); an [async] function that is still waiting when its script
    of environments ends returns [None].  A read pulls when it finds the
    queue of the stream empty ([read]); the pull that the stream starts by
    itself as soon as a chunk is delivered, as its high-water mark is 1,
    is a step of its own ([pull_ahead]), which the subscription loops
    take after each chunk. *)

From Stdlib Require Import String Ascii.
From Stdlib.Strings Require Import Byte.
From Stdlib Require Import List NArith ZArith Bool Lia.
Import ListNotations.

Set Implicit Arguments.
Set Warnings "-register-all".

(* ================================================================= *)
(** ** Thrown values and results *)

(** What a [throw] can carry.  [NonError] is a thrown value that is not an
    instance of [Error]; its argument is what [String(err)] gives. *)
Inductive Thrown : Type :=
| SyntaxError
| TypeError
| DurableStreamError (message : string) (code : string)
| ErrorObj (message : string)
| NonError (repr : string).

(** A computation that returns or throws. *)
Inductive result (A : Type) : Type :=
| Ok (a : A)
| Throw (e : Thrown).
Arguments Ok {A} a.
Arguments Throw {A} e.

(** [array.map(f)] for an [f] that may throw: left to right, the first
    exception aborts the whole map. *)
Fixpoint map_throwing {A B : Type} (f : A -> result B) (l : list A)
  : result (list B) :=
  match l with
  | [] => Ok []
  | x :: xs =>
      match f x with
      | Throw e => Throw e
      | Ok y =>
          match map_throwing f xs with
          | Throw e => Throw e
          | Ok ys => Ok (y :: ys)
          end
      end
  end.

(* ================================================================= *)
(** ** JavaScript strings *)

(** A JavaScript string is a sequence of UTF-16 code units. *)
Definition jsstring : Type := list N.

Module JsString.
Local Open Scope N_scope.

(** ASCII text literals of this file are written with an apostrophe
    standing for the double quote (code unit 34). *)
Definition lit (s : string) : jsstring :=
  map (fun a => let c := N_of_ascii a in if c =? 39 then 34 else c)
      (list_ascii_of_string s).

(** The line feed, as a one-unit string. *)
Definition LF : jsstring := [10].

(** ECMAScript WhiteSpace and LineTerminator code units: what
    [String.prototype.trim] strips. *)
Definition is_js_whitespace (c : N) : bool :=
  (c =? 9) || (c =? 10) || (c =? 11) || (c =? 12) || (c =? 13)
  || (c =? 32) || (c =? 160) || (c =? 5760)
  || ((8192 <=? c) && (c <=? 8202))
  || (c =? 8232) || (c =? 8233) || (c =? 8239) || (c =? 8287)
  || (c =? 12288) || (c =? 65279).

Fixpoint trimStart (s : jsstring) : jsstring :=
  match s with
  | [] => []
  | c :: r => if is_js_whitespace c then trimStart r else s
  end.

Definition trimEnd (s : jsstring) : jsstring := rev (trimStart (rev s)).

Definition trim (s : jsstring) : jsstring := trimEnd (trimStart s).

(** A string with a code unit that is not white space. *)
Definition nonblank (l : jsstring) : bool :=
  existsb (fun c => negb (is_js_whitespace c)) l.

(** Truthiness of a string: the empty string is the only falsy one. *)
Definition truthy (s : jsstring) : bool :=
  match s with [] => false | _ :: _ => true end.

(** [s.split(sep)] for a separator of one code unit. *)
Fixpoint split (sep : N) (s : jsstring) : list jsstring :=
  match s with
  | [] => [[]]
  | c :: r =>
      if c =? sep then [] :: split sep r
      else match split sep r with
           | l :: ls => (c :: l) :: ls
           | [] => [[c]]
           end
  end.
End JsString.

(* ================================================================= *)
(** ** [TextDecoder] (UTF-8) *)

Module TextDecoder.
Local Open Scope N_scope.

(** State of the UTF-8 decoder of the Encoding standard, with the
    [BOM seen] flag of the [TextDecoder] that owns it. *)
Record t : Type := mk {
  code_point : N;
  bytes_seen : N;
  bytes_needed : N;
  lower_boundary : N;
  upper_boundary : N;
  bom_seen : bool
}.

Definition fresh : t := mk 0 0 0 128 191 false.

Definition reset (d : t) : t := mk 0 0 0 128 191 (bom_seen d).

(** A byte read while no sequence is open. Returns the new state and the
    code points emitted (U+FFFD for an error). *)
Definition start (d : t) (b : N) : t * list N :=
  if b <=? 127 then (reset d, [b])
  else if (194 <=? b) && (b <=? 223) then
    (mk (N.land b 31) 0 1 128 191 (bom_seen d), [])
  else if (224 <=? b) && (b <=? 239) then
    (mk (N.land b 15) 0 2
        (if b =? 224 then 160 else 128)
        (if b =? 237 then 159 else 191)
        (bom_seen d), [])
  else if (240 <=? b) && (b <=? 244) then
    (mk (N.land b 7) 0 3
        (if b =? 240 then 144 else 128)
        (if b =? 244 then 143 else 191)
        (bom_seen d), [])
  else (reset d, [65533]).

(** The decoder's handler for one byte. *)
Definition step (d : t) (b : N) : t * list N :=
  if bytes_needed d =? 0 then start d b
  else if negb ((lower_boundary d <=? b) && (b <=? upper_boundary d)) then
    (* the byte is put back and read again from the reset state *)
    let '(d', out) := start (reset d) b in (d', 65533 :: out)
  else
    let cp := N.lor (N.shiftl (code_point d) 6) (N.land b 63) in
    let seen := bytes_seen d + 1 in
    if seen =? bytes_needed d then (reset d, [cp])
    else (mk cp seen (bytes_needed d) 128 191 (bom_seen d), []).

Fixpoint run (d : t) (bs : list byte) : t * list N :=
  match bs with
  | [] => (d, [])
  | b :: r =>
      let '(d1, o1) := step d (Byte.to_N b) in
      let '(d2, o2) := run d1 r in
      (d2, o1 ++ o2)
  end.

(** End of input: an open sequence is an error. *)
Definition finish (d : t) : t * list N :=
  if bytes_needed d =? 0 then (d, []) else (reset d, [65533]).

(** A code point as UTF-16 code units. *)
Definition utf16 (cp : N) : jsstring :=
  if cp <? 65536 then [cp]
  else let c := cp - 65536 in [55296 + c / 1024; 56320 + c mod 1024].

(** Serialisation of the emitted code points: the first one is dropped
    when it is U+FEFF and no code point was written before. *)
Definition serialize (seen : bool) (cps : list N) : bool * jsstring :=
  match cps with
  | [] => (seen, [])
  | c :: r =>
      if seen then (true, flat_map utf16 cps)
      else if c =? 65279 then (true, flat_map utf16 r)
      else (true, flat_map utf16 cps)
  end.

(** [decoder.decode(data, {stream: true})]. *)
Definition decode_stream (d : t) (bs : list byte) : t * jsstring :=
  let '(d1, cps) := run d bs in
  let '(seen, s) := serialize (bom_seen d1) cps in
  (mk (code_point d1) (bytes_seen d1) (bytes_needed d1)
      (lower_boundary d1) (upper_boundary d1) seen, s).

(** [decoder.decode(data)] on a decoder that is not in the middle of a
    streamed input: a fresh decoder reads all of [data] and is flushed. *)
Definition decode (bs : list byte) : jsstring :=
  let '(d1, cps1) := run fresh bs in
  let '(_, cps2) := finish d1 in
  snd (serialize false (cps1 ++ cps2)).
End TextDecoder.

(* ================================================================= *)
(** ** JSON values and [JSON.parse] *)

(** A parsed JSON value.  A number keeps its exact decimal value
    [mantissa * 10 ^ exponent] (the rounding to a double is not modelled);
    an object keeps its members in source order. *)
Inductive JSON : Type :=
| JNull
| JBool (b : bool)
| JNumber (mantissa : Z) (exponent : Z)
| JString (s : jsstring)
| JArray (items : list JSON)
| JObject (members : list (jsstring * JSON)).

Definition isArray (v : JSON) : bool :=
  match v with JArray _ => true | _ => false end.

Module JsonParse.
Local Open Scope N_scope.

Inductive parsed (A : Type) : Type :=
| Parsed (a : A) (rest : jsstring)
| Malformed
| OutOfFuel.
Arguments Parsed {A} a rest.
Arguments Malformed {A}.
Arguments OutOfFuel {A}.

Definition pmap {A B : Type} (f : A -> B) (p : parsed A) : parsed B :=
  match p with
  | Parsed a r => Parsed (f a) r
  | Malformed => Malformed
  | OutOfFuel => OutOfFuel
  end.

(** JSON white space: space, tab, line feed, carriage return. *)
Definition is_json_ws (c : N) : bool :=
  (c =? 32) || (c =? 9) || (c =? 10) || (c =? 13).

Fixpoint skip_ws (s : jsstring) : jsstring :=
  match s with
  | [] => []
  | c :: r => if is_json_ws c then skip_ws r else s
  end.

Definition is_digit (c : N) : bool := (48 <=? c) && (c <=? 57).

Definition hex_val (c : N) : option N :=
  if is_digit c then Some (c - 48)
  else if (97 <=? c) && (c <=? 102) then Some (c - 87)
  else if (65 <=? c) && (c <=? 70) then Some (c - 55)
  else None.

(** A run of digits: value accumulated so far, number of digits read. *)
Fixpoint digits (acc : Z) (n : Z) (s : jsstring) : Z * Z * jsstring :=
  match s with
  | [] => (acc, n, [])
  | c :: r =>
      if is_digit c
      then digits (10 * acc + Z.of_N (c - 48))%Z (n + 1)%Z r
      else (acc, n, s)
  end.

(** Optional fraction and exponent after the integer part [m]. *)
Definition number_tail (neg : bool) (m : Z) (s : jsstring) : parsed JSON :=
  let sign (z : Z) := if neg then (- z)%Z else z in
  let with_exp (m : Z) (e0 : Z) (s : jsstring) : parsed JSON :=
    match s with
    | c :: r =>
        if (c =? 101) || (c =? 69) then
          let '(eneg, r1) :=
            match r with
            | d :: r' => if d =? 45 then (true, r')
                         else if d =? 43 then (false, r') else (false, r)
            | [] => (false, r)
            end in
          let '(e, n, r2) := digits 0 0 r1 in
          if (n =? 0)%Z then Malformed
          else Parsed (JNumber (sign m) (e0 + (if eneg then - e else e))%Z) r2
        else Parsed (JNumber (sign m) e0) s
    | [] => Parsed (JNumber (sign m) e0) s
    end in
  match s with
  | c :: r =>
      if c =? 46 then
        let '(m', n, r1) := digits m 0 r in
        if (n =? 0)%Z then Malformed else with_exp m' (- n)%Z r1
      else with_exp m 0%Z s
  | [] => with_exp m 0%Z s
  end.

Definition number (s : jsstring) : parsed JSON :=
  let '(neg, s1) :=
    match s with
    | c :: r => if c =? 45 then (true, r) else (false, s)
    | [] => (false, s)
    end in
  match s1 with
  | c :: r =>
      if c =? 48 then number_tail neg 0%Z r
      else if is_digit c then
        let '(m, _, r1) := digits 0 0 s1 in number_tail neg m r1
      else Malformed
  | [] => Malformed
  end.

(** The characters of a string after its opening quote, up to and
    including the closing quote. *)
Fixpoint chars (s : jsstring) : parsed jsstring :=
  match s with
  | [] => Malformed
  | c :: r =>
      if c =? 34 then Parsed [] r
      else if c =? 92 then
        match r with
        | [] => Malformed
        | e :: r1 =>
            if e =? 117 then
              match r1 with
              | h1 :: h2 :: h3 :: h4 :: r2 =>
                  match hex_val h1, hex_val h2, hex_val h3, hex_val h4 with
                  | Some a, Some b, Some c', Some d =>
                      pmap (cons (((a * 16 + b) * 16 + c') * 16 + d))
                           (chars r2)
                  | _, _, _, _ => Malformed
                  end
              | _ => Malformed
              end
            else
              let simple (u : N) := pmap (cons u) (chars r1) in
              if e =? 34 then simple 34
              else if e =? 92 then simple 92
              else if e =? 47 then simple 47
              else if e =? 98 then simple 8
              else if e =? 102 then simple 12
              else if e =? 110 then simple 10
              else if e =? 114 then simple 13
              else if e =? 116 then simple 9
              else Malformed
        end
      else if c <? 32 then Malformed
      else pmap (cons c) (chars r)
  end.

(** [s] starts with the keyword [k]: what is left after it. *)
Fixpoint keyword (k : jsstring) (s : jsstring) : option jsstring :=
  match k with
  | [] => Some s
  | a :: k' =>
      match s with
      | c :: r => if c =? a then keyword k' r else None
      | [] => None
      end
  end.

Definition kw_true : jsstring := [116; 114; 117; 101].
Definition kw_false : jsstring := [102; 97; 108; 115; 101].
Definition kw_null : jsstring := [110; 117; 108; 108].

(** Recursive descent.  [value] reads one value at the head of [s];
    [elements] reads [value (, value)* ]] and [members] reads
    [string : value (, string : value)* }]. *)
Fixpoint value (fuel : nat) (s : jsstring) {struct fuel} : parsed JSON :=
  match fuel with
  | O => OutOfFuel
  | S f =>
      match s with
      | [] => Malformed
      | c :: r =>
          if c =? 123 then
            match skip_ws r with
            | d :: r' =>
                if d =? 125 then Parsed (JObject []) r'
                else pmap JObject (members f (d :: r'))
            | [] => Malformed
            end
          else if c =? 91 then
            match skip_ws r with
            | d :: r' =>
                if d =? 93 then Parsed (JArray []) r'
                else pmap JArray (elements f (d :: r'))
            | [] => Malformed
            end
          else if c =? 34 then pmap JString (chars r)
          else if (c =? 45) || is_digit c then number s
          else
            match keyword kw_true s, keyword kw_false s, keyword kw_null s with
            | Some r', _, _ => Parsed (JBool true) r'
            | _, Some r', _ => Parsed (JBool false) r'
            | _, _, Some r' => Parsed JNull r'
            | _, _, _ => Malformed
            end
      end
  end
with elements (fuel : nat) (s : jsstring) {struct fuel} : parsed (list JSON) :=
  match fuel with
  | O => OutOfFuel
  | S f =>
      match value f (skip_ws s) with
      | Parsed v r =>
          match skip_ws r with
          | c :: r' =>
              if c =? 44 then pmap (cons v) (elements f r')
              else if c =? 93 then Parsed [v] r'
              else Malformed
          | [] => Malformed
          end
      | Malformed => Malformed
      | OutOfFuel => OutOfFuel
      end
  end
with members (fuel : nat) (s : jsstring) {struct fuel}
  : parsed (list (jsstring * JSON)) :=
  match fuel with
  | O => OutOfFuel
  | S f =>
      match skip_ws s with
      | q :: r0 =>
          if q =? 34 then
            match chars r0 with
            | Parsed k r1 =>
                match skip_ws r1 with
                | c :: r2 =>
                    if c =? 58 then
                      match value f (skip_ws r2) with
                      | Parsed v r3 =>
                          match skip_ws r3 with
                          | d :: r4 =>
                              if d =? 44 then pmap (cons (k, v)) (members f r4)
                              else if d =? 125 then Parsed [(k, v)] r4
                              else Malformed
                          | [] => Malformed
                          end
                      | Malformed => Malformed
                      | OutOfFuel => OutOfFuel
                      end
                    else Malformed
                | [] => Malformed
                end
            | Malformed => Malformed
            | OutOfFuel => OutOfFuel
            end
          else Malformed
      | [] => Malformed
      end
  end.

(** Fuel that is always enough for a text (see [value_fuel]). *)
Definition fuel_for (text : jsstring) : nat := 2 * List.length text + 2.

(** A whole JSON text: white space, one value, white space, end. *)
Definition text_value (text : jsstring) : parsed JSON :=
  match value (fuel_for text) (skip_ws text) with
  | Parsed v r =>
      match skip_ws r with
      | [] => Parsed v []
      | _ :: _ => Malformed
      end
  | Malformed => Malformed
  | OutOfFuel => OutOfFuel
  end.
End JsonParse.

(** [JSON.parse(text)]: the value, or a [SyntaxError]. *)
Definition JSON_parse (text : jsstring) : result JSON :=
  match JsonParse.text_value text with
  | JsonParse.Parsed v _ => Ok v
  | _ => Throw SyntaxError
  end.

(** A parse of [s] that did not run out of fuel and, when it read a
    value, left less than [s]. *)
Definition advances {A : Type} (s : jsstring) (p : JsonParse.parsed A) : Prop :=
  match p with
  | JsonParse.Parsed _ r => length r < length s
  | JsonParse.Malformed => True
  | JsonParse.OutOfFuel => False
  end.

(* ================================================================= *)
(** ** The record decoder *)

(** [#parseJsonChunk]. *)
Definition parseJsonChunk (text : jsstring) : result (list JSON) :=
  match JSON_parse text with
  | Ok parsed =>
      match parsed with
      | JArray items => Ok items
      | _ => Ok [parsed]
      end
  | Throw _ =>
      (* Try newline-delimited JSON *)
      let lines :=
        filter (fun l => JsString.truthy (JsString.trim l))
               (JsString.split 10%N text) in
      map_throwing JSON_parse lines
  end.


(* ================================================================= *)
(** ** Data model of the session *)

(** Modelled from the spec: [types.ts] is not among the sources.  An offset
    is an opaque token. *)
Definition Offset : Type := string.
Bind Scope string_scope with Offset.

(** Modelled from the spec: [types.ts] is not among the sources.  The live
    mode is [false] (disabled) or the name of a continuation transport;
    the session tells [false], ["sse"] and anything else apart. *)
Inductive LiveMode : Type :=
| LiveFalse
| Live (mode : string).

Definition is_sse (l : LiveMode) : bool :=
  match l with
  | Live mode => String.eqb mode "sse"
  | LiveFalse => false
  end.

(** [{data, offset, cursor, upToDate}], as the producer builds it. *)
Record ByteChunk : Type := mkChunk {
  data : list byte;
  chunk_offset : Offset;
  chunk_cursor : option string;
  chunk_upToDate : bool
}.

(** [{items, offset, cursor, upToDate}]. *)
Record JsonBatch : Type := mkBatch {
  items : list JSON;
  batch_offset : Offset;
  batch_cursor : option string;
  batch_upToDate : bool
}.

(** [{text, offset, cursor, upToDate}]. *)
Record TextChunk : Type := mkTextChunk {
  text : jsstring;
  text_offset : Offset;
  text_cursor : option string;
  text_upToDate : bool
}.

(** Session state machine. *)
Inductive SessionState : Type :=
| Ready
| Consuming
| Closed.

Definition SessionState_eqb (a b : SessionState) : bool :=
  match a, b with
  | Ready, Ready | Consuming, Consuming | Closed, Closed => true
  | _, _ => false
  end.

(** Response headers: names (normalised) with their values. *)
Definition Headers : Type := list (string * string).

Fixpoint headers_get (name : string) (h : Headers) : option string :=
  match h with
  | [] => None
  | (n, v) :: r => if String.eqb n name then Some v else headers_get name r
  end.

Definition headers_has (name : string) (h : Headers) : bool :=
  match headers_get name h with Some _ => true | None => false end.

(** A response body: the chunks its reader yields, then either the end of
    the body or a failure of the read. *)
Record Body : Type := mkBody {
  chunks : list (list byte);
  failure : option Thrown
}.

Record Response : Type := mkResponse {
  headers : Headers;
  body : option Body
}.

(** Reading a body to its end. *)
Definition read_all (b : Body) : result (list (list byte)) :=
  match failure b with
  | Some e => Throw e
  | None => Ok (chunks b)
  end.

(** [response.arrayBuffer()]. *)
Definition arrayBuffer (r : Response) : result (list byte) :=
  match body r with
  | None => Ok []
  | Some b =>
      match read_all b with
      | Ok cs => Ok (concat cs)
      | Throw e => Throw e
      end
  end.

(** Truthiness of what [headers.get] returns: [null] and the empty string
    are falsy. *)
Definition truthy_header (v : option string) : bool :=
  match v with
  | Some (String _ _) => true
  | _ => false
  end.

(** The [closed] promise with its [resolve] and [reject] functions.  A
    promise is settled by the first call of either; [settle_calls] counts
    the calls. *)
Inductive Settlement : Type :=
| Fulfilled
| Rejected (err : Thrown).

Record Deferred : Type := mkDeferred {
  settlement : option Settlement;
  settle_calls : nat
}.

Definition pending : Deferred := mkDeferred None 0.

Definition settle (o : Settlement) (d : Deferred) : Deferred :=
  mkDeferred (match settlement d with None => Some o | Some x => Some x end)
             (S (settle_calls d)).

Definition closedResolve (d : Deferred) : Deferred := settle Fulfilled d.
Definition closedReject (err : Thrown) (d : Deferred) : Deferred :=
  settle (Rejected err) d.

(** The push iterator returned by [startSSE(offset, cursor, signal)]: what
    it was started with and how often its [return] was called. *)
Record SseIterator : Type := mkSse {
  sse_offset : Offset;
  sse_cursor : option string;
  return_calls : nat
}.

(** [StreamResponseImpl].  [aborted] is [#abortController.signal.aborted];
    [startSSE] tells whether the configuration has a [startSSE] function. *)
Record Session : Type := mkSession {
  url : string;
  contentType : option string;
  live : LiveMode;
  startOffset : Offset;
  offset : Offset;
  cursor : option string;
  upToDate : bool;
  state : SessionState;
  isJsonMode : bool;
  firstResponse : option Response;
  aborted : bool;
  startSSE : bool;
  closed : Deferred;
  stopAfterUpToDate : bool;
  sseIterator : option SseIterator
}.

Definition set_offset (v : Offset) (s : Session) : Session :=
  mkSession (url s) (contentType s) (live s) (startOffset s) v (cursor s)
    (upToDate s) (state s) (isJsonMode s) (firstResponse s) (aborted s)
    (startSSE s) (closed s) (stopAfterUpToDate s) (sseIterator s).

Definition set_cursor (v : option string) (s : Session) : Session :=
  mkSession (url s) (contentType s) (live s) (startOffset s) (offset s) v
    (upToDate s) (state s) (isJsonMode s) (firstResponse s) (aborted s)
    (startSSE s) (closed s) (stopAfterUpToDate s) (sseIterator s).

Definition set_upToDate (v : bool) (s : Session) : Session :=
  mkSession (url s) (contentType s) (live s) (startOffset s) (offset s)
    (cursor s) v (state s) (isJsonMode s) (firstResponse s) (aborted s)
    (startSSE s) (closed s) (stopAfterUpToDate s) (sseIterator s).

Definition set_state (v : SessionState) (s : Session) : Session :=
  mkSession (url s) (contentType s) (live s) (startOffset s) (offset s)
    (cursor s) (upToDate s) v (isJsonMode s) (firstResponse s) (aborted s)
    (startSSE s) (closed s) (stopAfterUpToDate s) (sseIterator s).

Definition set_firstResponse (v : option Response) (s : Session) : Session :=
  mkSession (url s) (contentType s) (live s) (startOffset s) (offset s)
    (cursor s) (upToDate s) (state s) (isJsonMode s) v (aborted s)
    (startSSE s) (closed s) (stopAfterUpToDate s) (sseIterator s).

Definition set_aborted (v : bool) (s : Session) : Session :=
  mkSession (url s) (contentType s) (live s) (startOffset s) (offset s)
    (cursor s) (upToDate s) (state s) (isJsonMode s) (firstResponse s) v
    (startSSE s) (closed s) (stopAfterUpToDate s) (sseIterator s).

Definition set_closed (v : Deferred) (s : Session) : Session :=
  mkSession (url s) (contentType s) (live s) (startOffset s) (offset s)
    (cursor s) (upToDate s) (state s) (isJsonMode s) (firstResponse s)
    (aborted s) (startSSE s) v (stopAfterUpToDate s) (sseIterator s).

Definition set_stopAfterUpToDate (v : bool) (s : Session) : Session :=
  mkSession (url s) (contentType s) (live s) (startOffset s) (offset s)
    (cursor s) (upToDate s) (state s) (isJsonMode s) (firstResponse s)
    (aborted s) (startSSE s) (closed s) v (sseIterator s).

Definition set_sseIterator (v : option SseIterator) (s : Session) : Session :=
  mkSession (url s) (contentType s) (live s) (startOffset s) (offset s)
    (cursor s) (upToDate s) (state s) (isJsonMode s) (firstResponse s)
    (aborted s) (startSSE s) (closed s) (stopAfterUpToDate s) v.

(** [StreamResponseConfig]. *)
Record StreamResponseConfig : Type := mkConfig {
  cfg_url : string;
  cfg_contentType : option string;
  cfg_live : LiveMode;
  cfg_startOffset : Offset;
  cfg_isJsonMode : bool;
  initialOffset : Offset;
  initialCursor : option string;
  initialUpToDate : bool;
  cfg_firstResponse : Response;
  cfg_aborted : bool;
  cfg_startSSE : bool
}.

(** The constructor. *)
Definition new_session (config : StreamResponseConfig) : Session :=
  mkSession (cfg_url config) (cfg_contentType config) (cfg_live config)
    (cfg_startOffset config) (initialOffset config) (initialCursor config)
    (initialUpToDate config) Ready (cfg_isJsonMode config)
    (Some (cfg_firstResponse config)) (cfg_aborted config)
    (cfg_startSSE config) pending false None.

(* ================================================================= *)
(** ** Internal helpers of the session *)

Definition dquote : string := String "034"%char EmptyString.

Definition show_contentType (c : option string) : string :=
  match c with Some t => t | None => "undefined" end.

(** [#ensureJsonMode]. *)
Definition ensureJsonMode (s : Session) : result unit :=
  if negb (isJsonMode s) then
    Throw (DurableStreamError
             ("JSON methods are only valid for JSON-mode streams. "
              ++ "Content-Type is " ++ dquote ++ show_contentType (contentType s)
              ++ dquote ++ " and json hint was not set.")%string
             "BAD_REQUEST")
  else Ok tt.

(** [#markConsuming]. *)
Definition markConsuming (s : Session) : Session :=
  if SessionState_eqb (state s) Ready then set_state Consuming s else s.

(** [#markClosed]. *)
Definition markClosed (s : Session) : Session :=
  if negb (SessionState_eqb (state s) Closed)
  then set_closed (closedResolve (closed s)) (set_state Closed s)
  else s.

(** [#markError]. *)
Definition markError (err : Thrown) (s : Session) : Session :=
  if negb (SessionState_eqb (state s) Closed)
  then set_closed (closedReject err (closed s)) (set_state Closed s)
  else s.

(** [#shouldContinueLive]. *)
Definition shouldContinueLive (s : Session) : bool :=
  if stopAfterUpToDate s then false
  else match live s with
       | LiveFalse => false
       | Live _ => true
       end.

(** [cancel]: abort the controller, call [return] on the push iterator
    when there is one, mark the session closed. *)
Definition cancel (s : Session) : Session :=
  let s1 := set_aborted true s in
  let s2 :=
    match sseIterator s1 with
    | Some it =>
        set_sseIterator
          (Some (mkSse (sse_offset it) (sse_cursor it) (S (return_calls it))))
          s1
    | None => s1
    end in
  markClosed s2.

(** [err instanceof Error ? err : new Error(String(err))]. *)
Definition toError (err : Thrown) : Thrown :=
  match err with
  | NonError repr => ErrorObj repr
  | e => e
  end.

(* ================================================================= *)
(** ** The controller of a [ReadableStream] *)

Inductive StreamState : Type :=
| Readable
| StreamClosed
| Errored (e : Thrown).

Record Controller : Type := mkController {
  queue : list ByteChunk;
  closeRequested : bool;
  sstate : StreamState
}.

Definition is_readable (st : StreamState) : bool :=
  match st with Readable => true | _ => false end.

Definition canCloseOrEnqueue (c : Controller) : bool :=
  negb (closeRequested c) && is_readable (sstate c).

(** [controller.enqueue(chunk)]. *)
Definition controller_enqueue (chunk : ByteChunk) (c : Controller)
  : result Controller :=
  if canCloseOrEnqueue c
  then Ok (mkController (queue c ++ [chunk]) (closeRequested c) (sstate c))
  else Throw TypeError.

(** [controller.close()]: the stream closes at once when nothing is
    queued, and when the queue empties otherwise. *)
Definition controller_close (c : Controller) : result Controller :=
  if canCloseOrEnqueue c
  then Ok (mkController (queue c) true
             (match queue c with [] => StreamClosed | _ :: _ => Readable end))
  else Throw TypeError.

(** [controller.error(e)]. *)
Definition controller_error (e : Thrown) (c : Controller) : Controller :=
  if is_readable (sstate c)
  then mkController [] (closeRequested c) (Errored e)
  else c.

(** One byte stream made by [#createByteStream]: its local
    [firstResponseConsumed] and its controller. *)
Record ByteStream : Type := mkStream {
  firstResponseConsumed : bool;
  controller : Controller
}.

Definition new_stream : ByteStream :=
  mkStream false (mkController [] false Readable).

(* ================================================================= *)
(** ** State and exceptions *)

(** The session and the byte stream a pull works on. *)
Record World : Type := mkWorld {
  session : Session;
  stream : ByteStream
}.

(** A step of the program: it changes the world and returns or throws. *)
Definition M (A : Type) : Type := World -> result A * World.

Definition ret {A : Type} (a : A) : M A := fun w => (Ok a, w).

Definition bind {A B : Type} (c : M A) (k : A -> M B) : M B :=
  fun w =>
    match c w with
    | (Ok a, w') => k a w'
    | (Throw e, w') => (Throw e, w')
    end.

Definition throw {A : Type} (e : Thrown) : M A := fun w => (Throw e, w).

Definition try_catch {A : Type} (c : M A) (handler : Thrown -> M A) : M A :=
  fun w =>
    match c w with
    | (Ok a, w') => (Ok a, w')
    | (Throw e, w') => handler e w'
    end.

Declare Scope m_scope.
Delimit Scope m_scope with m.
Bind Scope m_scope with M.
Notation "x <- c1 ;; c2" := (bind c1 (fun x => c2))
  (at level 61, c1 at next level, right associativity) : m_scope.
Notation "c1 ;; c2" := (bind c1 (fun _ => c2))
  (at level 61, right associativity) : m_scope.
Open Scope m_scope.

Definition lift {A : Type} (r : result A) : M A := fun w => (r, w).

Definition self : M Session := fun w => (Ok (session w), w).

Definition modify (f : Session -> Session) : M unit :=
  fun w => (Ok tt, mkWorld (f (session w)) (stream w)).

Definition the_controller : M Controller :=
  fun w => (Ok (controller (stream w)), w).

Definition set_controller (c : Controller) : M unit :=
  fun w =>
    (Ok tt, mkWorld (session w)
              (mkStream (firstResponseConsumed (stream w)) c)).

Definition get_firstResponseConsumed : M bool :=
  fun w => (Ok (firstResponseConsumed (stream w)), w).

Definition set_firstResponseConsumed (b : bool) : M unit :=
  fun w => (Ok tt, mkWorld (session w) (mkStream b (controller (stream w)))).

Definition enqueue (chunk : ByteChunk) : M unit :=
  c <- the_controller ;;
  c' <- lift (controller_enqueue chunk c) ;;
  set_controller c'.

Definition close : M unit :=
  c <- the_controller ;;
  c' <- lift (controller_close c) ;;
  set_controller c'.

Definition error (e : Thrown) : M unit :=
  c <- the_controller ;;
  set_controller (controller_error e c).

(* ================================================================= *)
(** ** The chunk producer *)

(** What the outside world does during one pull: whether [cancel()] is
    called on the session while the pull is suspended, what the
    continuation request answers and what the push iterator yields
    ([None] when it is done). *)
Record PullEnv : Type := mkEnv {
  cancelled_meanwhile : bool;
  fetchNext : Offset -> option string -> result Response;
  sse_next : result (option ByteChunk)
}.

(** The pull reaches its first [await]: a [cancel()] of the session by
    the caller, if there is one during this pull, runs here. *)
Definition suspend (env : PullEnv) : M unit :=
  if cancelled_meanwhile env then modify cancel else ret tt.

(** What [reader.read()] resolves to; [ReadPending] when the read request
    is left waiting. *)
Inductive ReadResult : Type :=
| ReadValue (chunk : ByteChunk)
| ReadDone
| ReadPending.

(** [#createByteStream]: mark the session consuming, make the stream. *)
Definition createByteStream (s : Session) : World :=
  mkWorld (markConsuming s) new_stream.

(** The [cancel()] of the stream's underlying source. *)
Definition source_cancel (s : Session) : Session :=
  markClosed (set_aborted true s).

(** Cancelling the stream from its consumer: a readable stream is closed,
    its queue dropped and the source's [cancel()] called. *)
Definition stream_cancel : M unit :=
  c <- the_controller ;;
  if is_readable (sstate c) then
    set_controller (mkController [] (closeRequested c) StreamClosed) ;;
    modify source_cancel
  else ret tt.

(* ================================================================= *)
(** ** Shared utilities: [resolveHeaders] *)

(** A plain object with string values: its own properties.  (They are
    kept in the order of their creation; that integer-like keys come first
    when an object is enumerated is not modelled.) *)
Definition JsObject : Type := list (string * string).

(** The own property [k] of [o]. *)
Fixpoint obj_get (k : string) (o : JsObject) : option string :=
  match o with
  | [] => None
  | (k', v') :: r => if String.eqb k' k then Some v' else obj_get k r
  end.

(** [o[k] = v] with an own property: an existing key keeps its place, a
    new one goes last. *)
Fixpoint obj_define (k v : string) (o : JsObject) : JsObject :=
  match o with
  | [] => [(k, v)]
  | (k', v') :: r =>
      if String.eqb k' k then (k', v) :: r else (k', v') :: obj_define k v r
  end.

(** [o[k] = v] on an object whose prototype is [Object.prototype], for a
    string [v].  The key [__proto__] is an accessor of the prototype: the
    assignment calls its setter, which ignores a value that is neither an
    object nor [null], and no own property is made. *)
Definition obj_set (k v : string) (o : JsObject) : JsObject :=
  if String.eqb k "__proto__" then o else obj_define k v o.

(** [Object.assign(o, src)], and the loops that assign pair by pair. *)
Fixpoint obj_assign (o : JsObject) (src : list (string * string)) : JsObject :=
  match src with
  | [] => o
  | (k, v) :: r => obj_assign (obj_set k v o) r
  end.

(** Modelled from the spec: [types.ts] is not among the sources.  The
    [auth] argument as [resolveHeaders] looks at it: which of the keys
    [token], [headers] and [getHeaders] it has, its optional [headerName],
    and what [getHeaders()] resolves to. *)
Record Auth : Type := mkAuth {
  auth_token : option string;
  auth_headerName : option string;
  auth_headers : option JsObject;
  auth_getHeaders : option (result JsObject)
}.

(** A value of the additional-headers record: a string, or a function
    with what calling it gives. *)
Inductive HeaderValue : Type :=
| ValueString (v : string)
| ValueFunction (outcome : result string).

(** The additional headers: a [Headers] instance, an array of pairs, or a
    record. *)
Inductive AdditionalHeaders : Type :=
| FromHeaders (h : Headers)
| FromArray (pairs : list (string * string))
| FromRecord (entries : list (string * HeaderValue)).

(** The loop over [Object.entries(additionalHeaders)]. *)
Fixpoint assign_entries (o : JsObject) (entries : list (string * HeaderValue))
  : result JsObject :=
  match entries with
  | [] => Ok o
  | (k, ValueString v) :: r => assign_entries (obj_set k v o) r
  | (k, ValueFunction (Ok v)) :: r => assign_entries (obj_set k v o) r
  | (k, ValueFunction (Throw e)) :: r => Throw e
  end.

(** [resolveHeaders]. *)
Definition resolveHeaders (auth : option Auth)
           (additionalHeaders : option AdditionalHeaders) : result JsObject :=
  let resolved_auth : result JsObject :=
    match auth with
    | None => Ok []
    | Some a =>
        match auth_token a with
        | Some token =>
            let headerName :=
              match auth_headerName a with
              | Some n => n
              | None => "authorization"%string
              end in
            Ok (obj_set headerName ("Bearer " ++ token)%string [])
        | None =>
            match auth_headers a with
            | Some h => Ok (obj_assign [] h)
            | None =>
                match auth_getHeaders a with
                | Some (Ok authHeaders) => Ok (obj_assign [] authHeaders)
                | Some (Throw e) => Throw e
                | None => Ok []
                end
            end
        end
    end in
  match resolved_auth with
  | Throw e => Throw e
  | Ok headers =>
      match additionalHeaders with
      | None => Ok headers
      | Some (FromHeaders h) => Ok (obj_assign headers h)
      | Some (FromArray pairs) => Ok (obj_assign headers pairs)
      | Some (FromRecord entries) => assign_entries headers entries
      end
  end.

(** The last value a list of pairs gives to a key. *)
Fixpoint last_value (k : string) (pairs : list (string * string))
  : option string :=
  match pairs with
  | [] => None
  | (k', v) :: r =>
      match last_value k r with
      | Some v' => Some v'
      | None => if String.eqb k' k then Some v else None
      end
  end.

(** The entries of a record whose functions all return, as pairs. *)
Fixpoint entry_values (entries : list (string * HeaderValue))
  : option (list (string * string)) :=
  match entries with
  | [] => Some []
  | (k, ValueString v) :: r | (k, ValueFunction (Ok v)) :: r =>
      match entry_values r with
      | Some l => Some ((k, v) :: l)
      | None => None
      end
  | (_, ValueFunction (Throw _)) :: _ => None
  end.

(** The pairs the additional headers assign, in order, when every
    function among them returns.  (A [Headers] instance gives each of its
    names once, with its combined value.) *)
Definition additional_pairs (a : AdditionalHeaders)
  : option (list (string * string)) :=
  match a with
  | FromHeaders h => Some h
  | FromArray pairs => Some pairs
  | FromRecord entries => entry_values entries
  end.

(* ================================================================= *)
(** ** Shared utilities: [iteratorToReadableStream] *)

(** An async iterator: the values it still yields, how it ends (by being
    done, or by a [next()] that rejects), whether it has a [return]
    method and how often that was called. *)
Record Iterator (T : Type) : Type := mkIterator {
  it_values : list T;
  it_failure : option Thrown;
  it_has_return : bool;
  it_return_calls : nat
}.

(** [iterator.next()]: [None] when the iterator is done. *)
Definition iterator_next {T : Type} (it : Iterator T)
  : result (option T) * Iterator T :=
  match it_values it with
  | x :: r =>
      (Ok (Some x),
       mkIterator r (it_failure it) (it_has_return it) (it_return_calls it))
  | [] =>
      match it_failure it with
      | Some e =>
          (Throw e,
           mkIterator [] None (it_has_return it) (it_return_calls it))
      | None => (Ok None, it)
      end
  end.

(** The controller of a stream of values of any type. *)
Record ValueController (R : Type) : Type := mkValueController {
  v_queue : list R;
  v_closeRequested : bool;
  v_state : StreamState
}.

Definition v_canCloseOrEnqueue {R : Type} (c : ValueController R) : bool :=
  negb (v_closeRequested c) && is_readable (v_state c).

Definition v_enqueue {R : Type} (x : R) (c : ValueController R)
  : result (ValueController R) :=
  if v_canCloseOrEnqueue c
  then Ok (mkValueController (v_queue c ++ [x]) (v_closeRequested c)
                             (v_state c))
  else Throw TypeError.

Definition v_close {R : Type} (c : ValueController R)
  : result (ValueController R) :=
  if v_canCloseOrEnqueue c
  then Ok (mkValueController (v_queue c) true
             (match v_queue c with [] => StreamClosed | _ :: _ => Readable end))
  else Throw TypeError.

Definition v_error {R : Type} (e : Thrown) (c : ValueController R)
  : ValueController R :=
  if is_readable (v_state c)
  then mkValueController [] (v_closeRequested c) (Errored e)
  else c.

(** The stream [iteratorToReadableStream] returns: its iterator and its
    controller. *)
Record IteratorStream (T R : Type) : Type := mkIteratorStream {
  is_iterator : Iterator T;
  is_controller : ValueController R
}.

(** [iteratorToReadableStream(iterator, transform)]. *)
Definition iteratorToReadableStream {T R : Type} (iterator : Iterator T)
  : IteratorStream T R :=
  mkIteratorStream iterator (mkValueController [] false Readable).

(** Its [pull]. *)
Definition iterator_pull {T R : Type} (transform : T -> result R)
           (st : IteratorStream T R) : IteratorStream T R :=
  let '(r, it) := iterator_next (is_iterator st) in
  let c := is_controller st in
  let attempt : result (ValueController R) :=
    match r with
    | Throw e => Throw e
    | Ok None => v_close c
    | Ok (Some value) =>
        match transform value with
        | Throw e => Throw e
        | Ok y => v_enqueue y c
        end
    end in
  match attempt with
  | Ok c' => mkIteratorStream it c'
  | Throw e => mkIteratorStream it (v_error e c)
  end.

(** Its [cancel]: [iterator.return?.()]. *)
Definition iterator_cancel {T R : Type} (st : IteratorStream T R)
  : IteratorStream T R :=
  let it := is_iterator st in
  mkIteratorStream
    (if it_has_return it
     then mkIterator [] None true (S (it_return_calls it))
     else it)
    (is_controller st).

(** What a read of such a stream gives. *)
Inductive ValueRead (R : Type) : Type :=
| GotValue (x : R)
| GotDone
| GotError (e : Thrown)
| GotNothing.
Arguments GotValue {R} x.
Arguments GotDone {R}.
Arguments GotError {R} e.
Arguments GotNothing {R}.

(** What a read finds in the controller. *)
Definition v_take {R : Type} (c : ValueController R)
  : option (ValueRead R * ValueController R) :=
  match v_queue c with
  | x :: q =>
      Some (GotValue x,
            mkValueController q (v_closeRequested c)
              (match q with
               | [] => if v_closeRequested c then StreamClosed else v_state c
               | _ :: _ => v_state c
               end))
  | [] =>
      match v_state c with
      | StreamClosed => Some (GotDone, c)
      | Errored e => Some (GotError e, c)
      | Readable => None
      end
  end.

(** [reader.read()] on the stream: the stream pulls when nothing is
    queued and its controller can still close or enqueue. *)
Definition iterator_read {T R : Type} (transform : T -> result R)
           (st : IteratorStream T R) : ValueRead R * IteratorStream T R :=
  match v_take (is_controller st) with
  | Some (r, c) => (r, mkIteratorStream (is_iterator st) c)
  | None =>
      if v_canCloseOrEnqueue (is_controller st) then
        let st' := iterator_pull transform st in
        match v_take (is_controller st') with
        | Some (r, c) => (r, mkIteratorStream (is_iterator st') c)
        | None => (GotNothing, st')
        end
      else (GotNothing, st)
  end.

(** Reading until the stream ends, at most [fuel] times: the values read
    and how the reading stopped ([GotNothing]: out of fuel or left
    waiting). *)
Fixpoint iterator_drain {T R : Type} (transform : T -> result R) (fuel : nat)
         (st : IteratorStream T R) : list R * ValueRead R :=
  match fuel with
  | O => ([], GotNothing)
  | S f =>
      match iterator_read transform st with
      | (GotValue x, st') =>
          let '(xs, last) := iterator_drain transform f st' in
          (x :: xs, last)
      | (other, _) => ([], other)
      end
  end.

(** The values of a list up to the first one [transform] throws on, and
    that exception. *)
Fixpoint transformed {T R : Type} (transform : T -> result R) (xs : list T)
  : list R * option Thrown :=
  match xs with
  | [] => ([], None)
  | x :: r =>
      match transform x with
      | Throw e => ([], Some e)
      | Ok y => let '(ys, e) := transformed transform r in (y :: ys, e)
      end
  end.

Section Producer.

(** The header names of [constants.ts], which is not among the
    sources. *)
Variables STREAM_OFFSET_HEADER STREAM_CURSOR_HEADER
          STREAM_UP_TO_DATE_HEADER : string.

(** [#updateStateFromResponse]. *)
Definition updateStateFromResponse (response : Response) (s : Session)
  : Session :=
  let offset' := headers_get STREAM_OFFSET_HEADER (headers response) in
  let s1 :=
    match offset' with
    | Some v => if truthy_header offset' then set_offset v s else s
    | None => s
    end in
  let cursor' := headers_get STREAM_CURSOR_HEADER (headers response) in
  let s2 :=
    match cursor' with
    | Some v => if truthy_header cursor' then set_cursor (Some v) s1 else s1
    | None => s1
    end in
  set_upToDate (headers_has STREAM_UP_TO_DATE_HEADER (headers response)) s2.

(** [pull]: the held first response. *)
Definition first_response (env : PullEnv) (response : Response) : M unit :=
  set_firstResponseConsumed true ;;
  modify (set_firstResponse None) ;;
  match body response with
  | Some b =>
      suspend env ;;
      parts <- lift (read_all b) ;;
      let data := concat parts in
      s <- self ;;
      enqueue (mkChunk data (offset s) (cursor s) (upToDate s))
  | None =>
      s <- self ;;
      enqueue (mkChunk [] (offset s) (cursor s) (upToDate s))
  end ;;
  s <- self ;;
  if upToDate s && negb (shouldContinueLive s) then
    modify markClosed ;; close
  else if shouldContinueLive s then ret tt
  else modify markClosed ;; close.

(** [pull]: live updates. *)
Definition live_updates (env : PullEnv) : M unit :=
  s <- self ;;
  if shouldContinueLive s then
    if is_sse (live s) && startSSE s then
      match sseIterator s with
      | None =>
          modify (set_sseIterator (Some (mkSse (offset s) (cursor s) 0)))
      | Some _ => ret tt
      end ;;
      suspend env ;;
      result <- lift (sse_next env) ;;
      match result with
      | None => modify markClosed ;; close
      | Some chunk =>
          modify (set_offset (chunk_offset chunk)) ;;
          modify (set_cursor (chunk_cursor chunk)) ;;
          modify (set_upToDate (chunk_upToDate chunk)) ;;
          enqueue chunk ;;
          s <- self ;;
          if upToDate s && negb (shouldContinueLive s) then
            modify markClosed ;; close
          else ret tt
      end
    else if aborted s then
      modify markClosed ;; close
    else
      suspend env ;;
      response <- lift (fetchNext env (offset s) (cursor s)) ;;
      modify (updateStateFromResponse response) ;;
      data <- lift (arrayBuffer response) ;;
      s <- self ;;
      enqueue (mkChunk data (offset s) (cursor s) (upToDate s)) ;;
      s <- self ;;
      if upToDate s && negb (shouldContinueLive s) then
        modify markClosed ;; close
      else ret tt
  else
    modify markClosed ;; close.

(** The [try] block of [pull]. *)
Definition pull_try (env : PullEnv) : M unit :=
  consumed <- get_firstResponseConsumed ;;
  s <- self ;;
  match (if negb consumed then firstResponse s else None) with
  | Some response => first_response env response
  | None => live_updates env
  end.

(** The [catch] block of [pull]. *)
Definition pull_catch (err : Thrown) : M unit :=
  s <- self ;;
  if aborted s then
    modify markClosed ;; close
  else
    modify (markError (toError err)) ;; error err.

(** The [pull] of the stream made by [#createByteStream]. *)
Definition pull (env : PullEnv) : M unit :=
  try_catch (pull_try env) pull_catch.

(** The stream calling [pull], which it does only while its controller
    can still close or enqueue: when the promise of [pull] rejects, the
    stream errors its controller. *)
Definition stream_pull (env : PullEnv) : M unit :=
  c <- the_controller ;;
  if canCloseOrEnqueue c then try_catch (pull env) error else ret tt.

(** Taking the head of the queue; a requested close happens when the
    queue empties. *)
Definition dequeue (chunk : ByteChunk) (q : list ByteChunk) (c : Controller)
  : M ReadResult :=
  set_controller
    (mkController q (closeRequested c)
       (match q with
        | [] => if closeRequested c then StreamClosed else sstate c
        | _ :: _ => sstate c
        end)) ;;
  ret (ReadValue chunk).

(** What a read finds in the controller: a queued chunk, a closed or an
    errored stream; [otherwise] when the stream is readable and nothing is
    queued. *)
Definition settle_read (otherwise : M ReadResult) : M ReadResult :=
  c <- the_controller ;;
  match queue c with
  | chunk :: q => dequeue chunk q c
  | [] =>
      match sstate c with
      | StreamClosed => ret ReadDone
      | Errored e => throw e
      | Readable => otherwise
      end
  end.

(** [reader.read()]: a queued chunk, the end of the stream or its
    error; the stream pulls when the queue is empty.  What the stream
    does by itself once the read has a chunk is [pull_ahead] below. *)
Definition read (env : PullEnv) : M ReadResult :=
  settle_read (stream_pull env ;; settle_read (ret ReadPending)).

(** The pull the stream starts by itself, without a read waiting for it,
    as soon as a chunk has been taken from it: it calls [pull] again
    while its controller can close or enqueue and its queue is below the
    high-water mark, which is 1 for a stream made without a queuing
    strategy.  [env] is what the outside world does during that pull.
    (After a chunk that came with the end of the stream, as every chunk
    read by [body], [json] and [text] does, there is no such pull.) *)
Definition pull_ahead (env : PullEnv) : M unit :=
  c <- the_controller ;;
  if (length (queue c) <? 1)%nat then stream_pull env else ret tt.

(* =============================================================== *)
(** ** Accumulating helper: [json] *)

(** The record part of one loop turn of [json]. *)
Definition json_chunk (chunk : ByteChunk) (acc : list JSON)
  : M (list JSON) :=
  if (0 <? length (data chunk))%nat then
    let text := TextDecoder.decode (data chunk) in
    parsed <- lift (parseJsonChunk text) ;;
    ret (acc ++ parsed)
  else ret acc.

(** The [while] loop of [json], entered with the result of a read; each
    further read takes the next environment.  [None]: the script of
    environments ended while the loop was still reading. *)
Fixpoint json_while (envs : list PullEnv) (r : ReadResult)
         (acc : list JSON) : M (option (list JSON)) :=
  match r with
  | ReadDone => modify markClosed ;; ret (Some acc)
  | ReadPending => ret None
  | ReadValue chunk =>
      acc' <- json_chunk chunk acc ;;
      if chunk_upToDate chunk then modify markClosed ;; ret (Some acc')
      else
        match envs with
        | [] => ret None
        | env :: rest =>
            r' <- read env ;;
            json_while rest r' acc'
        end
  end.

(** [json()]: the result and the session with its stream, or the
    exception and the world it leaves. *)
Definition json (env : PullEnv) (envs : list PullEnv) (s : Session)
  : result (option (list JSON)) * Session * option ByteStream :=
  match ensureJsonMode s with
  | Throw e => (Throw e, s, None)
  | Ok _ =>
      let w0 := createByteStream (set_stopAfterUpToDate true s) in
      let '(r, w) := (r0 <- read env ;; json_while envs r0 []) w0 in
      (r, session w, Some (stream w))
  end.

(** [jsonStream()]: the byte stream behind the record stream. *)
Definition jsonStream (s : Session) : result World :=
  match ensureJsonMode s with
  | Throw e => Throw e
  | Ok _ => Ok (createByteStream s)
  end.

(** The [transform] of [jsonStream()]: the records of one chunk. *)
Definition jsonStream_transform (chunk : ByteChunk) : result (list JSON) :=
  if (0 <? length (data chunk))%nat
  then parseJsonChunk (TextDecoder.decode (data chunk))
  else Ok [].

(* =============================================================== *)
(** ** Subscriber APIs *)

(** The background loop of a subscription: still running, ended, or
    ended by an exception that it rethrew. *)
Inductive LoopStatus : Type :=
| Running
| Finished
| Failed (e : Thrown).

(** What a subscription owns: the signal of its own [AbortController],
    the loop, and its [TextDecoder]. *)
Record Subscription : Type := mkSub {
  signal_aborted : bool;
  status : LoopStatus;
  decoder : TextDecoder.t
}.

Definition new_subscription : Subscription :=
  mkSub false Running TextDecoder.fresh.

Definition set_status (st : LoopStatus) (sub : Subscription) : Subscription :=
  mkSub (signal_aborted sub) st (decoder sub).

(** The function a subscribe method returns:
    [abortController.abort(); this.cancel()]. *)
Definition unsubscribe (p : Subscription * World) : Subscription * World :=
  let '(sub, w) := p in
  (mkSub true (status sub) (decoder sub),
   mkWorld (cancel (session w)) (stream w)).

(** The [catch] of the loop: errors after unsubscribe are ignored, the
    others rethrown. *)
Definition loop_catch (e : Thrown) (sub : Subscription) : Subscription :=
  if negb (signal_aborted sub) then set_status (Failed e) sub
  else set_status Finished sub.

(** What happens around one turn of the loop: the environment of the
    pull behind the read, the environment of the pull that the stream
    starts by itself when the read has its chunk, and whether the
    unsubscribe function is called while the loop waits for the read or
    for the subscriber. *)
Record SubEnv : Type := mkSubEnv {
  pull_env : PullEnv;
  ahead_env : PullEnv;
  unsubscribed_during_read : bool;
  unsubscribed_during_handler : bool
}.

(** One turn of the loop: a read, then (unless the stream is done or the
    subscription aborted) the chunk is turned into what the subscriber
    takes and the subscriber awaited.  The stream has started its next
    pull when the chunk reaches the loop; the turn is taken to last until
    that pull has settled. *)
Definition loop_turn {B : Type}
           (payload : ByteChunk -> Subscription -> result (B * Subscription))
           (subscriber : B -> result unit)
           (env : SubEnv) (p : Subscription * World)
  : Subscription * World :=
  let '(sub, w) := p in
  match status sub with
  | Running =>
      let '(r, w1) := read (pull_env env) w in
      let '(sub1, w1) :=
        if unsubscribed_during_read env then unsubscribe (sub, w1)
        else (sub, w1) in
      match r with
      | Throw e => (loop_catch e sub1, w1)
      | Ok ReadDone => (set_status Finished sub1, w1)
      | Ok ReadPending => (sub1, w1)
      | Ok (ReadValue chunk) =>
          let w2 := snd (pull_ahead (ahead_env env) w1) in
          if signal_aborted sub1 then (set_status Finished sub1, w2)
          else
            match payload chunk sub1 with
            | Throw e => (loop_catch e sub1, w2)
            | Ok (b, sub2) =>
                let outcome := subscriber b in
                let '(sub3, w3) :=
                  if unsubscribed_during_handler env
                  then unsubscribe (sub2, w2)
                  else (sub2, w2) in
                match outcome with
                | Throw e => (loop_catch e sub3, w3)
                | Ok _ => (sub3, w3)
                end
            end
      end
  | Finished | Failed _ => (sub, w)
  end.

(** What each subscribe method hands to its subscriber. *)
Definition json_payload (chunk : ByteChunk) (sub : Subscription)
  : result (JsonBatch * Subscription) :=
  match (if (0 <? length (data chunk))%nat
         then parseJsonChunk (TextDecoder.decode (data chunk))
         else Ok []) with
  | Throw e => Throw e
  | Ok parsed =>
      Ok (mkBatch parsed (chunk_offset chunk) (chunk_cursor chunk)
                  (chunk_upToDate chunk), sub)
  end.

Definition bytes_payload (chunk : ByteChunk) (sub : Subscription)
  : result (ByteChunk * Subscription) :=
  Ok (chunk, sub).

Definition text_payload (chunk : ByteChunk) (sub : Subscription)
  : result (TextChunk * Subscription) :=
  let '(d, t) := TextDecoder.decode_stream (decoder sub) (data chunk) in
  Ok (mkTextChunk t (chunk_offset chunk) (chunk_cursor chunk)
                  (chunk_upToDate chunk),
      mkSub (signal_aborted sub) (status sub) d).

(** [subscribeJson]: the call itself, then the turns of its loop. *)
Definition subscribeJson (s : Session) : result (Subscription * World) :=
  match ensureJsonMode s with
  | Throw e => Throw e
  | Ok _ => Ok (new_subscription, createByteStream s)
  end.

Definition subscribeJson_turn := loop_turn json_payload.

(** [subscribeBytes]. *)
Definition subscribeBytes (s : Session) : Subscription * World :=
  (new_subscription, createByteStream s).

Definition subscribeBytes_turn := loop_turn bytes_payload.

(** [subscribeText]. *)
Definition subscribeText (s : Session) : Subscription * World :=
  (new_subscription, createByteStream s).

Definition subscribeText_turn := loop_turn text_payload.

(* =============================================================== *)
(** ** Histories of a session *)

(** A session with the byte stream made for it, if any. *)
Record System : Type := mkSystem {
  sys_session : Session;
  sys_stream : option ByteStream
}.

Definition boot (config : StreamResponseConfig) : System :=
  mkSystem (new_session config) None.

Definition of_world (w : World) : System :=
  mkSystem (session w) (Some (stream w)).

(** What can happen to a session: a consumption method makes the byte
    stream; the stream pulls; its consumer reads or cancels it; the
    [cancel()] of the stream's source runs; the session is cancelled;
    [#markClosed] or [#markError] is called. *)
Inductive Op : Type :=
| OpCreateByteStream
| OpPull (env : PullEnv)
| OpRead (env : PullEnv)
| OpStreamCancel
| OpSourceCancel
| OpCancel
| OpMarkClosed
| OpMarkError (err : Thrown).

Definition on_stream {A : Type} (c : M A) (sys : System) : System :=
  match sys_stream sys with
  | None => sys
  | Some st => of_world (snd (c (mkWorld (sys_session sys) st)))
  end.

Definition on_session (f : Session -> Session) (sys : System) : System :=
  mkSystem (f (sys_session sys)) (sys_stream sys).

Definition apply_op (op : Op) (sys : System) : System :=
  match op with
  | OpCreateByteStream => of_world (createByteStream (sys_session sys))
  | OpPull env => on_stream (stream_pull env) sys
  | OpRead env => on_stream (read env) sys
  | OpStreamCancel => on_stream stream_cancel sys
  | OpSourceCancel => on_session source_cancel sys
  | OpCancel => on_session cancel sys
  | OpMarkClosed => on_session markClosed sys
  | OpMarkError err => on_session (markError err) sys
  end.

Fixpoint run (ops : list Op) (sys : System) : System :=
  match ops with
  | [] => sys
  | op :: rest => run rest (apply_op op sys)
  end.

(** The operations that close a session, and how each settles the
    [closed] promise of a session that is not closed yet. *)
Inductive CloseOp : Type :=
| ByMarkClosed
| ByMarkError (err : Thrown)
| ByCancel
| BySourceCancel.

Definition close_op (c : CloseOp) : Op :=
  match c with
  | ByMarkClosed => OpMarkClosed
  | ByMarkError err => OpMarkError err
  | ByCancel => OpCancel
  | BySourceCancel => OpSourceCancel
  end.

Definition outcome_of (c : CloseOp) : Settlement :=
  match c with
  | ByMarkError err => Rejected err
  | _ => Fulfilled
  end.

(** The session states before and after each operation of a history. *)
Fixpoint transitions (ops : list Op) (sys : System)
  : list (Op * SessionState * SessionState) :=
  match ops with
  | [] => []
  | op :: rest =>
      (op, state (sys_session sys), state (sys_session (apply_op op sys)))
        :: transitions rest (apply_op op sys)
  end.

Definition is_Ready_to_Consuming (t : Op * SessionState * SessionState)
  : bool :=
  let '(_, before, after) := t in
  SessionState_eqb before Ready && SessionState_eqb after Consuming.

Definition is_pull (op : Op) : bool :=
  match op with
  | OpPull _ | OpRead _ => true
  | _ => false
  end.

(* =============================================================== *)
(** ** Accumulating helpers: [body] and [text] *)

(** The [while] loop of [body()]. *)
Fixpoint body_while (envs : list PullEnv) (r : ReadResult)
         (acc : list (list byte)) : M (option (list byte)) :=
  match r with
  | ReadDone => modify markClosed ;; ret (Some (concat acc))
  | ReadPending => ret None
  | ReadValue chunk =>
      let acc' :=
        if (0 <? length (data chunk))%nat then acc ++ [data chunk] else acc in
      if chunk_upToDate chunk then modify markClosed ;; ret (Some (concat acc'))
      else
        match envs with
        | [] => ret None
        | env :: rest =>
            r' <- read env ;;
            body_while rest r' acc'
        end
  end.

(** [body()]. *)
Definition session_body (env : PullEnv) (envs : list PullEnv) (s : Session)
  : result (option (list byte)) * World :=
  let w0 := createByteStream (set_stopAfterUpToDate true s) in
  (r0 <- read env ;; body_while envs r0 []) w0.

(** [decoder.decode()] at the end of a streamed input: the decoder is
    flushed. *)
Definition TextDecoder_flush (d : TextDecoder.t) : jsstring :=
  let '(_, cps) := TextDecoder.finish d in
  snd (TextDecoder.serialize (TextDecoder.bom_seen d) cps).

(** A decoder with its [BOM seen] flag set to [seen]. *)
Definition with_bom (seen : bool) (d : TextDecoder.t) : TextDecoder.t :=
  TextDecoder.mk (TextDecoder.code_point d) (TextDecoder.bytes_seen d)
                 (TextDecoder.bytes_needed d) (TextDecoder.lower_boundary d)
                 (TextDecoder.upper_boundary d) seen.

(** The [while] loop of [text()]. *)
Fixpoint text_while (envs : list PullEnv) (r : ReadResult)
         (d : TextDecoder.t) (parts : list jsstring) : M (option jsstring) :=
  match r with
  | ReadDone =>
      modify markClosed ;; ret (Some (concat (parts ++ [TextDecoder_flush d])))
  | ReadPending => ret None
  | ReadValue chunk =>
      let '(d', parts') :=
        if (0 <? length (data chunk))%nat then
          let '(d1, t) := TextDecoder.decode_stream d (data chunk) in
          (d1, parts ++ [t])
        else (d, parts) in
      if chunk_upToDate chunk then
        modify markClosed ;;
        ret (Some (concat (parts' ++ [TextDecoder_flush d'])))
      else
        match envs with
        | [] => ret None
        | env :: rest =>
            r' <- read env ;;
            text_while rest r' d' parts'
        end
  end.

(** [text()]. *)
Definition session_text (env : PullEnv) (envs : list PullEnv) (s : Session)
  : result (option jsstring) * World :=
  let w0 := createByteStream (set_stopAfterUpToDate true s) in
  (r0 <- read env ;; text_while envs r0 TextDecoder.fresh []) w0.

(* =============================================================== *)
(** ** ReadableStreams: the transform of [textStream] *)

(** What the transform of [textStream()] enqueues for a sequence of
    chunks, its [flush] included: one string per chunk, then what is left
    in the decoder when that is not empty. *)
Fixpoint textStream_output (d : TextDecoder.t) (cs : list ByteChunk)
  : list jsstring :=
  match cs with
  | [] =>
      let remaining := TextDecoder_flush d in
      if JsString.truthy remaining then [remaining] else []
  | chunk :: rest =>
      let '(d', t) := TextDecoder.decode_stream d (data chunk) in
      t :: textStream_output d' rest
  end.

(** A controller as the stream keeps it: a requested close is still
    pending only while chunks are queued. *)
Definition controller_wf (c : Controller) : Prop :=
  closeRequested c = true -> sstate c = Readable -> queue c <> [].

(** The resumption position of a session. *)
Definition position (s : Session) : Offset * option string * bool :=
  (offset s, cursor s, upToDate s).

(* =============================================================== *)
(** ** How a session may evolve *)

(** From [s] to [s']: either the state and the [closed] promise are as
    they were, or a session that was not closed is now closed and its
    promise took one more call of [resolve] or [reject]. *)
Definition steady (s s' : Session) : Prop :=
  (state s' = state s /\ closed s' = closed s)
  \/ (state s <> Closed /\ state s' = Closed
      /\ exists o, closed s' = settle o (closed s)).

(** [steady], or the session went from [Ready] to [Consuming]. *)
Definition evolves (s s' : Session) : Prop :=
  steady s s'
  \/ (state s = Ready /\ state s' = Consuming /\ closed s' = closed s).

(** The promise of a session that is not closed is pending and was never
    called; the promise of a closed one was called once. *)
Definition settled_with_state (s : Session) : Prop :=
  match state s with
  | Closed => settle_calls (closed s) = 1 /\ settlement (closed s) <> None
  | _ => closed s = pending
  end.

(** A step that relates the session before to the session after. *)
Definition keeps (R : Session -> Session -> Prop) {A : Type} (c : M A)
  : Prop :=
  forall w, R (session w) (session (snd (c w))).

(** What a turn of a subscription loop leaves when the subscriber threw
    [e] before any unsubscribe, [w1] being the world when the chunk of
    the turn was delivered and [w2] the world when the pull that the
    stream then started has settled: the loop has ended rethrowing [e];
    the world is [w2], so the failure has changed nothing; since the
    chunk was delivered the session has kept its state and its promise,
    or that pull has closed it; the stream, which nobody reads any more,
    starts no further pull; and calling the unsubscribe function then
    leaves the session closed and aborted, fulfilling its promise if it
    was still pending. *)
Definition handler_failed (e : Thrown) (w1 w2 : World)
           (after : Subscription * World) : Prop :=
  status (fst after) = Failed e
  /\ snd after = w2
  /\ steady (session w1) (session w2)
  /\ (forall env, pull_ahead env w2 = (Ok tt, w2))
  /\ state (session (snd (unsubscribe after))) = Closed
  /\ aborted (session (snd (unsubscribe after))) = true
  /\ (state (session w2) <> Closed ->
      closed (session (snd (unsubscribe after)))
      = closedResolve (closed (session w2)))
  /\ (state (session w2) = Closed ->
      closed (session (snd (unsubscribe after))) = closed (session w2)).

(* =============================================================== *)
(** ** Sample sessions *)

(** Header names for the samples. *)
Definition hOffset : string := "stream-next-offset".
Definition hCursor : string := "stream-cursor".
Definition hUpToDate : string := "stream-up-to-date".

(** A caught-up first response whose body arrives in two pieces,
    [[1,] and [2]]. *)
Definition sample_first_response : Response :=
  mkResponse
    [(hOffset, "5"%string);
     (hUpToDate, "true"%string)]
    (Some (mkBody [list_byte_of_string "[1,"; list_byte_of_string "2]"]
                  None)).

(** A replay session in JSON mode. *)
Definition replay_config : StreamResponseConfig :=
  mkConfig "http://localhost/v1/stream/a" (Some "application/json"%string)
           LiveFalse "-1" true "5" None true sample_first_response
           false false.

(** The same, negotiated as raw bytes. *)
Definition bytes_config : StreamResponseConfig :=
  mkConfig "http://localhost/v1/stream/a" (Some "application/octet-stream"%string)
           LiveFalse "-1" false "5" None true sample_first_response
           false false.

(** The same as [replay_config], live by long-poll. *)
Definition longpoll_config : StreamResponseConfig :=
  mkConfig "http://localhost/v1/stream/a" (Some "application/json"%string)
           (Live "long-poll") "-1" true "5" (Some "c1"%string) true
           sample_first_response false false.

(** A continuation response with a body and no header at all. *)
Definition bare_response : Response :=
  mkResponse [] (Some (mkBody [list_byte_of_string "[3]"] None)).

(** Nothing is cancelled, the continuation request answers
    [bare_response], the push iterator is done. *)
Definition quiet_env : PullEnv :=
  mkEnv false (fun _ _ => Ok bare_response) (Ok None).

(** The session is cancelled while the pull waits, and the continuation
    request fails. *)
Definition aborting_env : PullEnv :=
  mkEnv true (fun _ _ => Throw (ErrorObj "The operation was aborted."))
        (Ok None).

(** The continuation request fails and nothing is cancelled. *)
Definition failing_env : PullEnv :=
  mkEnv false (fun _ _ => Throw (ErrorObj "fetch failed")) (Ok None).

(** A subscriber that always throws. *)
Definition throwing_subscriber {B : Type} (b : B) : result unit :=
  Throw (ErrorObj "handler failed").

(** Nobody unsubscribes; the pulls are quiet. *)
Definition quiet_sub_env : SubEnv := mkSubEnv quiet_env quiet_env false false.

(** Nobody unsubscribes; the continuation request of the pull that the
    stream starts by itself fails. *)
Definition failing_sub_env : SubEnv :=
  mkSubEnv quiet_env failing_env false false.

(** A long-poll session whose consumer has read the first chunk. *)
Definition longpoll_world : World :=
  snd (read quiet_env (createByteStream (new_session longpoll_config))).

(** A text of white space only: two lines of blanks. *)
Definition blank_text : jsstring := [32; 9; 10; 160; 13]%N.

(** An authentication by token, and one whose [getHeaders()] rejects. *)
Definition token_auth : Auth := mkAuth (Some "secret"%string) None None None.

Definition rejecting_auth : Auth :=
  mkAuth None None None (Some (Throw (ErrorObj "no credentials"))).

(** Additional headers as an array of pairs, which gives [x-trace] twice,
    overrides the authorization and has a pair for [__proto__]. *)
Definition sample_additional : AdditionalHeaders :=
  FromArray [("x-trace", "1"); ("authorization", "Basic abc");
             ("__proto__", "x"); ("x-trace", "2")]%string.

(** A record of additional headers whose function throws. *)
Definition throwing_entries : list (string * HeaderValue) :=
  [("x-a"%string, ValueString "1");
   ("x-b"%string, ValueFunction (Throw (ErrorObj "no value")))].

(** An iterator of three numbers with a [return] method, and a transform
    that throws from three on. *)
Definition three_numbers : Iterator N := mkIterator [1; 2; 3]%N None true 0.

Definition twice_below_three (n : N) : result N :=
  if (n <? 3)%N then Ok (2 * n)%N else Throw (ErrorObj "too large").

(** A response whose body breaks after its first piece. *)
Definition broken_response : Response :=
  mkResponse [(hOffset, "9"%string)]
             (Some (mkBody [list_byte_of_string "[1,"]
                           (Some (ErrorObj "network down")))).

(** A long-poll session that holds [broken_response]. *)
Definition broken_config : StreamResponseConfig :=
  mkConfig "http://localhost/v1/stream/a" (Some "application/json"%string)
           (Live "long-poll") "-1" true "9" None false broken_response
           false false.

(** A response whose body breaks with a thrown value that is not an
    [Error], and a long-poll session that holds it. *)
Definition odd_response : Response :=
  mkResponse [(hOffset, "9"%string)]
             (Some (mkBody [list_byte_of_string "[1,"]
                           (Some (NonError "timeout")))).

Definition odd_config : StreamResponseConfig :=
  mkConfig "http://localhost/v1/stream/a" (Some "application/json"%string)
           (Live "long-poll") "-1" true "9" None false odd_response
           false false.

(** The continuation request answers [broken_response]. *)
Definition broken_body_env : PullEnv :=
  mkEnv false (fun _ _ => Ok broken_response) (Ok None).

(** A continuation response that moves the offset and the cursor. *)
Definition next_response : Response :=
  mkResponse [(hOffset, "9"%string); (hCursor, "c2"%string)]
             (Some (mkBody [list_byte_of_string "[3]"] None)).

Definition next_env : PullEnv :=
  mkEnv false (fun _ _ => Ok next_response) (Ok None).

(** The session is cancelled while the pull waits: the continuation
    request and the push iterator both fail. *)
Definition dead_env : PullEnv :=
  mkEnv true (fun _ _ => Throw (ErrorObj "The operation was aborted."))
        (Throw (ErrorObj "The operation was aborted.")).

(** The same session as [longpoll_config], live by server-sent events. *)
Definition sse_config : StreamResponseConfig :=
  mkConfig "http://localhost/v1/stream/a" (Some "application/json"%string)
           (Live "sse") "-1" true "5" (Some "c1"%string) true
           sample_first_response false true.

(** An event of the push iterator, without a cursor. *)
Definition sample_event : ByteChunk :=
  mkChunk (list_byte_of_string "[3]") "9" None false.

Definition event_env : PullEnv :=
  mkEnv false (fun _ _ => Throw (ErrorObj "fetch failed"))
        (Ok (Some sample_event)).

(** A push session whose consumer has read the first chunk. *)
Definition sse_world : World :=
  snd (read quiet_env (createByteStream (new_session sse_config))).

(** The caller unsubscribes while the loop waits for its read. *)
Definition leaving_sub_env : SubEnv :=
  mkSubEnv quiet_env quiet_env true false.

Definition patient_subscriber {B : Type} (b : B) : result unit := Ok tt.

(* =============================================================== *)
(** * Properties *)

(** ** Strings and the record decoder *)

Import JsString.

Lemma truthy_trimStart (l : jsstring) :
  truthy (trimStart l) = nonblank l.
Proof.
  induction l as [|c r IH]; simpl; [reflexivity|].
  destruct (is_js_whitespace c) eqn:E; simpl; [exact IH | reflexivity].
Qed.

Lemma nonblank_trimStart (l : jsstring) :
  nonblank (trimStart l) = nonblank l.
Proof.
  induction l as [|c r IH]; simpl; [reflexivity|].
  destruct (is_js_whitespace c) eqn:E; simpl; [exact IH|].
  rewrite E. reflexivity.
Qed.

Lemma nonblank_app (a b : jsstring) :
  nonblank (a ++ b) = nonblank a || nonblank b.
Proof. apply existsb_app. Qed.

Lemma nonblank_rev (l : jsstring) : nonblank (rev l) = nonblank l.
Proof.
  induction l as [|c r IH]; simpl; [reflexivity|].
  rewrite nonblank_app, IH. simpl.
  rewrite orb_false_r. apply orb_comm.
Qed.

Lemma truthy_rev (l : jsstring) : truthy (rev l) = truthy l.
Proof.
  destruct l as [|c r]; simpl; [reflexivity|].
  destruct (rev r); reflexivity.
Qed.

(** [l.trim()] is truthy exactly when [l] has a code unit that is not
    white space. *)
Lemma truthy_trim (l : jsstring) : truthy (trim l) = nonblank l.
Proof.
  unfold trim, trimEnd.
  rewrite truthy_rev, truthy_trimStart, nonblank_rev.
  apply nonblank_trimStart.
Qed.

Lemma filter_trim_nonblank (ls : list jsstring) :
  filter (fun l => truthy (trim l)) ls = filter nonblank ls.
Proof.
  apply filter_ext. intro l. apply truthy_trim.
Qed.

Lemma split_Forall (P : N -> Prop) (sep : N) (s : jsstring) :
  Forall P s -> Forall (Forall P) (split sep s).
Proof.
  induction 1 as [|c r Hc Hr IH]; simpl.
  - repeat constructor.
  - destruct (N.eqb c sep).
    + constructor; [constructor | exact IH].
    + destruct (split sep r) as [|l ls].
      * repeat constructor; assumption.
      * inversion IH; subst. constructor; [constructor|]; assumption.
Qed.

Lemma blank_not_nonblank (l : jsstring) :
  Forall (fun c => is_js_whitespace c = true) l -> nonblank l = false.
Proof.
  induction 1 as [|c r Hc Hr IH]; simpl; [reflexivity|].
  rewrite Hc, IH. reflexivity.
Qed.

Lemma filter_nonblank_blank (ls : list jsstring) :
  Forall (Forall (fun c => is_js_whitespace c = true)) ls ->
  filter nonblank ls = [].
Proof.
  induction 1 as [|l r Hl Hr IH]; simpl; [reflexivity|].
  rewrite (blank_not_nonblank Hl). exact IH.
Qed.

Lemma map_throwing_Forall2 {A B : Type} (f : A -> result B)
      (l : list A) (vs : list B) :
  Forall2 (fun x v => f x = Ok v) l vs -> map_throwing f l = Ok vs.
Proof.
  induction 1 as [|x v l vs Hx Hr IH]; simpl; [reflexivity|].
  rewrite Hx, IH. reflexivity.
Qed.

Lemma map_throwing_Ok_Forall2 {A B : Type} (f : A -> result B)
      (l : list A) (vs : list B) :
  map_throwing f l = Ok vs -> Forall2 (fun x v => f x = Ok v) l vs.
Proof.
  revert vs. induction l as [|x l IH]; simpl; intros vs H.
  - inversion H. constructor.
  - destruct (f x) eqn:Hx; [|discriminate].
    destruct (map_throwing f l) eqn:Hl; [|discriminate].
    inversion H; subst. constructor; [exact Hx | apply IH; reflexivity].
Qed.

Lemma JSON_parse_throws (text : jsstring) (e : Thrown) :
  JSON_parse text = Throw e -> e = SyntaxError.
Proof.
  unfold JSON_parse.
  destruct (JsonParse.text_value text); intro H; inversion H; reflexivity.
Qed.

Lemma map_throwing_In (l : list jsstring) (x : jsstring) :
  In x l -> JSON_parse x = Throw SyntaxError ->
  map_throwing JSON_parse l = Throw SyntaxError.
Proof.
  induction l as [|y l IH]; simpl; [contradiction|].
  intros [->|Hin] Hx.
  - rewrite Hx. reflexivity.
  - destruct (JSON_parse y) eqn:Hy.
    + rewrite (IH Hin Hx). reflexivity.
    + rewrite (JSON_parse_throws _ Hy). reflexivity.
Qed.

(** A white-space code unit starts no JSON value. *)
Lemma whitespace_starts_no_value (c : N) :
  is_js_whitespace c = true ->
  (c <> 123 /\ c <> 91 /\ c <> 34 /\ c <> 45 /\ c <> 116 /\ c <> 102
   /\ c <> 110 /\ ~ (48 <= c <= 57))%N.
Proof.
  unfold is_js_whitespace. intro H.
  repeat (rewrite ?orb_true_iff, ?andb_true_iff, ?N.eqb_eq, ?N.leb_le in H).
  lia.
Qed.

Lemma value_at_whitespace (f : nat) (c : N) (r : jsstring) :
  is_js_whitespace c = true ->
  JsonParse.value (S f) (c :: r) = JsonParse.Malformed.
Proof.
  intro H. apply whitespace_starts_no_value in H.
  destruct H as (H1 & H2 & H3 & H4 & H5 & H6 & H7 & H8).
  simpl.
  apply N.eqb_neq in H1, H2, H3, H4, H5, H6, H7.
  rewrite H1, H2, H3, H4, H5, H6, H7. simpl.
  unfold JsonParse.is_digit.
  destruct (N.leb_spec 48 c); destruct (N.leb_spec c 57);
    simpl; try reflexivity; lia.
Qed.

Lemma skip_ws_whitespace (s : jsstring) :
  Forall (fun c => is_js_whitespace c = true) s ->
  Forall (fun c => is_js_whitespace c = true) (JsonParse.skip_ws s).
Proof.
  induction 1 as [|c r Hc Hr IH]; simpl; [constructor|].
  destruct (JsonParse.is_json_ws c); [exact IH|].
  constructor; assumption.
Qed.

(** [JSON.parse] fails on a text of white space only. *)
Lemma JSON_parse_whitespace (s : jsstring) :
  Forall (fun c => is_js_whitespace c = true) s ->
  JSON_parse s = Throw SyntaxError.
Proof.
  intro H. unfold JSON_parse, JsonParse.text_value, JsonParse.fuel_for.
  replace (2 * length s + 2)%nat with (S (2 * length s + 1)) by lia.
  apply skip_ws_whitespace in H.
  destruct (JsonParse.skip_ws s) as [|c r].
  - reflexivity.
  - inversion H; subst. rewrite value_at_whitespace by assumption.
    reflexivity.
Qed.

(** ** The fuel of the parser is enough *)

Lemma advances_pmap {A B : Type} (f : A -> B) (s : jsstring)
      (p : JsonParse.parsed A) :
  advances s p -> advances s (JsonParse.pmap f p).
Proof. destruct p; simpl; auto. Qed.

Lemma advances_longer {A : Type} (s s' : jsstring) (p : JsonParse.parsed A) :
  advances s' p -> length s' <= length s -> advances s p.
Proof. destruct p; simpl; auto. lia. Qed.

Lemma skip_ws_length (s : jsstring) :
  length (JsonParse.skip_ws s) <= length s.
Proof.
  induction s as [|c r IH]; simpl; [lia|].
  destruct (JsonParse.is_json_ws c); simpl; lia.
Qed.

Lemma digits_length (s : jsstring) (acc n : Z) :
  length (snd (JsonParse.digits acc n s)) <= length s.
Proof.
  revert acc n. induction s as [|c r IH]; intros acc n; simpl; [lia|].
  destruct (JsonParse.is_digit c); simpl; [|lia].
  eapply Nat.le_trans; [apply IH | lia].
Qed.

(** After the integer part: the tail never takes more than it is given. *)
Lemma number_tail_length (neg : bool) (m : Z) (s : jsstring) :
  match JsonParse.number_tail neg m s with
  | JsonParse.Parsed _ r => length r <= length s
  | JsonParse.Malformed => True
  | JsonParse.OutOfFuel => False
  end.
Proof.
  assert (E : forall m e0 t,
             match
               match t with
               | [] => JsonParse.Parsed
                         (JNumber (if neg then (- m)%Z else m) e0) t
               | c :: r =>
                   if ((c =? 101) || (c =? 69))%N then
                     let '(eneg, r1) :=
                       match r with
                       | [] => (false, r)
                       | d :: r' =>
                           if (d =? 45)%N then (true, r')
                           else if (d =? 43)%N then (false, r')
                                else (false, r)
                       end in
                     let '(e, n, r2) := JsonParse.digits 0 0 r1 in
                     if (n =? 0)%Z then JsonParse.Malformed
                     else JsonParse.Parsed
                            (JNumber (if neg then (- m)%Z else m)
                                     (e0 + (if eneg then - e else e))%Z) r2
                   else JsonParse.Parsed
                          (JNumber (if neg then (- m)%Z else m) e0) t
               end
             with
             | JsonParse.Parsed _ r => length r <= length t
             | JsonParse.Malformed => True
             | JsonParse.OutOfFuel => False
             end).
  { intros m0 e0 [|c r]; simpl; [lia|].
    destruct ((c =? 101) || (c =? 69))%N; simpl; [|lia].
    destruct r as [|d r']; simpl.
    - exact I.
    - destruct (d =? 45)%N; [|destruct (d =? 43)%N].
      + pose proof (digits_length r' 0 0) as L.
        destruct (JsonParse.digits 0 0 r') as [[e n] r2]. simpl in L.
        destruct (n =? 0)%Z; simpl; [exact I | lia].
      + pose proof (digits_length r' 0 0) as L.
        destruct (JsonParse.digits 0 0 r') as [[e n] r2]. simpl in L.
        destruct (n =? 0)%Z; simpl; [exact I | lia].
      + pose proof (digits_length (d :: r') 0 0) as L.
        destruct (JsonParse.digits 0 0 (d :: r')) as [[e n] r2].
        simpl in L.
        destruct (n =? 0)%Z; simpl; [exact I | lia]. }
  unfold JsonParse.number_tail.
  destruct s as [|c r]; [apply (E m 0%Z [])|].
  destruct (c =? 46)%N; [|apply (E m 0%Z (c :: r))].
  pose proof (digits_length r m 0) as L.
  destruct (JsonParse.digits m 0 r) as [[m' n] r1]. simpl in L.
  destruct (n =? 0)%Z; [exact I|].
  specialize (E m' (- n)%Z r1).
  match goal with
  | |- match ?x with _ => _ end =>
      match type of E with
      | match ?y with _ => _ end => change x with y; destruct y
      end
  end; simpl in *; auto; lia.
Qed.

Lemma number_advances (s : jsstring) : advances s (JsonParse.number s).
Proof.
  unfold JsonParse.number.
  assert (T : forall neg (t : jsstring),
             length t <= length s ->
             (t = s -> neg = false) ->
             advances s
               match t with
               | [] => JsonParse.Malformed
               | c :: r =>
                   if (c =? 48)%N then JsonParse.number_tail neg 0 r
                   else if JsonParse.is_digit c
                        then let '(m, _, r1) := JsonParse.digits 0 0 t in
                             JsonParse.number_tail neg m r1
                        else JsonParse.Malformed
               end).
  { intros neg [|c r] L _; simpl; [exact I|]. simpl in L.
    destruct (c =? 48)%N.
    - pose proof (number_tail_length neg 0 r) as H.
      destruct (JsonParse.number_tail neg 0 r); simpl in *; auto. lia.
    - destruct (JsonParse.is_digit c) eqn:D; [|exact I].
      match goal with
      | |- context [JsonParse.digits ?a ?k ?t] =>
          pose proof (digits_length t a k) as H1;
          destruct (JsonParse.digits a k t) as [[m n] r1]
      end.
      simpl in H1.
      pose proof (number_tail_length neg m r1) as H.
      destruct (JsonParse.number_tail neg m r1); simpl in *; auto. lia. }
  destruct s as [|c r].
  - apply (T false []); auto.
  - destruct (c =? 45)%N.
    + apply (T true r); [simpl; lia|].
      intro H. exfalso.
      assert (L : length r = length (c :: r)) by (rewrite <- H; reflexivity).
      simpl in L. lia.
    + apply (T false (c :: r)); auto.
Qed.

Lemma chars_advances (s : jsstring) :
  match JsonParse.chars s with
  | JsonParse.Parsed _ r => length r < length s
  | JsonParse.Malformed => True
  | JsonParse.OutOfFuel => False
  end.
Proof.
  induction s as [s IH] using (well_founded_induction
                                 (Wf_nat.well_founded_ltof _ (@length N))).
  unfold Wf_nat.ltof in IH.
  assert (K : forall (u : N) (t : jsstring),
             length t < length s ->
             match JsonParse.pmap (cons u) (JsonParse.chars t) with
             | JsonParse.Parsed _ r => length r < length s
             | JsonParse.Malformed => True
             | JsonParse.OutOfFuel => False
             end).
  { intros u t L. specialize (IH t L).
    destruct (JsonParse.chars t); simpl in *; auto. lia. }
  destruct s as [|c r]; simpl; [exact I|].
  destruct (c =? 34)%N; [simpl; lia|].
  destruct (c =? 92)%N.
  - destruct r as [|e r1]; [exact I|].
    destruct (e =? 117)%N.
    + destruct r1 as [|h1 [|h2 [|h3 [|h4 r2]]]]; try exact I.
      destruct (JsonParse.hex_val h1); [|exact I].
      destruct (JsonParse.hex_val h2); [|exact I].
      destruct (JsonParse.hex_val h3); [|exact I].
      destruct (JsonParse.hex_val h4); [|exact I].
      apply K. simpl. lia.
    + repeat match goal with
             | |- context [if ?b then _ else _] => destruct b
             end; try exact I; apply K; simpl; lia.
  - destruct (c <? 32)%N; [exact I|]. apply K. simpl. lia.
Qed.

Lemma keyword_length (k s r : jsstring) :
  JsonParse.keyword k s = Some r -> length r + length k = length s.
Proof.
  revert s. induction k as [|a k IH]; intros s H; simpl in *.
  - inversion H. lia.
  - destruct s as [|c t]; [discriminate|].
    destruct (c =? a)%N; [|discriminate].
    apply IH in H. simpl. lia.
Qed.

(** With more than twice the length of the text as fuel the parser never
    runs out, and each value it reads takes at least one code unit. *)
Lemma fuel_enough (fuel : nat) :
  forall s : jsstring,
    (2 * length s < fuel -> advances s (JsonParse.value fuel s))
    /\ (2 * length s + 1 < fuel -> advances s (JsonParse.elements fuel s))
    /\ (2 * length s + 1 < fuel -> advances s (JsonParse.members fuel s)).
Proof.
  induction fuel as [|f IH]; intro s.
  - repeat split; intro H; lia.
  - split; [|split]; intro H.
    + destruct s as [|c r]; [exact I|]. simpl in H.
      cbn [JsonParse.value].
      destruct (c =? 123)%N.
      { pose proof (skip_ws_length r) as L.
        destruct (JsonParse.skip_ws r) as [|d r']; [exact I|]. simpl in L.
        destruct (d =? 125)%N; [simpl; lia|].
        apply advances_pmap.
        apply advances_longer with (s' := d :: r'); [|simpl; lia].
        apply (IH (d :: r')). simpl. lia. }
      destruct (c =? 91)%N.
      { pose proof (skip_ws_length r) as L.
        destruct (JsonParse.skip_ws r) as [|d r']; [exact I|]. simpl in L.
        destruct (d =? 93)%N; [simpl; lia|].
        apply advances_pmap.
        apply advances_longer with (s' := d :: r'); [|simpl; lia].
        apply (IH (d :: r')). simpl. lia. }
      destruct (c =? 34)%N.
      { apply advances_pmap. pose proof (chars_advances r) as C.
        destruct (JsonParse.chars r); simpl in *; auto; lia. }
      destruct ((c =? 45)%N || JsonParse.is_digit c).
      { apply number_advances. }
      destruct (JsonParse.keyword JsonParse.kw_true (c :: r)) eqn:K1.
      { apply keyword_length in K1. simpl in *. lia. }
      destruct (JsonParse.keyword JsonParse.kw_false (c :: r)) eqn:K2.
      { apply keyword_length in K2. simpl in *. lia. }
      destruct (JsonParse.keyword JsonParse.kw_null (c :: r)) eqn:K3.
      { apply keyword_length in K3. simpl in *. lia. }
      exact I.
    + cbn [JsonParse.elements].
      pose proof (skip_ws_length s) as L.
      destruct (IH (JsonParse.skip_ws s)) as (V & _ & _).
      assert (V' := V ltac:(lia)). clear V.
      destruct (JsonParse.value f (JsonParse.skip_ws s)) as [v r| |];
        simpl in V'; [|exact I|contradiction].
      pose proof (skip_ws_length r) as L'.
      destruct (JsonParse.skip_ws r) as [|c r']; [exact I|]. simpl in L'.
      destruct (c =? 44)%N.
      { apply advances_pmap.
        apply advances_longer with (s' := r'); [|lia].
        apply (IH r'). lia. }
      destruct (c =? 93)%N; [simpl; lia | exact I].
    + cbn [JsonParse.members].
      pose proof (skip_ws_length s) as L.
      destruct (JsonParse.skip_ws s) as [|q r0]; [exact I|]. simpl in L.
      destruct (q =? 34)%N; [|exact I].
      pose proof (chars_advances r0) as C.
      destruct (JsonParse.chars r0) as [k r1| |]; [|exact I|contradiction].
      pose proof (skip_ws_length r1) as L1.
      destruct (JsonParse.skip_ws r1) as [|c r2]; [exact I|]. simpl in L1.
      destruct (c =? 58)%N; [|exact I].
      pose proof (skip_ws_length r2) as L2.
      destruct (IH (JsonParse.skip_ws r2)) as (V & _ & _).
      assert (V' := V ltac:(lia)). clear V.
      destruct (JsonParse.value f (JsonParse.skip_ws r2)) as [v r3| |];
        simpl in V'; [|exact I|contradiction].
      pose proof (skip_ws_length r3) as L3.
      destruct (JsonParse.skip_ws r3) as [|d r4]; [exact I|]. simpl in L3.
      destruct (d =? 44)%N.
      { apply advances_pmap.
        apply advances_longer with (s' := r4); [|lia].
        apply (IH r4). lia. }
      destruct (d =? 125)%N; [simpl; lia | exact I].
Qed.

(** [JSON.parse] never stops for lack of fuel: its [SyntaxError] is always
    a text that is not JSON. *)
Lemma JSON_parse_fuel (text : jsstring) :
  JsonParse.text_value text <> JsonParse.OutOfFuel.
Proof.
  unfold JsonParse.text_value.
  pose proof (skip_ws_length text) as L.
  destruct (fuel_enough (JsonParse.fuel_for text) (JsonParse.skip_ws text))
    as (V & _ & _).
  assert (V' := V ltac:(unfold JsonParse.fuel_for; lia)). clear V.
  destruct (JsonParse.value (JsonParse.fuel_for text)
                            (JsonParse.skip_ws text)) as [v r| |];
    simpl in V'; [|discriminate|contradiction].
  destruct (JsonParse.skip_ws r); discriminate.
Qed.

(** *** C1 *)

(** C1. The record decoder first parses the whole payload: an array
    gives its elements in order, any other value a list of that one
    value.  When that parse fails the text is split on line feeds, the
    lines without a non-white-space code unit are dropped and every
    remaining line is parsed on its own: the decoder returns records
    exactly when every remaining line parses, one record per line in
    order, and a line that does not parse makes the decoder throw.  The
    four payloads of the specification decode as it says. *)
Theorem parseJsonChunk_policy :
  (forall text : jsstring,
      (forall records,
          JSON_parse text = Ok (JArray records) ->
          parseJsonChunk text = Ok records)
      /\ (forall v,
             JSON_parse text = Ok v -> isArray v = false ->
             parseJsonChunk text = Ok [v])
      /\ (forall e,
             JSON_parse text = Throw e ->
             let lines := filter nonblank (split 10 text) in
             (forall records,
                 parseJsonChunk text = Ok records
                 <-> Forall2 (fun l v => JSON_parse l = Ok v) lines records)
             /\ (forall l,
                    In l lines -> JSON_parse l = Throw SyntaxError ->
                    parseJsonChunk text = Throw SyntaxError)))
  /\ parseJsonChunk (lit "['a','b']")
     = Ok [JString (lit "a"); JString (lit "b")]
  /\ parseJsonChunk (lit "{'x':1}")
     = Ok [JObject [(lit "x", JNumber 1 0)]]
  /\ parseJsonChunk (lit "{'x':1}" ++ LF ++ lit "{'y':2}")
     = Ok [JObject [(lit "x", JNumber 1 0)];
           JObject [(lit "y", JNumber 2 0)]]
  /\ parseJsonChunk (lit "{bad json") = Throw SyntaxError.
Proof.
  split; [|repeat split; vm_compute; reflexivity].
  intro text. unfold parseJsonChunk. split; [|split].
  - intros records H. rewrite H. reflexivity.
  - intros v H Hv. rewrite H. destruct v; try reflexivity. discriminate.
  - intros e He. cbv zeta. rewrite He, filter_trim_nonblank. split.
    + intros records. split.
      * apply map_throwing_Ok_Forall2.
      * apply map_throwing_Forall2.
    + intros l Hin Hl. apply map_throwing_In with (x := l); assumption.
Qed.

(** *** C9 *)

(** C9. On a payload made of white space only (line feeds included, the
    empty text too) the whole-payload parse fails, and the decoder
    returns the empty list of records without throwing. *)
Theorem parseJsonChunk_blank (text : jsstring) :
  Forall (fun c => is_js_whitespace c = true) text ->
  JSON_parse text = Throw SyntaxError /\ parseJsonChunk text = Ok [].
Proof.
  intro H. split; [apply JSON_parse_whitespace; exact H|].
  unfold parseJsonChunk. rewrite (JSON_parse_whitespace H).
  rewrite filter_trim_nonblank.
  rewrite filter_nonblank_blank; [reflexivity|].
  apply split_Forall. exact H.
Qed.

(** ** Relations kept by the steps of the program *)

Section Keeps.
Variable R : Session -> Session -> Prop.
Hypothesis R_refl : forall s, R s s.
Hypothesis R_trans : forall a b c, R a b -> R b c -> R a c.

Lemma keeps_ret {A : Type} (a : A) : keeps R (ret a).
Proof. intro w. apply R_refl. Qed.

Lemma keeps_throw {A : Type} (e : Thrown) : keeps R (@throw A e).
Proof. intro w. apply R_refl. Qed.

Lemma keeps_lift {A : Type} (r : result A) : keeps R (lift r).
Proof. intro w. apply R_refl. Qed.

Lemma keeps_self : keeps R self.
Proof. intro w. apply R_refl. Qed.

Lemma keeps_the_controller : keeps R the_controller.
Proof. intro w. apply R_refl. Qed.

Lemma keeps_set_controller (c : Controller) : keeps R (set_controller c).
Proof. intro w. apply R_refl. Qed.

Lemma keeps_get_firstResponseConsumed : keeps R get_firstResponseConsumed.
Proof. intro w. apply R_refl. Qed.

Lemma keeps_set_firstResponseConsumed (b : bool) :
  keeps R (set_firstResponseConsumed b).
Proof. intro w. apply R_refl. Qed.

Lemma keeps_modify (f : Session -> Session) :
  (forall s, R s (f s)) -> keeps R (modify f).
Proof. intros H w. apply H. Qed.

Lemma keeps_bind {A B : Type} (c : M A) (k : A -> M B) :
  keeps R c -> (forall a, keeps R (k a)) -> keeps R (bind c k).
Proof.
  intros Hc Hk w. unfold bind. specialize (Hc w).
  destruct (c w) as [[a|e] w1]; simpl in *.
  - eapply R_trans; [exact Hc | apply Hk].
  - exact Hc.
Qed.

Lemma keeps_try_catch {A : Type} (c : M A) (h : Thrown -> M A) :
  keeps R c -> (forall e, keeps R (h e)) -> keeps R (try_catch c h).
Proof.
  intros Hc Hh w. unfold try_catch. specialize (Hc w).
  destruct (c w) as [[a|e] w1]; simpl in *.
  - exact Hc.
  - eapply R_trans; [exact Hc | apply Hh].
Qed.

Lemma keeps_enqueue (chunk : ByteChunk) : keeps R (enqueue chunk).
Proof.
  unfold enqueue.
  repeat (apply keeps_bind; [|intro]);
    auto using keeps_the_controller, keeps_lift, keeps_set_controller.
Qed.

Lemma keeps_close : keeps R close.
Proof.
  unfold close.
  repeat (apply keeps_bind; [|intro]);
    auto using keeps_the_controller, keeps_lift, keeps_set_controller.
Qed.

Lemma keeps_error (e : Thrown) : keeps R (error e).
Proof.
  unfold error.
  repeat (apply keeps_bind; [|intro]);
    auto using keeps_the_controller, keeps_set_controller.
Qed.
End Keeps.

Create HintDb keeps discriminated.
#[local] Hint Resolve keeps_ret keeps_throw keeps_lift keeps_self
  keeps_the_controller keeps_set_controller keeps_get_firstResponseConsumed
  keeps_set_firstResponseConsumed keeps_enqueue keeps_close keeps_error
  : keeps.

(** Splits a step into its parts, down to the session functions under
    [modify]. *)
Ltac keeps_steps trans :=
  repeat
    first
      [ apply (keeps_bind trans); [|intro]
      | apply (keeps_try_catch trans); [|intro]
      | match goal with
        | |- keeps _ (if ?b then _ else _) => destruct b
        | |- keeps _ (match ?x with _ => _ end) => destruct x
        end
      | solve [auto with keeps] ].

(** ** The session only moves towards [Closed] *)

Lemma steady_refl (s : Session) : steady s s.
Proof. left. split; reflexivity. Qed.

Lemma steady_trans (a b c : Session) : steady a b -> steady b c -> steady a c.
Proof.
  intros [[H1 H2]|(H1 & H2 & o & H3)] [[H4 H5]|(H4 & H5 & o' & H6)].
  - left. split; congruence.
  - right. split; [congruence|]. split; [assumption|].
    exists o'. congruence.
  - right. split; [assumption|]. split; [congruence|].
    exists o. congruence.
  - contradiction.
Qed.

Lemma evolves_refl (s : Session) : evolves s s.
Proof. left. apply steady_refl. Qed.

Lemma evolves_trans (a b c : Session) :
  evolves a b -> evolves b c -> evolves a c.
Proof.
  intros [H1|(H1 & H2 & H3)] [H4|(H4 & H5 & H6)].
  - left. eapply steady_trans; eassumption.
  - destruct H1 as [[H7 H8]|(H7 & H8 & _)].
    + right. repeat split; congruence.
    + congruence.
  - destruct H4 as [[H7 H8]|(H7 & H8 & o & H9)].
    + right. repeat split; congruence.
    + left. right. split; [congruence|]. split; [assumption|].
      exists o. congruence.
  - congruence.
Qed.

Lemma steady_markClosed (s : Session) : steady s (markClosed s).
Proof.
  unfold markClosed. destruct (state s) eqn:E; simpl.
  - right. rewrite E. split; [discriminate|]. split; [reflexivity|].
    exists Fulfilled. reflexivity.
  - right. rewrite E. split; [discriminate|]. split; [reflexivity|].
    exists Fulfilled. reflexivity.
  - apply steady_refl.
Qed.

Lemma steady_markError (err : Thrown) (s : Session) :
  steady s (markError err s).
Proof.
  unfold markError. destruct (state s) eqn:E; simpl.
  - right. rewrite E. split; [discriminate|]. split; [reflexivity|].
    exists (Rejected err). reflexivity.
  - right. rewrite E. split; [discriminate|]. split; [reflexivity|].
    exists (Rejected err). reflexivity.
  - apply steady_refl.
Qed.

Lemma steady_cancel (s : Session) : steady s (cancel s).
Proof.
  unfold cancel.
  eapply steady_trans; [|apply steady_markClosed].
  destruct (sseIterator (set_aborted true s)); left; split; reflexivity.
Qed.

Lemma steady_source_cancel (s : Session) : steady s (source_cancel s).
Proof.
  unfold source_cancel.
  eapply steady_trans; [|apply steady_markClosed].
  left; split; reflexivity.
Qed.

Lemma steady_updateStateFromResponse (response : Response) (s : Session) :
  steady s (updateStateFromResponse response s).
Proof.
  unfold updateStateFromResponse. left.
  destruct (headers_get STREAM_OFFSET_HEADER (headers response)) as [[|? ?]|];
    destruct (headers_get STREAM_CURSOR_HEADER (headers response))
      as [[|? ?]|];
    split; reflexivity.
Qed.

#[local] Hint Resolve steady_refl steady_trans steady_markClosed steady_markError
  steady_cancel steady_source_cancel steady_updateStateFromResponse
  : keeps.

Lemma keeps_steady_modify (f : Session -> Session) :
  (forall s, steady s (f s)) -> keeps steady (modify f).
Proof. apply keeps_modify. Qed.

Ltac steady_steps :=
  keeps_steps steady_trans;
  try (apply keeps_steady_modify; intro;
       first [ solve [auto with keeps] | left; split; reflexivity ]).

Lemma steady_suspend (env : PullEnv) : keeps steady (suspend env).
Proof. unfold suspend. steady_steps. Qed.

#[local] Hint Resolve steady_suspend : keeps.

Lemma steady_first_response (env : PullEnv) (response : Response) :
  keeps steady (first_response env response).
Proof. unfold first_response. steady_steps. Qed.

Lemma steady_live_updates (env : PullEnv) : keeps steady (live_updates env).
Proof. unfold live_updates. steady_steps. Qed.

#[local] Hint Resolve steady_first_response steady_live_updates : keeps.

Lemma steady_pull (env : PullEnv) : keeps steady (pull env).
Proof. unfold pull, pull_try, pull_catch. steady_steps. Qed.

#[local] Hint Resolve steady_pull : keeps.

Lemma steady_stream_pull (env : PullEnv) : keeps steady (stream_pull env).
Proof. unfold stream_pull. steady_steps. Qed.

#[local] Hint Resolve steady_stream_pull : keeps.

Lemma steady_read (env : PullEnv) : keeps steady (read env).
Proof. unfold read, settle_read, dequeue. steady_steps. Qed.

Lemma steady_pull_ahead (env : PullEnv) : keeps steady (pull_ahead env).
Proof. unfold pull_ahead. steady_steps. Qed.

Lemma steady_stream_cancel : keeps steady stream_cancel.
Proof. unfold stream_cancel. steady_steps. Qed.

(** ** Histories *)

Lemma steady_evolves (s s' : Session) : steady s s' -> evolves s s'.
Proof. intro H. left. exact H. Qed.

Lemma evolves_markConsuming (s : Session) : evolves s (markConsuming s).
Proof.
  unfold markConsuming. destruct (state s) eqn:E; simpl.
  - right. rewrite E. repeat split.
  - apply evolves_refl.
  - apply evolves_refl.
Qed.

Lemma steady_on_stream {A : Type} (c : M A) (sys : System) :
  keeps steady c ->
  steady (sys_session sys) (sys_session (on_stream c sys)).
Proof.
  intro H. unfold on_stream. destruct (sys_stream sys) as [st|].
  - apply (H (mkWorld (sys_session sys) st)).
  - apply steady_refl.
Qed.

Lemma evolves_apply_op (op : Op) (sys : System) :
  evolves (sys_session sys) (sys_session (apply_op op sys)).
Proof.
  destruct op; simpl.
  - apply evolves_markConsuming.
  - apply steady_evolves, steady_on_stream, steady_stream_pull.
  - apply steady_evolves, steady_on_stream, steady_read.
  - apply steady_evolves, steady_on_stream, steady_stream_cancel.
  - apply steady_evolves, steady_source_cancel.
  - apply steady_evolves, steady_cancel.
  - apply steady_evolves, steady_markClosed.
  - apply steady_evolves, steady_markError.
Qed.

Lemma evolves_run (ops : list Op) (sys : System) :
  evolves (sys_session sys) (sys_session (run ops sys)).
Proof.
  revert sys. induction ops as [|op ops IH]; intro sys; simpl.
  - apply evolves_refl.
  - eapply evolves_trans; [apply evolves_apply_op | apply IH].
Qed.

Lemma evolves_Closed (s s' : Session) :
  evolves s s' -> state s = Closed ->
  state s' = Closed /\ closed s' = closed s.
Proof.
  intros [[[H1 H2]|(H1 & _)]|(H1 & _)] H; try congruence.
  split; congruence.
Qed.

Lemma evolves_not_Ready (s s' : Session) :
  evolves s s' -> state s <> Ready -> state s' <> Ready.
Proof.
  intros [[[H1 H2]|(H1 & H2 & _)]|(H1 & H2 & _)] H; congruence.
Qed.

Lemma evolves_settled (s s' : Session) :
  evolves s s' -> settled_with_state s -> settled_with_state s'.
Proof.
  unfold settled_with_state.
  intros [[[H1 H2]|(H1 & H2 & o & H3)]|(H1 & H2 & H3)] H.
  - rewrite H1, H2. exact H.
  - rewrite H2, H3.
    destruct (state s); try contradiction; rewrite H; simpl;
      (split; [reflexivity | discriminate]).
  - rewrite H2, H3. rewrite H1 in H. exact H.
Qed.

Lemma settled_boot (config : StreamResponseConfig) :
  settled_with_state (sys_session (boot config)).
Proof. reflexivity. Qed.

Lemma close_op_closes (c : CloseOp) (sys : System) :
  let s := sys_session sys in
  let s' := sys_session (apply_op (close_op c) sys) in
  state s' = Closed
  /\ (state s <> Closed -> closed s' = settle (outcome_of c) (closed s)).
Proof.
  destruct c; simpl;
    unfold source_cancel, cancel, markClosed, markError; simpl;
    try (destruct (sseIterator (sys_session sys)); simpl);
    destruct (state (sys_session sys)) eqn:E; simpl;
    (split; [try reflexivity; try assumption | intro H; try reflexivity;
                                               contradiction]).
Qed.

(** *** C5 *)

(** C5. After any history of a session, the first operation that closes
    it ([#markClosed], [#markError], [cancel] or the [cancel] of the
    stream's source) leaves it [Closed] with its [closed] promise called
    exactly once; when the session was not closed before, the promise is
    fulfilled by a clean close and rejected with its error by
    [#markError].  Whatever happens afterwards, further closes, errors
    and cancels included, the state stays [Closed] and the promise is as
    it was. *)
Theorem closed_settles_once
        (config : StreamResponseConfig) (before : list Op) (c : CloseOp)
        (after : list Op) :
  let sys0 := run before (boot config) in
  let sys1 := apply_op (close_op c) sys0 in
  let sys2 := run after sys1 in
  state (sys_session sys1) = Closed
  /\ settle_calls (closed (sys_session sys1)) = 1
  /\ settlement (closed (sys_session sys1)) <> None
  /\ (state (sys_session sys0) <> Closed ->
      closed (sys_session sys1) = mkDeferred (Some (outcome_of c)) 1)
  /\ state (sys_session sys2) = Closed
  /\ closed (sys_session sys2) = closed (sys_session sys1).
Proof.
  intros sys0 sys1 sys2.
  assert (I0 : settled_with_state (sys_session sys0)).
  { eapply evolves_settled; [apply evolves_run | apply settled_boot]. }
  assert (I1 : settled_with_state (sys_session sys1)).
  { eapply evolves_settled; [apply evolves_apply_op | exact I0]. }
  destruct (close_op_closes c sys0) as [C1 C2]. fold sys1 in C1, C2.
  unfold settled_with_state in I1. rewrite C1 in I1. destruct I1 as [I1 I2].
  destruct (evolves_Closed (evolves_run after sys1) C1) as [F1 F2].
  repeat split; try assumption.
  intro H. rewrite (C2 H).
  unfold settled_with_state in I0.
  destruct (state (sys_session sys0)); try contradiction;
    rewrite I0; reflexivity.
Qed.

(** *** C8 *)

Lemma transitions_not_Ready (ops : list Op) (sys : System) :
  state (sys_session sys) <> Ready ->
  filter is_Ready_to_Consuming (transitions ops sys) = [].
Proof.
  revert sys. induction ops as [|op ops IH]; intros sys H; simpl.
  - reflexivity.
  - rewrite IH.
    + destruct (state (sys_session sys)); try contradiction; reflexivity.
    + eapply evolves_not_Ready; [apply evolves_apply_op | exact H].
Qed.

Lemma pull_not_Consuming (op : Op) (sys : System) :
  state (sys_session sys) = Ready ->
  state (sys_session (apply_op op sys)) = Consuming ->
  op = OpCreateByteStream.
Proof.
  intros H1 H2.
  assert (S : forall s', steady (sys_session sys) s' -> state s' <> Consuming).
  { intros s' [[H3 _]|(_ & H3 & _)]; congruence. }
  destruct op; simpl in H2; try reflexivity; exfalso;
    refine (S _ _ H2).
  - apply steady_on_stream, steady_stream_pull.
  - apply steady_on_stream, steady_read.
  - apply steady_on_stream, steady_stream_cancel.
  - apply steady_source_cancel.
  - apply steady_cancel.
  - apply steady_markClosed.
  - apply steady_markError.
Qed.

(** C8 (amended). Along any history of a session the state goes from
    [Ready] to [Consuming] at most once, and the step that does it is
    the creation of the byte stream by a consumption method
    ([#createByteStream] calling [#markConsuming]), never a pull or a
    read; creating the byte stream of a [Ready] session makes it
    [Consuming] at once, and a session that has left [Ready] never
    returns to it. *)
Theorem Ready_to_Consuming_once (ops : list Op) (sys : System) :
  length (filter is_Ready_to_Consuming (transitions ops sys)) <= 1
  /\ (forall op before after,
         In (op, before, after) (transitions ops sys) ->
         before = Ready -> after = Consuming -> op = OpCreateByteStream)
  /\ (state (sys_session sys) = Ready ->
      state (sys_session (apply_op OpCreateByteStream sys)) = Consuming)
  /\ (state (sys_session sys) <> Ready ->
      state (sys_session (run ops sys)) <> Ready).
Proof.
  split; [|split; [|split]].
  - revert sys. induction ops as [|op ops IH]; intro sys; simpl.
    + lia.
    + destruct (SessionState_eqb (state (sys_session sys)) Ready
                && SessionState_eqb
                     (state (sys_session (apply_op op sys))) Consuming)
               eqn:E.
      * simpl. rewrite transitions_not_Ready; [simpl; lia|].
        apply andb_prop in E. destruct E as [_ E].
        destruct (state (sys_session (apply_op op sys)));
          discriminate.
      * apply IH.
  - revert sys. induction ops as [|op ops IH]; intros sys o b a Hin Hb Ha;
      simpl in Hin.
    + contradiction.
    + destruct Hin as [Heq|Hin].
      * inversion Heq; subst.
        eapply pull_not_Consuming; eauto.
      * eapply IH; eauto.
  - intro H. simpl. unfold markConsuming. rewrite H. reflexivity.
  - intro H. eapply evolves_not_Ready; [apply evolves_run | exact H].
Qed.

(** ** The resumption position after a continuation response *)

(** C3 (amended). After a continuation response, the offset and the
    cursor are replaced by the value of their header when it is there
    and not empty, and kept as they were when the header is absent (or
    empty); the caught-up flag is whether the up-to-date header is
    present, so it is [false] after a response without that header,
    whatever it was before. *)
Theorem updateStateFromResponse_headers (response : Response) (s : Session) :
  let s' := updateStateFromResponse response s in
  let h := headers response in
  (headers_get STREAM_OFFSET_HEADER h = None -> offset s' = offset s)
  /\ (headers_get STREAM_CURSOR_HEADER h = None -> cursor s' = cursor s)
  /\ (forall v, headers_get STREAM_OFFSET_HEADER h = Some v ->
                offset s' = if truthy_header (Some v) then v else offset s)
  /\ (forall v, headers_get STREAM_CURSOR_HEADER h = Some v ->
                cursor s' = if truthy_header (Some v) then Some v
                            else cursor s)
  /\ upToDate s' = headers_has STREAM_UP_TO_DATE_HEADER h
  /\ (headers_get STREAM_UP_TO_DATE_HEADER h = None -> upToDate s' = false).
Proof.
  unfold updateStateFromResponse. cbv zeta.
  destruct (headers_get STREAM_OFFSET_HEADER (headers response))
    as [[|a o]|] eqn:Ho;
    destruct (headers_get STREAM_CURSOR_HEADER (headers response))
      as [[|b c]|] eqn:Hc;
    simpl; repeat split; try discriminate; try reflexivity;
      try (intros v Hv; inversion Hv; subst; reflexivity);
      try (intro Hu; unfold headers_has; rewrite Hu; reflexivity).
Qed.

(** ** The structured-mode guard *)

(** C4. On a session that is not in JSON mode, [json], [jsonStream] and
    [subscribeJson] throw a [DurableStreamError] with code [BAD_REQUEST]
    whose message contains the session's content type; they do so
    whatever the continuation transport would answer, leave the session
    as it was (its first response still held, its state unchanged) and
    make no stream.  On a JSON-mode session the guard returns and the
    three methods go on to make their byte stream. *)
Theorem json_methods_need_json_mode (s : Session) :
  (isJsonMode s = false ->
   exists message,
     (exists before after,
         message
         = (before ++ show_contentType (contentType s) ++ after)%string)
     /\ ensureJsonMode s = Throw (DurableStreamError message "BAD_REQUEST")
     /\ (forall env envs,
            json env envs s
            = (Throw (DurableStreamError message "BAD_REQUEST"), s, None))
     /\ jsonStream s = Throw (DurableStreamError message "BAD_REQUEST")
     /\ subscribeJson s = Throw (DurableStreamError message "BAD_REQUEST"))
  /\ (isJsonMode s = true ->
      ensureJsonMode s = Ok tt
      /\ (forall env envs, exists r s' st,
             json env envs s = (r, s', Some st))
      /\ jsonStream s = Ok (createByteStream s)
      /\ subscribeJson s = Ok (new_subscription, createByteStream s)).
Proof.
  split; intro H.
  - eexists. split; [|split; [|split; [|split]]].
    2: { unfold ensureJsonMode. rewrite H. simpl. reflexivity. }
    + exists ("JSON methods are only valid for JSON-mode streams. "
              ++ "Content-Type is " ++ dquote)%string,
             (dquote ++ " and json hint was not set.")%string.
      reflexivity.
    + intros env envs. unfold json, ensureJsonMode. rewrite H. reflexivity.
    + unfold jsonStream, ensureJsonMode. rewrite H. reflexivity.
    + unfold subscribeJson, ensureJsonMode. rewrite H. reflexivity.
  - assert (E : ensureJsonMode s = Ok tt).
    { unfold ensureJsonMode. rewrite H. reflexivity. }
    split; [exact E|]. split; [|split].
    + intros env envs. unfold json. rewrite E.
      destruct ((r0 <- read env;; json_while envs r0 [])
                  (createByteStream (set_stopAfterUpToDate true s)))
        as [r w].
      eauto.
    + unfold jsonStream. rewrite E. reflexivity.
    + unfold subscribeJson. rewrite E. reflexivity.
Qed.

(** ** The pulls of the chunk producer *)

Ltac unfold_m :=
  unfold stream_pull, pull, pull_try, pull_catch, first_response,
    live_updates, suspend, enqueue, close, error, try_catch, bind, ret,
    throw, lift, self, modify, the_controller, set_controller,
    get_firstResponseConsumed, set_firstResponseConsumed in *.

(** Opens a world into the fields of its session and of its stream. *)
Ltac open_world w :=
  let ss := fresh "ss" in
  let frc := fresh "frc" in
  let q := fresh "q" in
  let cr := fresh "cr" in
  let st := fresh "st" in
  destruct w as [ss [frc [q cr st]]]; destruct ss; simpl in *.

Ltac plain x :=
  lazymatch x with
  | context [match _ with _ => _ end] => fail
  | _ => idtac
  end.

(** Case analysis on what the goal branches on, innermost first. *)
Ltac split_cases :=
  repeat match goal with
         | |- context [match ?x with _ => _ end] =>
             plain x; destruct x eqn:?; simpl in *
         end.

(** A [try] block that throws has not touched the controller: what it
    throws comes from the body of the first response, from the
    continuation request or from the push iterator. *)
Lemma pull_try_throws (env : PullEnv) (w : World) :
  canCloseOrEnqueue (controller (stream w)) = true ->
  match pull_try env w with
  | (Throw _, w1) => controller (stream w1) = controller (stream w)
  | (Ok _, _) => True
  end.
Proof.
  intro Hc. open_world w. destruct cr, st; try discriminate.
  unfold_m. simpl.
  unfold read_all, arrayBuffer, read_all, updateStateFromResponse, cancel,
    markClosed, shouldContinueLive. simpl.
  split_cases; try reflexivity; exact I.
Qed.

Ltac unfold_pull :=
  unfold_m; simpl;
  unfold read_all, arrayBuffer, read_all, updateStateFromResponse, cancel,
    markClosed, markError, shouldContinueLive; simpl.

(** What a call of [pull] does: it returns, and the controller has one
    chunk more, the end of the stream, or an error. *)
Lemma pull_outcome (env : PullEnv) (w : World) :
  canCloseOrEnqueue (controller (stream w)) = true ->
  let c := controller (stream w) in
  let c' := controller (stream (snd (pull env w))) in
  fst (pull env w) = Ok tt
  /\ ((exists chunk, queue c' = queue c ++ [chunk] /\ sstate c' = Readable)
      \/ (queue c' = queue c /\ closeRequested c' = true
          /\ sstate c' = match queue c with
                         | [] => StreamClosed
                         | _ :: _ => Readable
                         end)
      \/ (exists e, queue c' = [] /\ sstate c' = Errored e)).
Proof.
  intro Hc. open_world w. destruct cr, st; try discriminate.
  destruct q as [|c0 q]; unfold_pull.
  all: split_cases;
    (split; [reflexivity|]);
    first [ left; eexists; split; reflexivity
          | right; left; repeat split; reflexivity
          | right; right; eexists; split; reflexivity ].
Qed.

(** The same of the stream calling [pull]. *)
Lemma stream_pull_outcome (env : PullEnv) (w : World) :
  canCloseOrEnqueue (controller (stream w)) = true ->
  let c := controller (stream w) in
  let c' := controller (stream (snd (stream_pull env w))) in
  fst (stream_pull env w) = Ok tt
  /\ ((exists chunk, queue c' = queue c ++ [chunk] /\ sstate c' = Readable)
      \/ (queue c' = queue c /\ closeRequested c' = true
          /\ sstate c' = match queue c with
                         | [] => StreamClosed
                         | _ :: _ => Readable
                         end)
      \/ (exists e, queue c' = [] /\ sstate c' = Errored e)).
Proof.
  intro Hc. cbv zeta.
  destruct (pull_outcome env w Hc) as [H1 H2].
  unfold stream_pull, bind, the_controller, try_catch. rewrite Hc.
  destruct (pull env w) as [r w']. cbn [fst snd] in *. subst r.
  split; [reflexivity | exact H2].
Qed.

(** A stream whose controller can neither close nor enqueue does not
    pull. *)
Lemma stream_pull_idle (env : PullEnv) (w : World) :
  canCloseOrEnqueue (controller (stream w)) = false ->
  stream_pull env w = (Ok tt, w).
Proof.
  intro H. unfold stream_pull, bind, the_controller, ret. rewrite H.
  reflexivity.
Qed.

(** Once the pull that the stream started by itself has settled, the
    stream starts no other: a chunk is queued, or the stream is closed or
    errored. *)
Lemma pull_ahead_settled (env env' : PullEnv) (w : World) :
  pull_ahead env' (snd (pull_ahead env w)) = (Ok tt, snd (pull_ahead env w)).
Proof.
  assert (Idle : forall e w0,
             canCloseOrEnqueue (controller (stream w0)) = false ->
             pull_ahead e w0 = (Ok tt, w0)).
  { intros e w0 H. unfold pull_ahead, bind, the_controller.
    destruct (length (queue (controller (stream w0))) <? 1)%nat;
      [apply stream_pull_idle; exact H | reflexivity]. }
  assert (Full : forall e w0,
             (length (queue (controller (stream w0))) <? 1)%nat = false ->
             pull_ahead e w0 = (Ok tt, w0)).
  { intros e w0 H. unfold pull_ahead, bind, the_controller. rewrite H.
    reflexivity. }
  destruct (length (queue (controller (stream w))) <? 1)%nat eqn:L.
  - destruct (canCloseOrEnqueue (controller (stream w))) eqn:C.
    + assert (E : pull_ahead env w = stream_pull env w).
      { unfold pull_ahead, bind, the_controller. rewrite L. reflexivity. }
      rewrite E.
      destruct (stream_pull_outcome env w C) as [_ H].
      destruct (queue (controller (stream w))) as [|c0 q] eqn:Q;
        [|discriminate L].
      cbn [app] in H.
      destruct H as [(chunk & H1 & _)|[(_ & H2 & _)|(e & _ & H3)]].
      * apply Full. rewrite H1. reflexivity.
      * apply Idle. unfold canCloseOrEnqueue. rewrite H2. reflexivity.
      * apply Idle. unfold canCloseOrEnqueue. rewrite H3.
        apply Bool.andb_false_r.
    + rewrite (Idle env w C). apply Idle. exact C.
  - rewrite (Full env w L). apply Full. exact L.
Qed.

Lemma state_markClosed (s : Session) : state (markClosed s) = Closed.
Proof. unfold markClosed. destruct (state s) eqn:E; simpl; auto. Qed.

Lemma state_markError (err : Thrown) (s : Session) :
  state (markError err s) = Closed.
Proof. unfold markError. destruct (state s) eqn:E; simpl; auto. Qed.

(** *** C6 *)

(** C6. When the [try] block of a pull throws and the session's signal
    is aborted by then, the pull itself does not fail: the session is
    marked closed ([Closed], its promise fulfilled if it was still
    pending and never rejected by this), and the controller is closed,
    not errored.  When the signal is not aborted the session is marked
    with the error (its promise rejected if it was still pending) and
    the stream errored with what was thrown. *)
Theorem pull_failure_after_abort
        (env : PullEnv) (w w1 : World) (err : Thrown) :
  canCloseOrEnqueue (controller (stream w)) = true ->
  pull_try env w = (Throw err, w1) ->
  let w2 := snd (stream_pull env w) in
  (aborted (session w1) = true ->
   fst (pull env w) = Ok tt
   /\ session w2 = markClosed (session w1)
   /\ state (session w2) = Closed
   /\ (state (session w1) <> Closed ->
       closed (session w2) = closedResolve (closed (session w1)))
   /\ (state (session w1) = Closed ->
       closed (session w2) = closed (session w1))
   /\ closeRequested (controller (stream w2)) = true
   /\ queue (controller (stream w2)) = queue (controller (stream w))
   /\ sstate (controller (stream w2))
      = match queue (controller (stream w)) with
        | [] => StreamClosed
        | _ :: _ => Readable
        end)
  /\ (aborted (session w1) = false ->
      session w2 = markError (toError err) (session w1)
      /\ state (session w2) = Closed
      /\ (state (session w1) <> Closed ->
          closed (session w2)
          = closedReject (toError err) (closed (session w1)))
      /\ sstate (controller (stream w2)) = Errored err).
Proof.
  intros Hc Ht w2. subst w2.
  pose proof (pull_try_throws env w Hc) as Hk. rewrite Ht in Hk.
  unfold stream_pull, pull, bind, the_controller, try_catch.
  rewrite Hc, Ht.
  destruct w1 as [s1 [frc1 c1]]. simpl in Hk. subst c1.
  destruct (controller (stream w)) as [q cr st].
  destruct cr, st; try discriminate.
  unfold pull_catch, bind, self, modify, close, error, bind, the_controller,
    lift, set_controller. simpl.
  split; intro Ha; rewrite Ha; simpl.
  - rewrite state_markClosed. repeat split.
    + intro H. unfold markClosed.
      destruct (state s1); try contradiction; reflexivity.
    + intro H. unfold markClosed. rewrite H. reflexivity.
  - rewrite state_markError. repeat split.
    intro H. unfold markError.
    destruct (state s1); try contradiction; reflexivity.
Qed.

(** *** C7 *)

(** C7. A pull of a stream that has not consumed the first response,
    on a session that still holds it, reads the body of that response to
    its end, joins the pieces and enqueues exactly one chunk with them,
    tagged with the session's offset, cursor and caught-up flag; without
    a body it enqueues exactly one chunk of no data with the same tags;
    when the read of the body fails it enqueues nothing.  The session
    then holds no first response.  For the first pull of a new session
    the tags are those of the initial response. *)
Theorem first_pull_emits_first_response (env : PullEnv) :
  (forall (w : World) (response : Response),
      canCloseOrEnqueue (controller (stream w)) = true ->
      firstResponseConsumed (stream w) = false ->
      firstResponse (session w) = Some response ->
      let s := session w in
      let w' := snd (stream_pull env w) in
      let tagged d := mkChunk d (offset s) (cursor s) (upToDate s) in
      (forall b,
          body response = Some b -> failure b = None ->
          queue (controller (stream w'))
          = queue (controller (stream w)) ++ [tagged (concat (chunks b))])
      /\ (body response = None ->
          queue (controller (stream w'))
          = queue (controller (stream w)) ++ [tagged []])
      /\ (forall b e,
             body response = Some b -> failure b = Some e ->
             forall c, In c (queue (controller (stream w'))) ->
                       In c (queue (controller (stream w))))
      /\ firstResponse (session w') = None
      /\ firstResponseConsumed (stream w') = true)
  /\ (forall config : StreamResponseConfig,
         let w0 := createByteStream (new_session config) in
         let w' := snd (stream_pull env w0) in
         let tagged d :=
           mkChunk d (initialOffset config) (initialCursor config)
                   (initialUpToDate config) in
         (forall b,
             body (cfg_firstResponse config) = Some b -> failure b = None ->
             queue (controller (stream w')) = [tagged (concat (chunks b))])
         /\ (body (cfg_firstResponse config) = None ->
             queue (controller (stream w')) = [tagged []])).
Proof.
  assert (G : forall (w : World) (response : Response),
             canCloseOrEnqueue (controller (stream w)) = true ->
             firstResponseConsumed (stream w) = false ->
             firstResponse (session w) = Some response ->
             let s := session w in
             let w' := snd (stream_pull env w) in
             let tagged d := mkChunk d (offset s) (cursor s) (upToDate s) in
             (forall b,
                 body response = Some b -> failure b = None ->
                 queue (controller (stream w'))
                 = queue (controller (stream w))
                     ++ [tagged (concat (chunks b))])
             /\ (body response = None ->
                 queue (controller (stream w'))
                 = queue (controller (stream w)) ++ [tagged []])
             /\ (forall b e,
                    body response = Some b -> failure b = Some e ->
                    forall c, In c (queue (controller (stream w'))) ->
                              In c (queue (controller (stream w))))
             /\ firstResponse (session w') = None
             /\ firstResponseConsumed (stream w') = true).
  { intros w response Hc Hf Hr s w' tagged. subst w' tagged s.
    open_world w. subst. destruct cr, st; try discriminate.
    unfold_m. simpl.
    unfold read_all, cancel, markClosed, markError, shouldContinueLive. simpl.
    split; [|split; [|split; [|split]]].
    - intros b Hb Hfail. rewrite Hb, Hfail. simpl.
      split_cases; reflexivity.
    - intros Hb. rewrite Hb. simpl. split_cases; reflexivity.
    - intros b e Hb Hfail c. rewrite Hb, Hfail. simpl.
      split_cases; auto; contradiction.
    - split_cases; reflexivity.
    - split_cases; reflexivity. }
  split; [exact G|].
  intros config w0 w' tagged.
  destruct (G w0 (cfg_firstResponse config) eq_refl eq_refl eq_refl)
    as (A & B & _).
  split.
  - intros b Hb Hfail. apply (A b Hb Hfail).
  - intro Hb. apply (B Hb).
Qed.

(** ** Scenario A *)

(** C2. On a new session in replay mode ([live] is [false]) and JSON
    mode whose first response is caught up and has the body [[1,2]],
    [json()] returns the records 1 and 2, and leaves the session
    [Closed] with its [closed] promise fulfilled by its one call, whether
    or not the session is cancelled while the body is read and whatever
    the continuation transport would answer. *)
Theorem json_replay_scenario
        (config : StreamResponseConfig) (b : Body)
        (env : PullEnv) (envs : list PullEnv) :
  cfg_live config = LiveFalse ->
  initialUpToDate config = true ->
  cfg_isJsonMode config = true ->
  body (cfg_firstResponse config) = Some b ->
  failure b = None ->
  concat (chunks b) = list_byte_of_string "[1,2]" ->
  exists s' st',
    json env envs (new_session config)
    = (Ok (Some [JNumber 1 0; JNumber 2 0]), s', Some st')
    /\ state s' = Closed
    /\ closed s' = mkDeferred (Some Fulfilled) 1
    /\ sstate (controller st') = StreamClosed.
Proof.
  intros Hl Hu Hj Hb Hf Hd.
  destruct config; simpl in *; subst.
  unfold json, ensureJsonMode, new_session, createByteStream. simpl.
  unfold read, settle_read, dequeue.
  unfold_m. simpl. rewrite Hb. unfold read_all. rewrite Hf. simpl.
  rewrite Hd.
  destruct (cancelled_meanwhile env); destruct envs; simpl;
    unfold json_chunk; simpl;
    do 2 eexists; (split; [reflexivity | repeat split; reflexivity]).
Qed.

(** ** Subscriptions *)

Lemma state_cancel (s : Session) : state (cancel s) = Closed.
Proof. unfold cancel. apply state_markClosed. Qed.

Lemma closed_cancel (s : Session) :
  closed (cancel s)
  = match state s with
    | Closed => closed s
    | _ => closedResolve (closed s)
    end.
Proof.
  unfold cancel, markClosed.
  destruct (sseIterator (set_aborted true s)) eqn:E; simpl;
    destruct (state s); reflexivity.
Qed.

Lemma aborted_cancel (s : Session) : aborted (cancel s) = true.
Proof.
  unfold cancel, markClosed.
  destruct (sseIterator (set_aborted true s)) eqn:E; simpl;
    destruct (state s); reflexivity.
Qed.

(** The turn in which the subscriber throws, for any payload that
    leaves the subscription's signal alone. *)
Lemma loop_turn_handler_throws {B : Type}
      (payload : ByteChunk -> Subscription -> result (B * Subscription))
      (subscriber : B -> result unit) (env : SubEnv)
      (sub sub2 : Subscription) (w w1 : World) (chunk : ByteChunk)
      (b : B) (e : Thrown) :
  status sub = Running ->
  signal_aborted sub = false ->
  unsubscribed_during_read env = false ->
  unsubscribed_during_handler env = false ->
  read (pull_env env) w = (Ok (ReadValue chunk), w1) ->
  payload chunk sub = Ok (b, sub2) ->
  signal_aborted sub2 = false ->
  status sub2 = Running ->
  subscriber b = Throw e ->
  handler_failed e w1 (snd (pull_ahead (ahead_env env) w1))
    (loop_turn payload subscriber env (sub, w)).
Proof.
  intros Hs Ha Hr Hh Hread Hp Ha2 Hs2 Hsub.
  unfold loop_turn. rewrite Hs, Hread, Hr. cbv zeta. rewrite Ha, Hp, Hsub, Hh.
  unfold loop_catch. rewrite Ha2. unfold handler_failed.
  cbn [fst snd unsubscribe set_status status session stream].
  rewrite state_cancel, aborted_cancel, closed_cancel.
  split; [reflexivity|]. split; [reflexivity|].
  split; [apply steady_pull_ahead|].
  split; [intro env'; apply pull_ahead_settled|].
  split; [reflexivity|]. split; [reflexivity|].
  split.
  - intro H.
    destruct (state (session (snd (pull_ahead (ahead_env env) w1))));
      try contradiction; reflexivity.
  - intro H. rewrite H. reflexivity.
Qed.

(** C10 (amended). In a turn of the loop of [subscribeJson],
    [subscribeBytes] or [subscribeText] where the subscriber throws and
    the unsubscribe function has not been called, the loop ends
    rethrowing the error, and an ended loop does nothing more.  The
    failure itself changes nothing: the session and the stream are as the
    read of that turn and the pull that the stream started on delivering
    the chunk left them.  So the session is closed after the turn exactly
    when one of these two pulls closed it, and since the chunk was
    delivered only that second pull can have done so, settling the
    [closed] promise once.  After it the stream pulls no more; calling
    the unsubscribe function then leaves the session closed and aborted,
    fulfilling the promise if it was still pending. *)
Theorem subscriber_failure_leaves_session
        (env : SubEnv) (sub : Subscription) (w w1 : World)
        (chunk : ByteChunk) (e : Thrown) :
  status sub = Running ->
  signal_aborted sub = false ->
  unsubscribed_during_read env = false ->
  unsubscribed_during_handler env = false ->
  read (pull_env env) w = (Ok (ReadValue chunk), w1) ->
  let w2 := snd (pull_ahead (ahead_env env) w1) in
  (forall subscriber batch sub2,
      json_payload chunk sub = Ok (batch, sub2) ->
      subscriber batch = Throw e ->
      handler_failed e w1 w2 (subscribeJson_turn subscriber env (sub, w)))
  /\ (forall subscriber,
         subscriber chunk = Throw e ->
         handler_failed e w1 w2 (subscribeBytes_turn subscriber env (sub, w)))
  /\ (forall subscriber tchunk sub2,
         text_payload chunk sub = Ok (tchunk, sub2) ->
         subscriber tchunk = Throw e ->
         handler_failed e w1 w2 (subscribeText_turn subscriber env (sub, w)))
  /\ (forall (B : Type) payload (subscriber : B -> result unit) env' sub' w',
         status sub' = Failed e ->
         loop_turn payload subscriber env' (sub', w') = (sub', w')).
Proof.
  intros Hs Ha Hr Hh Hread w2. subst w2. split; [|split; [|split]].
  - intros subscriber batch sub2 Hp Hsub.
    assert (sub2 = sub).
    { unfold json_payload in Hp.
      destruct (if (0 <? length (data chunk))%nat
                then parseJsonChunk (TextDecoder.decode (data chunk))
                else Ok []); inversion Hp; reflexivity. }
    subst sub2.
    eapply loop_turn_handler_throws; eassumption.
  - intros subscriber Hsub.
    eapply loop_turn_handler_throws; try eassumption; reflexivity.
  - intros subscriber tchunk sub2 Hp Hsub.
    assert (Hp' := Hp). unfold text_payload in Hp'.
    destruct (TextDecoder.decode_stream (decoder sub) (data chunk))
      as [d t] eqn:E.
    inversion Hp'; subst.
    eapply loop_turn_handler_throws; try eassumption; simpl; assumption.
  - intros B payload subscriber env' sub' w' H.
    unfold loop_turn. rewrite H. reflexivity.
Qed.

(* =============================================================== *)
(** * Further properties of the code *)

(** ** [resolveHeaders] *)

Lemma obj_get_define_same (k v : string) (o : JsObject) :
  obj_get k (obj_define k v o) = Some v.
Proof.
  induction o as [|[k' v'] r IH]; simpl.
  - rewrite String.eqb_refl. reflexivity.
  - destruct (String.eqb k' k) eqn:E; simpl; rewrite E; [reflexivity | exact IH].
Qed.

Lemma obj_get_define_other (k k' v : string) (o : JsObject) :
  k' <> k -> obj_get k (obj_define k' v o) = obj_get k o.
Proof.
  intro H. induction o as [|[k0 v0] r IH]; simpl.
  - apply String.eqb_neq in H. rewrite H. reflexivity.
  - destruct (String.eqb k0 k') eqn:E; simpl.
    + apply String.eqb_eq in E. subst k0.
      apply String.eqb_neq in H. rewrite H. reflexivity.
    + destruct (String.eqb k0 k); [reflexivity | exact IH].
Qed.

Lemma obj_get_set_same (k v : string) (o : JsObject) :
  k <> "__proto__"%string -> obj_get k (obj_set k v o) = Some v.
Proof.
  intro H. unfold obj_set. apply String.eqb_neq in H. rewrite H.
  apply obj_get_define_same.
Qed.

Lemma obj_get_set_other (k k' v : string) (o : JsObject) :
  k' <> k -> obj_get k (obj_set k' v o) = obj_get k o.
Proof.
  intro H. unfold obj_set.
  destruct (String.eqb k' "__proto__"); [reflexivity|].
  apply obj_get_define_other. exact H.
Qed.

(** Reading a key after an assignment of pairs: the last pair with that
    key decides, and without one the object keeps what it had. *)
Lemma obj_get_assign (k : string) (src : list (string * string)) :
  k <> "__proto__"%string ->
  forall o : JsObject,
    obj_get k (obj_assign o src)
    = match last_value k src with
      | Some v => Some v
      | None => obj_get k o
      end.
Proof.
  intro Hk. induction src as [|[k' v] r IH]; intro o; simpl; [reflexivity|].
  rewrite IH. destruct (last_value k r); [reflexivity|].
  destruct (String.eqb k' k) eqn:E.
  - apply String.eqb_eq in E. subst k'. apply obj_get_set_same. exact Hk.
  - apply String.eqb_neq in E. apply obj_get_set_other. exact E.
Qed.

(** No assignment gives the object an own property [__proto__]. *)
Lemma obj_set_no_proto (k v : string) (o : JsObject) :
  obj_get "__proto__" (obj_set k v o) = obj_get "__proto__" o.
Proof.
  unfold obj_set. destruct (String.eqb k "__proto__") eqn:E; [reflexivity|].
  apply obj_get_define_other. apply String.eqb_neq. exact E.
Qed.

Lemma obj_assign_no_proto (src : list (string * string)) :
  forall o : JsObject,
    obj_get "__proto__" (obj_assign o src) = obj_get "__proto__" o.
Proof.
  induction src as [|[k v] r IH]; intro o; simpl; [reflexivity|].
  rewrite IH. apply obj_set_no_proto.
Qed.

Lemma assign_entries_values (entries : list (string * HeaderValue)) :
  forall (o : JsObject) (pairs : list (string * string)),
    entry_values entries = Some pairs ->
    assign_entries o entries = Ok (obj_assign o pairs).
Proof.
  induction entries as [|[k [v|[v|e]]] r IH]; intros o pairs H; simpl in *.
  - inversion H. reflexivity.
  - destruct (entry_values r) as [l|]; [|discriminate].
    inversion H; subst. simpl. apply IH. reflexivity.
  - destruct (entry_values r) as [l|]; [|discriminate].
    inversion H; subst. simpl. apply IH. reflexivity.
  - discriminate.
Qed.

Lemma assign_entries_throws (entries : list (string * HeaderValue)) :
  forall o : JsObject,
    entry_values entries = None ->
    exists k e,
      assign_entries o entries = Throw e
      /\ In (k, ValueFunction (Throw e)) entries.
Proof.
  induction entries as [|[k [v|[v|e]]] r IH]; intros o H; simpl in *.
  - discriminate.
  - destruct (entry_values r) as [l|] eqn:E; [discriminate|].
    destruct (IH (obj_set k v o) eq_refl) as (k' & e & A & B).
    exists k', e. split; [exact A | right; exact B].
  - destruct (entry_values r) as [l|] eqn:E; [discriminate|].
    destruct (IH (obj_set k v o) eq_refl) as (k' & e & A & B).
    exists k', e. split; [exact A | right; exact B].
  - exists k, e. split; [reflexivity | left; reflexivity].
Qed.

(** X1. When the authentication resolves to the headers [base] and every
    function among the additional headers returns, [resolveHeaders]
    returns an object in which each key other than [__proto__] has the
    last value the additional headers give it, and otherwise the value it
    has in [base]: additional headers override authentication headers,
    later entries earlier ones, and the match of keys is exact.  The key
    [__proto__] is never a property of the result, whatever the
    authentication and the additional headers give for it. *)
Theorem resolveHeaders_precedence
        (auth : option Auth) (additional : AdditionalHeaders)
        (base : JsObject) (pairs : list (string * string)) :
  resolveHeaders auth None = Ok base ->
  additional_pairs additional = Some pairs ->
  exists o,
    resolveHeaders auth (Some additional) = Ok o
    /\ (forall k,
           k <> "__proto__"%string ->
           obj_get k o
           = match last_value k pairs with
             | Some v => Some v
             | None => obj_get k base
             end)
    /\ obj_get "__proto__" o = None.
Proof.
  unfold resolveHeaders. intros Hb Hp.
  assert (Hn : obj_get "__proto__" base = None).
  { destruct auth as [[[token|] name [h|] [[g|e]|]]|]; inversion Hb; subst;
      try reflexivity;
      try (rewrite obj_set_no_proto; reflexivity);
      rewrite obj_assign_no_proto; reflexivity. }
  match type of Hb with
  | match ?x with _ => _ end = _ => destruct x as [h|e]; [|discriminate]
  end.
  inversion Hb; subst h.
  destruct additional as [h|l|entries]; simpl in Hp.
  - inversion Hp; subst. eexists. split; [reflexivity|].
    split; [intros k Hk; apply obj_get_assign; exact Hk|].
    rewrite obj_assign_no_proto. exact Hn.
  - inversion Hp; subst. eexists. split; [reflexivity|].
    split; [intros k Hk; apply obj_get_assign; exact Hk|].
    rewrite obj_assign_no_proto. exact Hn.
  - rewrite (assign_entries_values entries base Hp).
    eexists. split; [reflexivity|].
    split; [intros k Hk; apply obj_get_assign; exact Hk|].
    rewrite obj_assign_no_proto. exact Hn.
Qed.

(** X2. [resolveHeaders] fails with the exception of [getHeaders()] when
    that rejects, whatever the additional headers are (none of their
    functions decides); and when the authentication resolves but a
    function among the additional headers throws, it fails with the
    exception of one of these functions. *)
Theorem resolveHeaders_failures (auth : option Auth) :
  (forall e,
      resolveHeaders auth None = Throw e ->
      forall additional, resolveHeaders auth additional = Throw e)
  /\ (forall base entries,
         resolveHeaders auth None = Ok base ->
         entry_values entries = None ->
         exists k e,
           resolveHeaders auth (Some (FromRecord entries)) = Throw e
           /\ In (k, ValueFunction (Throw e)) entries).
Proof.
  unfold resolveHeaders. split.
  - intros e H additional.
    match type of H with
    | match ?x with _ => _ end = _ => destruct x as [h|e']; [discriminate|]
    end.
    exact H.
  - intros base entries H Hv.
    match type of H with
    | match ?x with _ => _ end = _ => destruct x as [h|e']; [|discriminate]
    end.
    apply assign_entries_throws. exact Hv.
Qed.

(** ** [iteratorToReadableStream] *)

(** X3. Reading the stream made from an iterator to its end gives the
    transformed values of the iterator, in its order.  The reading ends
    with the end of the stream when the iterator is done, with the
    iterator's exception when its [next()] rejects, and, when [transform]
    throws on a value, with that exception right after the values before
    it. *)
Theorem iteratorToReadableStream_drain
        {T R : Type} (transform : T -> result R) (xs : list T)
        (failure : option Thrown) (has_return : bool) (calls : nat)
        (fuel : nat) :
  length xs < fuel ->
  iterator_drain transform fuel
    (iteratorToReadableStream (mkIterator xs failure has_return calls))
  = (fst (transformed transform xs),
     match snd (transformed transform xs), failure with
     | Some e, _ => GotError e
     | None, Some e => GotError e
     | None, None => GotDone
     end).
Proof.
  unfold iteratorToReadableStream.
  revert fuel. induction xs as [|x r IH]; intros fuel H.
  - destruct fuel as [|f]; [simpl in H; lia|].
    destruct failure as [e|]; reflexivity.
  - destruct fuel as [|f]; [simpl in H; lia|].
    simpl in H.
    cbn [iterator_drain iterator_read v_take is_controller v_queue v_state
         v_canCloseOrEnqueue v_closeRequested negb andb is_readable
         iterator_pull iterator_next is_iterator it_values transformed].
    destruct (transform x) as [y|e]; [|reflexivity].
    cbn [v_enqueue v_canCloseOrEnqueue v_closeRequested v_state negb andb
         is_readable v_queue app v_take is_controller is_iterator it_failure
         it_has_return it_return_calls].
    rewrite (IH f) by lia.
    destruct (transformed transform r) as [ys e]. reflexivity.
Qed.


(** ** The contract of a pull *)

(** X4. Each call of [pull], the function the stream calls for more,
    returns normally whatever the transport answers and whether or not
    the session is cancelled meanwhile: the [catch] block turns every
    failure into a closed or an errored stream, so the promise of [pull]
    is never rejected.  And the call does exactly one of three things to
    the stream: it enqueues exactly one chunk, or it requests the close of
    the stream without enqueuing, or it errors the stream.  (The consumer
    cancelling the stream itself in the middle of a pull is outside the
    environments considered.) *)
Theorem pull_yields_one_chunk_or_ends (env : PullEnv) (w : World) :
  canCloseOrEnqueue (controller (stream w)) = true ->
  let c := controller (stream w) in
  let c' := controller (stream (snd (pull env w))) in
  fst (pull env w) = Ok tt
  /\ ((exists chunk, queue c' = queue c ++ [chunk] /\ sstate c' = Readable)
      \/ (queue c' = queue c /\ closeRequested c' = true
          /\ sstate c' = match queue c with
                         | [] => StreamClosed
                         | _ :: _ => Readable
                         end)
      \/ (exists e, queue c' = [] /\ sstate c' = Errored e)).
Proof. apply pull_outcome. Qed.

(** X5. A read of the byte stream is never left waiting: it gives a
    chunk, the end of the stream, or the stream's error. *)
Theorem read_never_pending (env : PullEnv) (w : World) :
  controller_wf (controller (stream w)) ->
  fst (read env w) <> Ok ReadPending.
Proof.
  intro Hwf. unfold read, settle_read, dequeue, bind, the_controller,
               set_controller, ret, throw.
  destruct (queue (controller (stream w))) as [|chunk q] eqn:Q;
    [|simpl; discriminate].
  destruct (sstate (controller (stream w))) eqn:S; simpl; try discriminate.
  assert (Hc : canCloseOrEnqueue (controller (stream w)) = true).
  { unfold canCloseOrEnqueue. rewrite S.
    destruct (closeRequested (controller (stream w))) eqn:C; [|reflexivity].
    exfalso. apply (Hwf C S Q). }
  destruct (stream_pull_outcome env w Hc) as [H1 H2].
  destruct (stream_pull env w) as [r w']. simpl in H1, H2. subst r.
  rewrite Q in H2. simpl in H2.
  destruct H2 as [(chunk & H2 & H3)|[(H2 & H3 & H4)|(e & H2 & H4)]];
    rewrite H2; simpl; try discriminate; rewrite H4; discriminate.
Qed.

(** X6. Every chunk a pull adds to the queue is tagged with the position
    the session has when the pull is over: the offset, cursor and
    caught-up flag of the session and of the emitted chunk change
    together. *)
Theorem pull_tags_chunk_with_position (env : PullEnv) (w : World) :
  canCloseOrEnqueue (controller (stream w)) = true ->
  let w' := snd (stream_pull env w) in
  forall chunk,
    In chunk (queue (controller (stream w'))) ->
    In chunk (queue (controller (stream w)))
    \/ (chunk_offset chunk, chunk_cursor chunk, chunk_upToDate chunk)
       = position (session w').
Proof.
  intro Hc. open_world w. destruct cr, st; try discriminate.
  destruct q as [|c0 q]; unfold_pull.
  all: split_cases; intros chunk H;
    repeat (rewrite in_app_iff in H || simpl in H);
    intuition (subst; simpl; auto).
Qed.

(** X7. A pull never invents an offset or a cursor: after it, each of the
    two is what it was before, or the value of its header in the response
    to the continuation request made with the old offset and cursor, or
    the one of the event the push iterator yielded. *)
Theorem pull_position_from_server (env : PullEnv) (w : World) :
  canCloseOrEnqueue (controller (stream w)) = true ->
  let s := session w in
  let s' := session (snd (stream_pull env w)) in
  (offset s' = offset s
   \/ (exists response,
          fetchNext env (offset s) (cursor s) = Ok response
          /\ headers_get STREAM_OFFSET_HEADER (headers response)
             = Some (offset s'))
   \/ (exists chunk,
          sse_next env = Ok (Some chunk) /\ chunk_offset chunk = offset s'))
  /\ (cursor s' = cursor s
      \/ (exists response,
             fetchNext env (offset s) (cursor s) = Ok response
             /\ headers_get STREAM_CURSOR_HEADER (headers response)
                = cursor s')
      \/ (exists chunk,
             sse_next env = Ok (Some chunk) /\ chunk_cursor chunk = cursor s')).
Proof.
  intro Hc. open_world w. destruct cr, st; try discriminate.
  unfold_pull.
  split; split_cases; subst;
    first [ left; reflexivity
          | right; left; eexists;
            split; [reflexivity | first [eassumption | reflexivity]]
          | right; right; eexists; split; reflexivity ].
Qed.

(** X8. When the continuation request fails (and the push iterator's
    [next()] rejects), as they do when the session is cancelled in the
    middle of the pull, the pull leaves the offset, the cursor and the
    caught-up flag of the session as they were. *)
Theorem failed_continuation_keeps_position
        (env : PullEnv) (w : World) (e1 e2 : Thrown) :
  canCloseOrEnqueue (controller (stream w)) = true ->
  fetchNext env (offset (session w)) (cursor (session w)) = Throw e1 ->
  sse_next env = Throw e2 ->
  position (session (snd (stream_pull env w))) = position (session w).
Proof.
  intros Hc Hf Hs. open_world w. destruct cr, st; try discriminate.
  unfold_pull. unfold position.
  split_cases; first [reflexivity | congruence].
Qed.

(** X9. When the response to a long-poll continuation request arrives but
    its body cannot be read, the session has already taken the offset,
    cursor and caught-up flag of the response's headers: the position
    moves although no chunk is emitted, the stream is errored and the
    session marked with the error. *)
Theorem unread_body_still_moves_position
        (env : PullEnv) (w : World) (response : Response) (e : Thrown) :
  canCloseOrEnqueue (controller (stream w)) = true ->
  firstResponse (session w) = None ->
  shouldContinueLive (session w) = true ->
  is_sse (live (session w)) && startSSE (session w) = false ->
  aborted (session w) = false ->
  cancelled_meanwhile env = false ->
  fetchNext env (offset (session w)) (cursor (session w)) = Ok response ->
  arrayBuffer response = Throw e ->
  let w' := snd (stream_pull env w) in
  session w'
  = markError (toError e) (updateStateFromResponse response (session w))
  /\ position (session w')
     = position (updateStateFromResponse response (session w))
  /\ queue (controller (stream w')) = []
  /\ sstate (controller (stream w')) = Errored e.
Proof.
  intros Hc Hr Hl Hs Ha Hm Hf Hb.
  destruct w as [s [frc [q cr st]]]. simpl in *.
  destruct cr, st; try discriminate.
  assert (A : aborted (updateStateFromResponse response s) = false).
  { unfold updateStateFromResponse.
    destruct (headers_get STREAM_OFFSET_HEADER (headers response))
      as [[|? ?]|];
      destruct (headers_get STREAM_CURSOR_HEADER (headers response))
        as [[|? ?]|]; simpl; exact Ha. }
  unfold_m.
  remember updateStateFromResponse as update eqn:U.
  destruct frc; simpl; rewrite ?Hr; simpl;
    rewrite Hl, Hs, Ha, Hm; simpl; rewrite Hf; simpl; rewrite Hb; simpl;
    rewrite A; simpl; repeat split;
    unfold markError, position;
    destruct (negb (SessionState_eqb (state (update response s)) Closed));
    reflexivity.
Qed.

(** A pull that has nothing to continue with only closes. *)
Lemma stream_pull_stopped (env : PullEnv) (w : World) :
  canCloseOrEnqueue (controller (stream w)) = true ->
  firstResponse (session w) = None ->
  shouldContinueLive (session w) = false
  \/ (is_sse (live (session w)) && startSSE (session w) = false
      /\ aborted (session w) = true) ->
  stream_pull env w
  = (Ok tt,
     mkWorld (markClosed (session w))
       (mkStream (firstResponseConsumed (stream w))
          (mkController (queue (controller (stream w))) true
             match queue (controller (stream w)) with
             | [] => StreamClosed
             | _ :: _ => Readable
             end))).
Proof.
  intros Hc Hr H.
  destruct w as [s [frc [q cr st]]]. simpl in *.
  destruct cr, st; try discriminate.
  destruct frc; unfold_m; simpl; rewrite ?Hr; simpl;
    (destruct H as [H|[H1 H2]];
     [ rewrite H; reflexivity
     | rewrite H1, H2; destruct (shouldContinueLive s); reflexivity ]).
Qed.

(** X10. Once the first response is consumed, a pull of a session that
    does not continue live (replay mode or an accumulating helper), or of
    an aborted session on the long-poll path, asks the transport nothing:
    whatever the environment, it enqueues no chunk, marks the session
    closed and requests the close of the stream. *)
Theorem no_continuation_when_stopped (env : PullEnv) (w : World) :
  canCloseOrEnqueue (controller (stream w)) = true ->
  firstResponse (session w) = None ->
  shouldContinueLive (session w) = false
  \/ (is_sse (live (session w)) && startSSE (session w) = false
      /\ aborted (session w) = true) ->
  stream_pull env w
  = (Ok tt,
     mkWorld (markClosed (session w))
       (mkStream (firstResponseConsumed (stream w))
          (mkController (queue (controller (stream w))) true
             match queue (controller (stream w)) with
             | [] => StreamClosed
             | _ :: _ => Readable
             end))).
Proof. apply stream_pull_stopped. Qed.


(** ** The accumulating helpers *)

(** The first read of an accumulating helper on a session that holds its
    first response: the chunk of that response, and a session that the
    pull has already closed. *)
Lemma read_first_response
      (env : PullEnv) (s : Session) (response : Response) (bytes : list byte) :
  firstResponse s = Some response ->
  arrayBuffer response = Ok bytes ->
  exists s1,
    read env (createByteStream (set_stopAfterUpToDate true s))
    = (Ok (ReadValue (mkChunk bytes (offset s) (cursor s) (upToDate s))),
       mkWorld s1 (mkStream true (mkController [] true StreamClosed)))
    /\ state s1 = Closed
    /\ firstResponse s1 = None
    /\ position s1 = position s
    /\ (state s <> Closed -> closed s1 = closedResolve (closed s))
    /\ (state s = Closed -> closed s1 = closed s).
Proof.
  intros Hr Hb. destruct s; simpl in *; subst.
  unfold arrayBuffer, read_all in Hb.
  unfold read, settle_read, dequeue, createByteStream, markConsuming.
  destruct state0; unfold_pull.
  all: destruct (body response) as [b|] eqn:B.
  all: try (destruct (failure b) eqn:F); inversion Hb; subst; simpl.
  all: split_cases; eexists; (split; [reflexivity|]);
    repeat split; try reflexivity; intro H; congruence.
Qed.

(** A read of a stream that is closed with nothing queued. *)
Lemma read_closed_stream (env : PullEnv) (s : Session) (consumed cr : bool) :
  read env (mkWorld s (mkStream consumed (mkController [] cr StreamClosed)))
  = (Ok ReadDone,
     mkWorld s (mkStream consumed (mkController [] cr StreamClosed))).
Proof. reflexivity. Qed.

Lemma markClosed_Closed (s : Session) : state s = Closed -> markClosed s = s.
Proof. intro H. unfold markClosed. rewrite H. reflexivity. Qed.

(** X11. [body()] reads the first response and nothing else: on a session
    that still holds its first response, in any live mode and caught up or
    not, it returns the bytes of that response's body (none when there is
    no body) without a continuation request, and leaves the session
    [Closed] at the same position, its [closed] promise fulfilled if it
    was pending. *)
Theorem body_reads_first_response_only
        (env env' : PullEnv) (envs : list PullEnv) (s : Session)
        (response : Response) (bytes : list byte) :
  firstResponse s = Some response ->
  arrayBuffer response = Ok bytes ->
  exists s',
    session_body env (env' :: envs) s
    = (Ok (Some bytes),
       mkWorld s' (mkStream true (mkController [] true StreamClosed)))
    /\ state s' = Closed
    /\ position s' = position s
    /\ (state s <> Closed -> closed s' = closedResolve (closed s))
    /\ (state s = Closed -> closed s' = closed s).
Proof.
  intros Hr Hb.
  destruct (read_first_response env s Hr Hb) as (s1 & R & S1 & _ & P & C1 & C2).
  exists s1. split; [|repeat split; assumption].
  unfold session_body, bind. rewrite R.
  cbn [body_while data chunk_upToDate].
  remember (if (0 <? length bytes)%nat then [] ++ [bytes] else []) as acc
    eqn:A.
  assert (E : concat acc = bytes).
  { subst acc. destruct bytes; simpl; [reflexivity|].
    rewrite app_nil_r. reflexivity. }
  clear A R Hb. subst bytes. destruct (upToDate s).
  - unfold bind, modify, ret. simpl. rewrite (markClosed_Closed _ S1).
    reflexivity.
  - unfold bind. rewrite read_closed_stream.
    destruct envs; cbn [body_while]; unfold bind, modify, ret; simpl;
      rewrite (markClosed_Closed _ S1); reflexivity.
Qed.

(** X12. [json()] decodes the first response and nothing else: on a
    JSON-mode session that holds its first response it returns the
    records of that body (none for an empty body), or throws the decode
    error of that body.  In both cases the pull has already closed the
    session: a decode error rejects the call while the [closed] promise,
    if it was pending, is fulfilled. *)
Theorem json_decodes_first_response_only
        (env env' : PullEnv) (envs : list PullEnv) (s : Session)
        (response : Response) (bytes : list byte) :
  isJsonMode s = true ->
  firstResponse s = Some response ->
  arrayBuffer response = Ok bytes ->
  let chunk := mkChunk bytes (offset s) (cursor s) (upToDate s) in
  exists s',
    json env (env' :: envs) s
    = (match jsonStream_transform chunk with
       | Ok records => Ok (Some records)
       | Throw e => Throw e
       end,
       s', Some (mkStream true (mkController [] true StreamClosed)))
    /\ state s' = Closed
    /\ position s' = position s
    /\ (state s <> Closed -> closed s' = closedResolve (closed s))
    /\ (state s = Closed -> closed s' = closed s).
Proof.
  intros Hj Hr Hb chunk.
  destruct (read_first_response env s Hr Hb) as (s1 & R & S1 & _ & P & C1 & C2).
  exists s1. split; [|repeat split; assumption].
  unfold json, ensureJsonMode. rewrite Hj. simpl negb. cbv iota.
  unfold bind at 1. rewrite R.
  cbn [json_while]. unfold json_chunk, jsonStream_transform, chunk.
  cbn [data chunk_upToDate].
  destruct (0 <? length bytes)%nat.
  - unfold bind at 1. unfold bind at 1. unfold lift.
    destruct (parseJsonChunk (TextDecoder.decode bytes)) as [records|e];
      [|reflexivity].
    unfold ret at 1. cbn [app].
    destruct (upToDate s).
    + unfold bind, modify, ret. simpl. rewrite (markClosed_Closed _ S1).
      reflexivity.
    + unfold bind at 1. rewrite read_closed_stream.
      destruct envs; cbn [json_while]; unfold bind, modify, ret; simpl;
        rewrite (markClosed_Closed _ S1); reflexivity.
  - unfold bind at 1. unfold ret at 1.
    destruct (upToDate s).
    + unfold bind, modify, ret. simpl. rewrite (markClosed_Closed _ S1).
      reflexivity.
    + unfold bind at 1. rewrite read_closed_stream.
      destruct envs; cbn [json_while]; unfold bind, modify, ret; simpl;
        rewrite (markClosed_Closed _ S1); reflexivity.
Qed.


(** ** Streamed decoding *)

Lemma step_with_bom (seen : bool) (d : TextDecoder.t) (b : N) :
  TextDecoder.step (with_bom seen d) b
  = (with_bom seen (fst (TextDecoder.step d b)), snd (TextDecoder.step d b)).
Proof.
  unfold TextDecoder.step, TextDecoder.start, TextDecoder.reset, with_bom.
  simpl.
  repeat match goal with
         | |- context [if ?c then _ else _] => destruct c; simpl
         end; reflexivity.
Qed.

Lemma run_with_bom (seen : bool) (bs : list byte) :
  forall d : TextDecoder.t,
    TextDecoder.run (with_bom seen d) bs
    = (with_bom seen (fst (TextDecoder.run d bs)), snd (TextDecoder.run d bs)).
Proof.
  induction bs as [|b r IH]; intro d; simpl; [reflexivity|].
  rewrite step_with_bom.
  destruct (TextDecoder.step d (Byte.to_N b)) as [d1 o1]. simpl.
  rewrite IH. destruct (TextDecoder.run d1 r) as [d2 o2]. reflexivity.
Qed.

Lemma with_bom_same (d : TextDecoder.t) :
  with_bom (TextDecoder.bom_seen d) d = d.
Proof. destruct d. reflexivity. Qed.

Lemma run_bom_seen (bs : list byte) (d : TextDecoder.t) :
  TextDecoder.bom_seen (fst (TextDecoder.run d bs)) = TextDecoder.bom_seen d.
Proof.
  rewrite <- (with_bom_same d) at 1. rewrite run_with_bom. reflexivity.
Qed.

Lemma run_app (a b : list byte) :
  forall d : TextDecoder.t,
    TextDecoder.run d (a ++ b)
    = (fst (TextDecoder.run (fst (TextDecoder.run d a)) b),
       snd (TextDecoder.run d a)
         ++ snd (TextDecoder.run (fst (TextDecoder.run d a)) b)).
Proof.
  induction a as [|x r IH]; intro d; simpl.
  - destruct (TextDecoder.run d b). reflexivity.
  - destruct (TextDecoder.step d (Byte.to_N x)) as [d1 o1].
    rewrite IH.
    destruct (TextDecoder.run d1 r) as [d2 o2]. simpl.
    rewrite app_assoc. reflexivity.
Qed.

Lemma serialize_app (seen : bool) (o1 o2 : list N) :
  TextDecoder.serialize seen (o1 ++ o2)
  = (fst (TextDecoder.serialize (fst (TextDecoder.serialize seen o1)) o2),
     snd (TextDecoder.serialize seen o1)
       ++ snd (TextDecoder.serialize (fst (TextDecoder.serialize seen o1)) o2)).
Proof.
  destruct o1 as [|c r]; simpl.
  - destruct (TextDecoder.serialize seen o2). reflexivity.
  - destruct seen; [|destruct (N.eqb c 65279)]; simpl;
      destruct o2 as [|c2 r2]; simpl;
      rewrite ?app_nil_r, ?flat_map_app; simpl;
      rewrite <- ?app_assoc; reflexivity.
Qed.

Lemma finish_with_bom (seen : bool) (d : TextDecoder.t) :
  snd (TextDecoder.finish (with_bom seen d)) = snd (TextDecoder.finish d).
Proof.
  unfold TextDecoder.finish, with_bom. simpl.
  destruct (N.eqb (TextDecoder.bytes_needed d) 0); reflexivity.
Qed.

(** Decoding in a stream, piece after piece, gives the same decoder and
    the same text as decoding the pieces joined. *)
Lemma decode_stream_app (a b : list byte) (d : TextDecoder.t) :
  TextDecoder.decode_stream d (a ++ b)
  = (fst (TextDecoder.decode_stream
            (fst (TextDecoder.decode_stream d a)) b),
     snd (TextDecoder.decode_stream d a)
       ++ snd (TextDecoder.decode_stream
                 (fst (TextDecoder.decode_stream d a)) b)).
Proof.
  unfold TextDecoder.decode_stream.
  rewrite run_app.
  pose proof (run_bom_seen a d) as Ba.
  destruct (TextDecoder.run d a) as [d1 o1] eqn:Ra. cbn [fst snd] in *.
  pose proof (run_bom_seen b d1) as Bb.
  destruct (TextDecoder.run d1 b) as [d2 o2] eqn:Rb. cbn [fst snd] in *.
  rewrite Bb, Ba, serialize_app.
  destruct (TextDecoder.serialize (TextDecoder.bom_seen d) o1) as [s1 t1].
  cbn [fst snd].
  change (TextDecoder.mk (TextDecoder.code_point d1)
            (TextDecoder.bytes_seen d1) (TextDecoder.bytes_needed d1)
            (TextDecoder.lower_boundary d1) (TextDecoder.upper_boundary d1)
            s1) with (with_bom s1 d1).
  rewrite run_with_bom, Rb. cbn [fst snd]. simpl.
  destruct (TextDecoder.serialize s1 o2) as [s2 t2]. reflexivity.
Qed.

(** A whole decoding is a streamed decoding from a fresh decoder followed
    by the flush. *)
Lemma decode_is_stream_then_flush (bs : list byte) :
  TextDecoder.decode bs
  = snd (TextDecoder.decode_stream TextDecoder.fresh bs)
      ++ TextDecoder_flush
           (fst (TextDecoder.decode_stream TextDecoder.fresh bs)).
Proof.
  unfold TextDecoder.decode, TextDecoder.decode_stream, TextDecoder_flush.
  pose proof (run_bom_seen bs TextDecoder.fresh) as B.
  destruct (TextDecoder.run TextDecoder.fresh bs) as [d1 o1]. simpl in B.
  rewrite B.
  pose proof (finish_with_bom (fst (TextDecoder.serialize false o1)) d1) as F.
  destruct (TextDecoder.finish d1) as [d2 o2].
  rewrite serialize_app.
  destruct (TextDecoder.serialize false o1) as [s1 t1]. simpl in *.
  change (TextDecoder.mk (TextDecoder.code_point d1)
            (TextDecoder.bytes_seen d1) (TextDecoder.bytes_needed d1)
            (TextDecoder.lower_boundary d1) (TextDecoder.upper_boundary d1)
            s1) with (with_bom s1 d1).
  destruct (TextDecoder.finish (with_bom s1 d1)) as [d3 o3]. simpl in F.
  subst o3. reflexivity.
Qed.

Lemma concat_snoc {A : Type} (l : list (list A)) (x : list A) :
  concat (l ++ [x]) = concat l ++ x.
Proof. rewrite concat_app. simpl. rewrite app_nil_r. reflexivity. Qed.

(** The loops of [body()] and [text()] go the same way: when the first
    returns bytes, the second returns their decoding and leaves the same
    world. *)
Lemma text_while_decodes_body_while (envs : list PullEnv) :
  forall (r : ReadResult) (acc : list (list byte)) (d : TextDecoder.t)
         (parts : list jsstring) (w w' : World) (bytes : list byte),
    TextDecoder.decode_stream TextDecoder.fresh (concat acc)
    = (d, concat parts) ->
    body_while envs r acc w = (Ok (Some bytes), w') ->
    text_while envs r d parts w
    = (Ok (Some (TextDecoder.decode bytes)), w').
Proof.
  assert (Fin : forall acc d parts,
             TextDecoder.decode_stream TextDecoder.fresh (concat acc)
             = (d, concat parts) ->
             concat (parts ++ [TextDecoder_flush d])
             = TextDecoder.decode (concat acc)).
  { intros acc d parts H. unfold jsstring in *.
    rewrite (concat_snoc parts (TextDecoder_flush d)).
    rewrite decode_is_stream_then_flush, H. reflexivity. }
  assert (Step : forall acc d parts (x : list byte) d1 t,
             TextDecoder.decode_stream TextDecoder.fresh (concat acc)
             = (d, concat parts) ->
             TextDecoder.decode_stream d x = (d1, t) ->
             TextDecoder.decode_stream TextDecoder.fresh
               (concat (acc ++ [x]))
             = (d1, concat (parts ++ [t]))).
  { intros acc d parts x d1 t H D. unfold jsstring in *.
    rewrite (concat_snoc acc x), decode_stream_app, H.
    cbn [fst snd]. rewrite D. cbn [fst snd].
    rewrite (concat_snoc parts t). reflexivity. }
  assert (Last : forall acc d parts (w w' : World) bytes,
             TextDecoder.decode_stream TextDecoder.fresh (concat acc)
             = (d, concat parts) ->
             (modify markClosed ;; ret (Some (concat acc))) w
             = (Ok (Some bytes), w') ->
             (modify markClosed ;;
              ret (Some (concat (parts ++ [TextDecoder_flush d])))) w
             = (Ok (Some (TextDecoder.decode bytes)), w')).
  { intros acc d parts w w' bytes I B.
    unfold bind, modify, ret in *. simpl in *.
    inversion B; subst. rewrite (Fin _ _ _ I). reflexivity. }
  induction envs as [|env rest IH]; intros r acc d parts w w' bytes I B;
    destruct r as [chunk| |]; cbn [body_while text_while] in *;
    try discriminate; try (eapply Last; eassumption).
  - destruct (0 <? length (data chunk))%nat.
    + destruct (TextDecoder.decode_stream d (data chunk)) as [d1 t] eqn:D.
      destruct (chunk_upToDate chunk); [|discriminate].
      eapply Last; [|eassumption]. eapply Step; eassumption.
    + destruct (chunk_upToDate chunk); [|discriminate].
      eapply Last; eassumption.
  - destruct (0 <? length (data chunk))%nat.
    + destruct (TextDecoder.decode_stream d (data chunk)) as [d1 t] eqn:D.
      destruct (chunk_upToDate chunk).
      * eapply Last; [|eassumption]. eapply Step; eassumption.
      * unfold bind in *.
        destruct (read env w) as [[r'|e] w1]; [|discriminate].
        eapply IH; [|eassumption]. eapply Step; eassumption.
    + destruct (chunk_upToDate chunk).
      * eapply Last; eassumption.
      * unfold bind in *.
        destruct (read env w) as [[r'|e] w1]; [|discriminate].
        eapply IH; eassumption.
Qed.

(** X13. [text()] is the UTF-8 decoding of what [body()] returns: on the
    same session and with the same answers of the transport, when
    [body()] returns bytes, [text()] returns the text a single
    [TextDecoder] gives for all of them, and leaves the session and the
    stream as [body()] does. *)
Theorem text_decodes_body
        (env : PullEnv) (envs : list PullEnv) (s : Session)
        (bytes : list byte) (w : World) :
  session_body env envs s = (Ok (Some bytes), w) ->
  session_text env envs s = (Ok (Some (TextDecoder.decode bytes)), w).
Proof.
  unfold session_body, session_text, bind. intro H.
  destruct (read env (createByteStream (set_stopAfterUpToDate true s)))
    as [[r|e] w1]; [|discriminate].
  apply text_while_decodes_body_while with (acc := []); [reflexivity | exact H].
Qed.

(** X14. What [textStream()] enqueues for a sequence of chunks, joined,
    is the decoding of all their bytes by one decoder: a character whose
    bytes are split between two chunks is decoded as if they were not,
    and the flush gives what the last chunk left open. *)
Theorem textStream_joins_chunks (cs : list ByteChunk) :
  concat (textStream_output TextDecoder.fresh cs)
  = TextDecoder.decode (concat (map data cs)).
Proof.
  assert (G : forall cs d,
             concat (textStream_output d cs)
             = snd (TextDecoder.decode_stream d (concat (map data cs)))
                 ++ TextDecoder_flush
                      (fst (TextDecoder.decode_stream d
                              (concat (map data cs))))).
  { clear cs. induction cs as [|chunk rest IH]; intro d.
    - assert (E : TextDecoder.decode_stream d [] = (d, []))
        by (destruct d; reflexivity).
      cbn [textStream_output map concat]. rewrite E. cbn [fst snd app].
      destruct (TextDecoder_flush d); cbn [JsString.truthy concat app];
        rewrite ?app_nil_r; reflexivity.
    - cbn [textStream_output map concat]. rewrite decode_stream_app.
      destruct (TextDecoder.decode_stream d (data chunk)) as [d1 t].
      cbn [fst snd concat].
      rewrite IH. rewrite app_assoc. reflexivity. }
  rewrite G, decode_is_stream_then_flush. reflexivity.
Qed.


(** ** Failures and repetitions of the accumulating helpers *)

(** The first read of an accumulating helper when the body of the first
    response cannot be read: the stream's error, or the end of the stream
    when the session is aborted. *)
Lemma read_first_response_fails
      (env : PullEnv) (s : Session) (response : Response) (e : Thrown) :
  firstResponse s = Some response ->
  arrayBuffer response = Throw e ->
  exists s1,
    state s1 = Closed
    /\ position s1 = position s
    /\ (aborted s || cancelled_meanwhile env = false ->
        read env (createByteStream (set_stopAfterUpToDate true s))
        = (Throw e,
           mkWorld s1 (mkStream true (mkController [] false (Errored e))))
        /\ (state s <> Closed ->
            closed s1 = closedReject (toError e) (closed s)))
    /\ (aborted s || cancelled_meanwhile env = true ->
        read env (createByteStream (set_stopAfterUpToDate true s))
        = (Ok ReadDone,
           mkWorld s1 (mkStream true (mkController [] true StreamClosed)))
        /\ (state s <> Closed -> closed s1 = closedResolve (closed s))).
Proof.
  intros Hr Hb.
  exists (session (snd (read env (createByteStream
                                    (set_stopAfterUpToDate true s))))).
  destruct s; simpl in *; subst.
  unfold arrayBuffer, read_all in Hb.
  destruct (body response) as [b|] eqn:B; [|discriminate].
  destruct (failure b) as [e'|] eqn:F; [|discriminate].
  inversion Hb; subst e'; clear Hb.
  unfold read, settle_read, dequeue, createByteStream, markConsuming.
  destruct state0, aborted0, sseIterator0, (cancelled_meanwhile env) eqn:Cm;
    unfold_pull; rewrite ?B, ?F, ?Cm; simpl; rewrite ?F; simpl;
    repeat split; try reflexivity; try discriminate;
    intros; try discriminate; try congruence; reflexivity.
Qed.

(** X15. When the body of the first response cannot be read and the
    session is not aborted, each accumulating helper rejects with the
    very error of the read, the stream is errored, and the session is
    closed at the position it had, its [closed] promise rejected with
    that error (wrapped in an [Error] when it is not one). *)
Theorem helpers_reject_when_body_fails
        (env : PullEnv) (envs : list PullEnv) (s : Session)
        (response : Response) (e : Thrown) :
  firstResponse s = Some response ->
  arrayBuffer response = Throw e ->
  aborted s = false ->
  cancelled_meanwhile env = false ->
  exists s',
    let st := mkStream true (mkController [] false (Errored e)) in
    session_body env envs s = (Throw e, mkWorld s' st)
    /\ session_text env envs s = (Throw e, mkWorld s' st)
    /\ (isJsonMode s = true -> json env envs s = (Throw e, s', Some st))
    /\ state s' = Closed
    /\ position s' = position s
    /\ (state s <> Closed -> closed s' = closedReject (toError e) (closed s)).
Proof.
  intros Hr Hb Ha Hm.
  destruct (read_first_response_fails env s Hr Hb)
    as (s1 & S1 & P & Rej & _).
  destruct Rej as [R C]; [rewrite Ha, Hm; reflexivity|].
  exists s1. cbv zeta.
  unfold session_body, session_text, json, ensureJsonMode, bind.
  rewrite R. repeat split; try assumption.
  intro Hj. rewrite Hj. reflexivity.
Qed.

(** X16. When the body of the first response cannot be read on a session
    that is aborted (before the call, or by a [cancel()] while the body
    is read), the error is swallowed: each accumulating helper resolves
    with an empty result, and the [closed] promise is fulfilled. *)
Theorem helpers_resolve_empty_when_aborted
        (env : PullEnv) (envs : list PullEnv) (s : Session)
        (response : Response) (e : Thrown) :
  firstResponse s = Some response ->
  arrayBuffer response = Throw e ->
  aborted s || cancelled_meanwhile env = true ->
  exists s',
    let st := mkStream true (mkController [] true StreamClosed) in
    session_body env envs s = (Ok (Some []), mkWorld s' st)
    /\ session_text env envs s = (Ok (Some []), mkWorld s' st)
    /\ (isJsonMode s = true -> json env envs s = (Ok (Some []), s', Some st))
    /\ state s' = Closed
    /\ position s' = position s
    /\ (state s <> Closed -> closed s' = closedResolve (closed s)).
Proof.
  intros Hr Hb Ha.
  destruct (read_first_response_fails env s Hr Hb)
    as (s1 & S1 & P & _ & Res).
  destruct (Res Ha) as [R C].
  exists s1. cbv zeta.
  unfold session_body, session_text, json, ensureJsonMode, bind.
  rewrite R.
  destruct envs; cbn [body_while text_while json_while];
    unfold bind, modify, ret; simpl; rewrite (markClosed_Closed _ S1);
    (repeat split; try assumption; try reflexivity);
    intro Hj; rewrite Hj; reflexivity.
Qed.

(** X17. An accumulating helper called on a session whose first response
    is already consumed (a second call, or a call after a stream has
    taken the first response) asks the transport nothing and resolves
    with an empty result, marking the session closed. *)
Theorem helpers_return_empty_once_consumed
        (env : PullEnv) (envs : list PullEnv) (s : Session) :
  firstResponse s = None ->
  let s' := markClosed (markConsuming (set_stopAfterUpToDate true s)) in
  let st := mkStream false (mkController [] true StreamClosed) in
  session_body env envs s = (Ok (Some []), mkWorld s' st)
  /\ session_text env envs s = (Ok (Some []), mkWorld s' st)
  /\ (isJsonMode s = true -> json env envs s = (Ok (Some []), s', Some st)).
Proof.
  intro Hr. cbv zeta.
  assert (R : read env (createByteStream (set_stopAfterUpToDate true s))
              = (Ok ReadDone,
                 mkWorld (markClosed
                            (markConsuming (set_stopAfterUpToDate true s)))
                   (mkStream false (mkController [] true StreamClosed)))).
  { unfold read, settle_read, createByteStream, new_stream, bind at 1,
      the_controller. cbn [queue controller stream sstate].
    unfold bind at 1.
    rewrite stream_pull_stopped.
    - reflexivity.
    - reflexivity.
    - destruct s; simpl in *. unfold markConsuming.
      destruct state0; simpl; assumption.
    - left. destruct s; unfold markConsuming, shouldContinueLive.
      destruct state0; reflexivity. }
  unfold session_body, session_text, json, ensureJsonMode, bind.
  rewrite R.
  assert (S1 : state (markClosed
                        (markConsuming (set_stopAfterUpToDate true s)))
               = Closed) by apply state_markClosed.
  destruct envs; cbn [body_while text_while json_while];
    unfold bind, modify, ret; simpl; rewrite (markClosed_Closed _ S1);
    (repeat split; try reflexivity);
    intro Hj; rewrite Hj; reflexivity.
Qed.

(** ** Live pulls *)

(** X18. A successful long-poll pull of a live session takes the
    position from the response, enqueues exactly one chunk holding the
    whole body of the response tagged with that new position, and leaves
    the session and the stream open, caught up or not. *)
Theorem longpoll_pull_emits_response
        (env : PullEnv) (w : World) (response : Response)
        (bytes : list byte) :
  canCloseOrEnqueue (controller (stream w)) = true ->
  firstResponse (session w) = None ->
  shouldContinueLive (session w) = true ->
  is_sse (live (session w)) && startSSE (session w) = false ->
  aborted (session w) = false ->
  cancelled_meanwhile env = false ->
  fetchNext env (offset (session w)) (cursor (session w)) = Ok response ->
  arrayBuffer response = Ok bytes ->
  let s' := updateStateFromResponse response (session w) in
  stream_pull env w
  = (Ok tt,
     mkWorld s'
       (mkStream (firstResponseConsumed (stream w))
          (mkController
             (queue (controller (stream w))
                ++ [mkChunk bytes (offset s') (cursor s') (upToDate s')])
             false Readable)))
  /\ state s' = state (session w)
  /\ closed s' = closed (session w).
Proof.
  intros Hc Hr Hl Hs Ha Hm Hf Hb.
  destruct w as [s [frc [q cr st]]].
  cbn [session stream controller queue closeRequested sstate
       firstResponseConsumed] in *.
  destruct cr, st; try discriminate.
  assert (L : shouldContinueLive (updateStateFromResponse response s) = true).
  { unfold updateStateFromResponse, shouldContinueLive in *.
    destruct (headers_get STREAM_OFFSET_HEADER (headers response))
      as [[|? ?]|];
      destruct (headers_get STREAM_CURSOR_HEADER (headers response))
        as [[|? ?]|]; simpl; exact Hl. }
  assert (St : state (updateStateFromResponse response s) = state s
               /\ closed (updateStateFromResponse response s) = closed s).
  { unfold updateStateFromResponse.
    destruct (headers_get STREAM_OFFSET_HEADER (headers response))
      as [[|? ?]|];
      destruct (headers_get STREAM_CURSOR_HEADER (headers response))
        as [[|? ?]|]; simpl; split; reflexivity. }
  cbv zeta. split; [|exact St].
  unfold_m.
  remember updateStateFromResponse as update eqn:U.
  destruct frc; simpl; rewrite ?Hr; simpl;
    rewrite Hl, Hs, Ha, Hm; simpl; rewrite Hf; simpl; rewrite Hb; simpl;
    rewrite L, Bool.andb_false_r; reflexivity.
Qed.

(** The push iterator of a session once a live pull has asked for it:
    made with the position of that moment when there was none, kept
    otherwise. *)
Lemma sse_pull_outcome (env : PullEnv) (w : World) :
  canCloseOrEnqueue (controller (stream w)) = true ->
  firstResponse (session w) = None ->
  shouldContinueLive (session w) = true ->
  is_sse (live (session w)) && startSSE (session w) = true ->
  cancelled_meanwhile env = false ->
  let s := session w in
  let it := match sseIterator s with
            | None => mkSse (offset s) (cursor s) 0
            | Some it => it
            end in
  let s1 := set_sseIterator (Some it) s in
  let c := controller (stream w) in
  stream_pull env w
  = match sse_next env with
    | Ok (Some chunk) =>
        (Ok tt,
         mkWorld (set_upToDate (chunk_upToDate chunk)
                    (set_cursor (chunk_cursor chunk)
                       (set_offset (chunk_offset chunk) s1)))
           (mkStream (firstResponseConsumed (stream w))
              (mkController (queue c ++ [chunk]) false Readable)))
    | Ok None =>
        (Ok tt,
         mkWorld (markClosed s1)
           (mkStream (firstResponseConsumed (stream w))
              (mkController (queue c) true
                 match queue c with
                 | [] => StreamClosed
                 | _ :: _ => Readable
                 end)))
    | Throw e =>
        if aborted s then
          (Ok tt,
           mkWorld (markClosed s1)
             (mkStream (firstResponseConsumed (stream w))
                (mkController (queue c) true
                   match queue c with
                   | [] => StreamClosed
                   | _ :: _ => Readable
                   end)))
        else
          (Ok tt,
           mkWorld (markError (toError e) s1)
             (mkStream (firstResponseConsumed (stream w))
                (mkController [] false (Errored e))))
    end.
Proof.
  intros Hc Hr Hl Hs Hm.
  destruct w as [s [frc [q cr st]]]. simpl in *.
  destruct cr, st; try discriminate.
  destruct s; simpl in *. subst.
  unfold shouldContinueLive in Hl. simpl in Hl.
  destruct stopAfterUpToDate0; [discriminate|].
  destruct live0 as [|mode]; [discriminate|].
  simpl in Hs.
  destruct (String.eqb mode "sse") eqn:Em; [|discriminate].
  destruct startSSE0; [|discriminate].
  unfold_m. unfold shouldContinueLive, markClosed, markError. simpl.
  destruct frc, sseIterator0 as [it|]; simpl; rewrite Em, Hm; simpl;
    destruct (sse_next env) as [[chunk|]|e]; simpl;
      rewrite ?Bool.andb_false_r; try reflexivity;
      destruct aborted0, state0; simpl; reflexivity.
Qed.

(** X19. On the push path of a live session each pull takes one event
    from the iterator: the event is enqueued as it is, and its offset,
    cursor and caught-up flag replace those of the session, an absent
    cursor included.  The iterator is started once, with the position of
    the session at that moment, and kept by the later pulls; the session
    and the stream stay open. *)
Theorem sse_pull_follows_iterator
        (env : PullEnv) (w : World) (chunk : ByteChunk) :
  canCloseOrEnqueue (controller (stream w)) = true ->
  firstResponse (session w) = None ->
  shouldContinueLive (session w) = true ->
  is_sse (live (session w)) && startSSE (session w) = true ->
  cancelled_meanwhile env = false ->
  sse_next env = Ok (Some chunk) ->
  let s := session w in
  let w' := snd (stream_pull env w) in
  position (session w')
  = (chunk_offset chunk, chunk_cursor chunk, chunk_upToDate chunk)
  /\ queue (controller (stream w')) = queue (controller (stream w)) ++ [chunk]
  /\ canCloseOrEnqueue (controller (stream w')) = true
  /\ state (session w') = state s
  /\ sseIterator (session w')
     = Some match sseIterator s with
            | None => mkSse (offset s) (cursor s) 0
            | Some it => it
            end.
Proof.
  intros Hc Hr Hl Hs Hm Hn. cbv zeta.
  rewrite (sse_pull_outcome env w Hc Hr Hl Hs Hm), Hn.
  repeat split.
Qed.

(** ** Subscriptions after unsubscribe *)

(** X20. Once the unsubscribe function has been called (before the turn,
    or while the loop waits for its read), a turn of a subscription loop
    does not call the subscriber and cannot fail: whatever the read gives
    (a chunk, the end, an error), the loop ends without rethrowing, and
    it is over as soon as the read has settled. *)
Theorem unsubscribed_loop_is_silent {B : Type}
        (payload : ByteChunk -> Subscription -> result (B * Subscription))
        (subscriber subscriber' : B -> result unit)
        (env : SubEnv) (sub : Subscription) (w : World) :
  signal_aborted sub = true \/ unsubscribed_during_read env = true ->
  status sub = Running ->
  let after := loop_turn payload subscriber env (sub, w) in
  after = loop_turn payload subscriber' env (sub, w)
  /\ (forall e, status (fst after) <> Failed e)
  /\ (fst (read (pull_env env) w) <> Ok ReadPending ->
      status (fst after) = Finished)
  /\ signal_aborted (fst after) = true.
Proof.
  intros H Hs. cbv zeta. unfold loop_turn, unsubscribe, loop_catch.
  destruct sub as [sa stt d]. simpl in H, Hs. subst stt.
  cbn [status signal_aborted decoder].
  destruct (read (pull_env env) w) as [[[chunk| |]|e] w1];
    destruct (unsubscribed_during_read env), sa;
    destruct H as [H|H]; try discriminate H; simpl;
    (split; [reflexivity|]);
    (split; [intros e'; discriminate|]);
    (split; [|reflexivity]);
    first [ intros _; reflexivity
          | intro N; exfalso; apply N; reflexivity ].
Qed.

End Producer.

(* ================================================================= *)
(** * The properties on the sample sessions *)

Import JsString.

(** C1 on four texts: an array, a single value, two lines with a blank
    line between them, and a line that is not JSON. *)
Lemma parseJsonChunk_policy_witness :
  (JSON_parse (lit "[true, null]") = Ok (JArray [JBool true; JNull])
   /\ parseJsonChunk (lit "[true, null]") = Ok [JBool true; JNull])
  /\ (JSON_parse (lit "'a'") = Ok (JString (lit "a"))
      /\ parseJsonChunk (lit "'a'") = Ok [JString (lit "a")])
  /\ (JSON_parse (lit "1" ++ LF ++ LF ++ lit "2") = Throw SyntaxError
      /\ parseJsonChunk (lit "1" ++ LF ++ LF ++ lit "2")
         = Ok [JNumber 1 0; JNumber 2 0])
  /\ (JSON_parse (lit "1" ++ LF ++ lit "{") = Throw SyntaxError
      /\ parseJsonChunk (lit "1" ++ LF ++ lit "{") = Throw SyntaxError).
Proof.
  pose proof (proj1 parseJsonChunk_policy) as P.
  split; [|split; [|split]].
  - destruct (P (lit "[true, null]")) as (A & _).
    split; [reflexivity | apply A; reflexivity].
  - destruct (P (lit "'a'")) as (_ & A & _).
    split; [reflexivity | apply A; reflexivity].
  - destruct (P (lit "1" ++ LF ++ LF ++ lit "2")) as (_ & _ & A).
    split; [reflexivity|].
    apply (proj1 (A SyntaxError eq_refl)).
    repeat constructor.
  - destruct (P (lit "1" ++ LF ++ lit "{")) as (_ & _ & A).
    split; [reflexivity|].
    apply (proj2 (A SyntaxError eq_refl) (lit "{")); [|reflexivity].
    right. left. reflexivity.
Defined.

(** C9 on a text of a space, a tab, a line feed, a no-break space and a
    carriage return. *)
Lemma parseJsonChunk_blank_witness :
  Forall (fun c => is_js_whitespace c = true) blank_text
  /\ JSON_parse blank_text = Throw SyntaxError
  /\ parseJsonChunk blank_text = Ok [].
Proof.
  assert (H : Forall (fun c => is_js_whitespace c = true) blank_text).
  { repeat constructor. }
  split; [exact H | apply (parseJsonChunk_blank H)].
Defined.

(** C2 on the sample replay session, whose body arrives in two pieces. *)
Lemma json_replay_scenario_witness :
  exists s' st',
    json hOffset hCursor hUpToDate quiet_env [] (new_session replay_config)
    = (Ok (Some [JNumber 1 0; JNumber 2 0]), s', Some st')
    /\ state s' = Closed
    /\ closed s' = mkDeferred (Some Fulfilled) 1
    /\ sstate (controller st') = StreamClosed.
Proof.
  apply (json_replay_scenario hOffset hCursor hUpToDate replay_config
           (b := mkBody [list_byte_of_string "[1,";
                         list_byte_of_string "2]"] None));
    reflexivity.
Defined.

(** C3, as stated, fails: the session is caught up, the continuation
    response has no up-to-date header, and afterwards the caught-up flag is
    [false], in the session and on the chunk the pull emits. *)
Lemma upToDate_reset_by_absent_header :
  let w := longpoll_world hOffset hCursor hUpToDate in
  let s := session w in
  let w' := snd (stream_pull hOffset hCursor hUpToDate quiet_env w) in
  headers_get hUpToDate (headers bare_response) = None
  /\ upToDate s = true
  /\ upToDate (updateStateFromResponse hOffset hCursor hUpToDate
                 bare_response s) = false
  /\ upToDate (session w') = false
  /\ map chunk_upToDate (queue (controller (stream w'))) = [false].
Proof. repeat split; reflexivity. Qed.

(** C3 (amended) on a caught-up session and a response without headers:
    offset and cursor are kept, the caught-up flag becomes [false]. *)
Lemma updateStateFromResponse_headers_witness :
  let s := session (longpoll_world hOffset hCursor hUpToDate) in
  let s' := updateStateFromResponse hOffset hCursor hUpToDate
              bare_response s in
  (headers_get hOffset (headers bare_response) = None
   /\ offset s' = offset s)
  /\ (headers_get hCursor (headers bare_response) = None
      /\ cursor s' = cursor s)
  /\ (headers_get hUpToDate (headers bare_response) = None
      /\ upToDate s' = false).
Proof.
  intros s s'.
  destruct (updateStateFromResponse_headers hOffset hCursor hUpToDate
              bare_response s) as (A & B & _ & _ & _ & C).
  split; [split; [reflexivity | apply A; reflexivity]|].
  split; [split; [reflexivity | apply B; reflexivity]|].
  split; [reflexivity | apply C; reflexivity].
Defined.

(** C4 on the sample session negotiated as raw bytes. *)
Lemma json_methods_need_json_mode_witness :
  let s := new_session bytes_config in
  isJsonMode s = false
  /\ exists message,
      (exists before after,
          message = (before ++ "application/octet-stream" ++ after)%string)
      /\ ensureJsonMode s = Throw (DurableStreamError message "BAD_REQUEST")
      /\ (forall env envs,
             json hOffset hCursor hUpToDate env envs s
             = (Throw (DurableStreamError message "BAD_REQUEST"), s, None))
      /\ jsonStream s = Throw (DurableStreamError message "BAD_REQUEST")
      /\ subscribeJson s = Throw (DurableStreamError message "BAD_REQUEST").
Proof.
  intro s. split; [reflexivity|].
  apply (proj1 (json_methods_need_json_mode hOffset hCursor hUpToDate s)).
  reflexivity.
Defined.

(** C5 on a long-poll session whose first chunk was read and which is then
    marked with an error. *)
Lemma closed_settles_once_witness :
  let sys0 := run hOffset hCursor hUpToDate
                  [OpCreateByteStream; OpRead quiet_env]
                  (boot longpoll_config) in
  let sys1 := apply_op hOffset hCursor hUpToDate
                (close_op (ByMarkError (ErrorObj "fetch failed"))) sys0 in
  state (sys_session sys0) <> Closed
  /\ closed (sys_session sys1)
     = mkDeferred (Some (Rejected (ErrorObj "fetch failed"))) 1.
Proof.
  intros sys0 sys1.
  assert (H : state (sys_session sys0) <> Closed) by discriminate.
  split; [exact H|].
  destruct (closed_settles_once hOffset hCursor hUpToDate longpoll_config
              [OpCreateByteStream; OpRead quiet_env]
              (ByMarkError (ErrorObj "fetch failed")) [])
    as (_ & _ & _ & A & _).
  apply A. exact H.
Defined.

(** C6 on the long-poll session: the continuation request fails, once
    while the session is being cancelled and once without that. *)
Lemma pull_failure_after_abort_witness :
  let w := longpoll_world hOffset hCursor hUpToDate in
  let err := ErrorObj "The operation was aborted." in
  let w1 := snd (pull_try hOffset hCursor hUpToDate aborting_env w) in
  let w2 := snd (stream_pull hOffset hCursor hUpToDate aborting_env w) in
  let err' := ErrorObj "fetch failed" in
  let w1' := snd (pull_try hOffset hCursor hUpToDate failing_env w) in
  let w2' := snd (stream_pull hOffset hCursor hUpToDate failing_env w) in
  (canCloseOrEnqueue (controller (stream w)) = true
   /\ pull_try hOffset hCursor hUpToDate aborting_env w = (Throw err, w1)
   /\ aborted (session w1) = true
   /\ fst (pull hOffset hCursor hUpToDate aborting_env w) = Ok tt
   /\ state (session w2) = Closed
   /\ closed (session w2) = mkDeferred (Some Fulfilled) 1
   /\ sstate (controller (stream w2)) = StreamClosed)
  /\ (pull_try hOffset hCursor hUpToDate failing_env w = (Throw err', w1')
      /\ aborted (session w1') = false
      /\ state (session w2') = Closed
      /\ closed (session w2') = mkDeferred (Some (Rejected err')) 1
      /\ sstate (controller (stream w2')) = Errored err').
Proof.
  intros w err w1 w2 err' w1' w2'.
  assert (Hc : canCloseOrEnqueue (controller (stream w)) = true)
    by reflexivity.
  split.
  - assert (Ht : pull_try hOffset hCursor hUpToDate aborting_env w
                 = (Throw err, w1)) by reflexivity.
    assert (Ha : aborted (session w1) = true) by reflexivity.
    destruct (pull_failure_after_abort hOffset hCursor hUpToDate aborting_env
                w Hc Ht) as [A _].
    destruct (A Ha) as (A1 & A2 & A3 & _ & A5 & _ & _ & A8).
    split; [exact Hc|]. split; [exact Ht|]. split; [exact Ha|].
    split; [exact A1|]. split; [exact A3|].
    split.
    + etransitivity; [apply A5; reflexivity | reflexivity].
    + etransitivity; [apply A8 | reflexivity].
  - assert (Ht : pull_try hOffset hCursor hUpToDate failing_env w
                 = (Throw err', w1')) by reflexivity.
    assert (Ha : aborted (session w1') = false) by reflexivity.
    destruct (pull_failure_after_abort hOffset hCursor hUpToDate failing_env
                w Hc Ht) as [_ A].
    destruct (A Ha) as (_ & A2 & A3 & A4).
    split; [exact Ht|]. split; [exact Ha|]. split; [exact A2|].
    split; [|exact A4].
    etransitivity; [apply A3; discriminate | reflexivity].
Defined.

(** C7 on the sample replay session: the two pieces of the body come out
    as one chunk with the position of the initial response. *)
Lemma first_pull_emits_first_response_witness :
  let w := createByteStream (new_session replay_config) in
  let w' := snd (stream_pull hOffset hCursor hUpToDate quiet_env w) in
  body (cfg_firstResponse replay_config)
  = Some (mkBody [list_byte_of_string "[1,"; list_byte_of_string "2]"] None)
  /\ queue (controller (stream w'))
     = [mkChunk (list_byte_of_string "[1,2]") "5" None true].
Proof.
  intros w w'. split; [reflexivity|].
  destruct (first_pull_emits_first_response hOffset hCursor hUpToDate
              quiet_env) as [_ A].
  destruct (A replay_config) as [B _].
  apply (B (mkBody [list_byte_of_string "[1,"; list_byte_of_string "2]"]
                   None));
    reflexivity.
Defined.

(** C8, as stated, fails: creating the byte stream of a new session makes
    it [Consuming] although no chunk has been pulled; the first response
    is still held and nothing is queued. *)
Lemma Consuming_before_first_pull :
  let sys0 := boot replay_config in
  let sys1 := apply_op hOffset hCursor hUpToDate OpCreateByteStream sys0 in
  state (sys_session sys0) = Ready
  /\ is_pull OpCreateByteStream = false
  /\ state (sys_session sys1) = Consuming
  /\ firstResponse (sys_session sys1) = Some sample_first_response
  /\ sys_stream sys1 = Some new_stream.
Proof. repeat split; reflexivity. Qed.

(** C8 (amended) on the sample replay session. *)
Lemma Ready_to_Consuming_once_witness :
  let sys0 := boot replay_config in
  let ops := [OpCreateByteStream; OpRead quiet_env; OpCreateByteStream] in
  state (sys_session sys0) = Ready
  /\ state (sys_session
              (apply_op hOffset hCursor hUpToDate OpCreateByteStream sys0))
     = Consuming
  /\ length (filter is_Ready_to_Consuming
               (transitions hOffset hCursor hUpToDate ops sys0)) <= 1.
Proof.
  intros sys0 ops.
  destruct (Ready_to_Consuming_once hOffset hCursor hUpToDate ops sys0)
    as (A & _ & B & _).
  split; [reflexivity|]. split; [apply B; reflexivity | exact A].
Defined.

(** C10, as stated, fails: the subscriber of a byte subscription throws
    on the first chunk, nobody calls [cancel] or the unsubscribe function,
    and the session is closed all the same.  For the replay session the
    pull that delivered the chunk has closed it, fulfilling the promise;
    for the long-poll session the pull that the stream started by itself
    has failed and rejected the promise. *)
Lemma session_closed_without_cancel :
  let failure := ErrorObj "handler failed" in
  let replayed :=
    subscribeBytes_turn hOffset hCursor hUpToDate throwing_subscriber
      quiet_sub_env
      (new_subscription, createByteStream (new_session bytes_config)) in
  let followed :=
    subscribeBytes_turn hOffset hCursor hUpToDate throwing_subscriber
      failing_sub_env
      (new_subscription, createByteStream (new_session longpoll_config)) in
  (status (fst replayed) = Failed failure
   /\ signal_aborted (fst replayed) = false
   /\ aborted (session (snd replayed)) = false
   /\ state (session (snd replayed)) = Closed
   /\ closed (session (snd replayed)) = mkDeferred (Some Fulfilled) 1)
  /\ (status (fst followed) = Failed failure
      /\ signal_aborted (fst followed) = false
      /\ aborted (session (snd followed)) = false
      /\ state (session (snd followed)) = Closed
      /\ closed (session (snd followed))
         = mkDeferred (Some (Rejected (ErrorObj "fetch failed"))) 1).
Proof. repeat split; reflexivity. Qed.

(** C10 (amended) on a byte subscription to the long-poll session whose
    subscriber throws on the first chunk: the pull that the stream
    started has queued the chunk of the continuation response, and the
    session is still [Consuming]. *)
Lemma subscriber_failure_leaves_session_witness :
  let w := createByteStream (new_session longpoll_config) in
  let chunk := mkChunk (list_byte_of_string "[1,2]") "5" (Some "c1"%string)
                       true in
  let w1 := snd (read hOffset hCursor hUpToDate quiet_env w) in
  let w2 := snd (pull_ahead hOffset hCursor hUpToDate quiet_env w1) in
  let after :=
    subscribeBytes_turn hOffset hCursor hUpToDate throwing_subscriber
                        quiet_sub_env (new_subscription, w) in
  read hOffset hCursor hUpToDate (pull_env quiet_sub_env) w
  = (Ok (ReadValue chunk), w1)
  /\ queue (controller (stream w2))
     = [mkChunk (list_byte_of_string "[3]") "5" (Some "c1"%string) false]
  /\ state (session w2) = Consuming
  /\ handler_failed hOffset hCursor hUpToDate (ErrorObj "handler failed")
       w1 w2 after.
Proof.
  intros w chunk w1 w2 after.
  assert (Hr : read hOffset hCursor hUpToDate (pull_env quiet_sub_env) w
               = (Ok (ReadValue chunk), w1)) by reflexivity.
  split; [exact Hr|]. split; [reflexivity|]. split; [reflexivity|].
  pose proof (@subscriber_failure_leaves_session hOffset hCursor hUpToDate
                quiet_sub_env new_subscription w w1 chunk
                (ErrorObj "handler failed")
                eq_refl eq_refl eq_refl eq_refl Hr) as T.
  cbv zeta in T. destruct T as (_ & A & _).
  apply A. reflexivity.
Defined.

(* ================================================================= *)
(** * The further properties on the samples *)

(** X1 on a token and an array of additional headers: the array wins
    over the token, its last [x-trace] over its first, a key in another
    case is another key, and its pair for [__proto__] is dropped. *)
Lemma resolveHeaders_precedence_witness :
  resolveHeaders (Some token_auth) None
  = Ok [("authorization", "Bearer secret")]%string
  /\ additional_pairs sample_additional
     = Some [("x-trace", "1"); ("authorization", "Basic abc");
             ("__proto__", "x"); ("x-trace", "2")]%string
  /\ exists o,
      resolveHeaders (Some token_auth) (Some sample_additional) = Ok o
      /\ obj_get "authorization" o = Some "Basic abc"%string
      /\ obj_get "x-trace" o = Some "2"%string
      /\ obj_get "Authorization" o = None
      /\ obj_get "__proto__" o = None.
Proof.
  assert (Hb : resolveHeaders (Some token_auth) None
               = Ok [("authorization", "Bearer secret")]%string)
    by reflexivity.
  assert (Hp : additional_pairs sample_additional
               = Some [("x-trace", "1"); ("authorization", "Basic abc");
                       ("__proto__", "x"); ("x-trace", "2")]%string)
    by reflexivity.
  split; [exact Hb|]. split; [exact Hp|].
  destruct (@resolveHeaders_precedence (Some token_auth) sample_additional
              _ _ Hb Hp) as (o & Ho & Hk & Hn).
  exists o. split; [exact Ho|].
  split; [|split; [|split]];
    [ etransitivity; [apply Hk; discriminate | reflexivity]
    | etransitivity; [apply Hk; discriminate | reflexivity]
    | etransitivity; [apply Hk; discriminate | reflexivity]
    | exact Hn ].
Defined.

(** X2 on an authentication that rejects, and on a record whose function
    throws. *)
Lemma resolveHeaders_failures_witness :
  resolveHeaders (Some rejecting_auth) None
  = Throw (ErrorObj "no credentials")
  /\ resolveHeaders (Some rejecting_auth) (Some sample_additional)
     = Throw (ErrorObj "no credentials")
  /\ entry_values throwing_entries = None
  /\ exists k e,
      resolveHeaders (Some token_auth) (Some (FromRecord throwing_entries))
      = Throw e
      /\ In (k, ValueFunction (Throw e)) throwing_entries.
Proof.
  assert (Hb : resolveHeaders (Some rejecting_auth) None
               = Throw (ErrorObj "no credentials")) by reflexivity.
  assert (Hv : entry_values throwing_entries = None) by reflexivity.
  split; [exact Hb|].
  split;
    [exact (proj1 (resolveHeaders_failures (Some rejecting_auth))
              _ Hb (Some sample_additional))|].
  split; [exact Hv|].
  exact (proj2 (resolveHeaders_failures (Some token_auth))
           [("authorization", "Bearer secret")]%string throwing_entries
           eq_refl Hv).
Defined.

(** X3 on three numbers: the first two are doubled, the third makes the
    transform throw. *)
Lemma iteratorToReadableStream_drain_witness :
  length [1; 2; 3]%N < 5
  /\ iterator_drain twice_below_three 5
       (iteratorToReadableStream three_numbers)
     = ([2; 4]%N, GotError (ErrorObj "too large")).
Proof.
  assert (H : length [1; 2; 3]%N < 5) by (simpl; lia).
  split; [exact H|].
  exact (@iteratorToReadableStream_drain N N twice_below_three [1; 2; 3]%N
           None true 0 5 H).
Defined.

(** X4 on the long-poll session after its first chunk, with a
    continuation request that fails. *)
Lemma pull_yields_one_chunk_or_ends_witness :
  let w := longpoll_world hOffset hCursor hUpToDate in
  let c := controller (stream w) in
  let c' := controller
              (stream (snd (pull hOffset hCursor hUpToDate failing_env w))) in
  canCloseOrEnqueue c = true
  /\ fst (pull_try hOffset hCursor hUpToDate failing_env w)
     = Throw (ErrorObj "fetch failed")
  /\ fst (pull hOffset hCursor hUpToDate failing_env w) = Ok tt
  /\ ((exists chunk, queue c' = queue c ++ [chunk] /\ sstate c' = Readable)
      \/ (queue c' = queue c /\ closeRequested c' = true
          /\ sstate c' = match queue c with
                         | [] => StreamClosed
                         | _ :: _ => Readable
                         end)
      \/ (exists e, queue c' = [] /\ sstate c' = Errored e)).
Proof.
  intros w c c'.
  assert (Hc : canCloseOrEnqueue c = true) by reflexivity.
  split; [exact Hc|]. split; [reflexivity|].
  exact (@pull_yields_one_chunk_or_ends hOffset hCursor hUpToDate
           failing_env w Hc).
Defined.

(** X5 on the same session. *)
Lemma read_never_pending_witness :
  let w := longpoll_world hOffset hCursor hUpToDate in
  controller_wf (controller (stream w))
  /\ fst (read hOffset hCursor hUpToDate quiet_env w) <> Ok ReadPending.
Proof.
  intro w.
  assert (H : controller_wf (controller (stream w))).
  { intro C. vm_compute in C. discriminate C. }
  split; [exact H|].
  exact (@read_never_pending hOffset hCursor hUpToDate quiet_env w H).
Defined.

(** X6 on the same session: the chunk of the continuation response. *)
Lemma pull_tags_chunk_with_position_witness :
  let w := longpoll_world hOffset hCursor hUpToDate in
  let w' := snd (stream_pull hOffset hCursor hUpToDate quiet_env w) in
  let chunk := mkChunk (list_byte_of_string "[3]") "5" (Some "c1"%string)
                       false in
  canCloseOrEnqueue (controller (stream w)) = true
  /\ In chunk (queue (controller (stream w')))
  /\ (In chunk (queue (controller (stream w)))
      \/ (chunk_offset chunk, chunk_cursor chunk, chunk_upToDate chunk)
         = position (session w')).
Proof.
  intros w w' chunk.
  assert (Hc : canCloseOrEnqueue (controller (stream w)) = true)
    by reflexivity.
  assert (Hi : In chunk (queue (controller (stream w'))))
    by (left; reflexivity).
  split; [exact Hc|]. split; [exact Hi|].
  exact (@pull_tags_chunk_with_position hOffset hCursor hUpToDate
           quiet_env w Hc chunk Hi).
Defined.

(** X7 on the same session and a response that moves the position. *)
Lemma pull_position_from_server_witness :
  let w := longpoll_world hOffset hCursor hUpToDate in
  let s := session w in
  let s' := session (snd (stream_pull hOffset hCursor hUpToDate next_env w)) in
  canCloseOrEnqueue (controller (stream w)) = true
  /\ (offset s' = offset s
      \/ (exists response,
             fetchNext next_env (offset s) (cursor s) = Ok response
             /\ headers_get hOffset (headers response) = Some (offset s'))
      \/ (exists chunk,
             sse_next next_env = Ok (Some chunk)
             /\ chunk_offset chunk = offset s'))
  /\ (cursor s' = cursor s
      \/ (exists response,
             fetchNext next_env (offset s) (cursor s) = Ok response
             /\ headers_get hCursor (headers response) = cursor s')
      \/ (exists chunk,
             sse_next next_env = Ok (Some chunk)
             /\ chunk_cursor chunk = cursor s')).
Proof.
  intros w s s'.
  assert (Hc : canCloseOrEnqueue (controller (stream w)) = true)
    by reflexivity.
  split; [exact Hc|].
  exact (@pull_position_from_server hOffset hCursor hUpToDate next_env w Hc).
Defined.

(** X8 on the same session, cancelled while the pull waits. *)
Lemma failed_continuation_keeps_position_witness :
  let w := longpoll_world hOffset hCursor hUpToDate in
  let err := ErrorObj "The operation was aborted." in
  canCloseOrEnqueue (controller (stream w)) = true
  /\ fetchNext dead_env (offset (session w)) (cursor (session w)) = Throw err
  /\ sse_next dead_env = Throw err
  /\ position (session (snd (stream_pull hOffset hCursor hUpToDate
                               dead_env w)))
     = position (session w).
Proof.
  intros w err.
  assert (Hc : canCloseOrEnqueue (controller (stream w)) = true)
    by reflexivity.
  assert (Hf : fetchNext dead_env (offset (session w)) (cursor (session w))
               = Throw err) by reflexivity.
  assert (Hs : sse_next dead_env = Throw err) by reflexivity.
  split; [exact Hc|]. split; [exact Hf|]. split; [exact Hs|].
  exact (@failed_continuation_keeps_position hOffset hCursor hUpToDate
           dead_env w err err Hc Hf Hs).
Defined.

(** X9 on the same session and a continuation response whose body
    breaks: the offset has moved to that of the response. *)
Lemma unread_body_still_moves_position_witness :
  let w := longpoll_world hOffset hCursor hUpToDate in
  let err := ErrorObj "network down" in
  let w' := snd (stream_pull hOffset hCursor hUpToDate broken_body_env w) in
  (canCloseOrEnqueue (controller (stream w)) = true
   /\ firstResponse (session w) = None
   /\ shouldContinueLive (session w) = true
   /\ is_sse (live (session w)) && startSSE (session w) = false
   /\ aborted (session w) = false
   /\ cancelled_meanwhile broken_body_env = false
   /\ fetchNext broken_body_env (offset (session w)) (cursor (session w))
      = Ok broken_response
   /\ arrayBuffer broken_response = Throw err)
  /\ offset (session w) = "5"%string
  /\ position (session w') = ("9"%string, Some "c1"%string, false)
  /\ queue (controller (stream w')) = []
  /\ sstate (controller (stream w')) = Errored err.
Proof.
  intros w err w'.
  assert (Hc : canCloseOrEnqueue (controller (stream w)) = true)
    by reflexivity.
  assert (Hr : firstResponse (session w) = None) by reflexivity.
  assert (Hl : shouldContinueLive (session w) = true) by reflexivity.
  assert (Hs : is_sse (live (session w)) && startSSE (session w) = false)
    by reflexivity.
  assert (Ha : aborted (session w) = false) by reflexivity.
  assert (Hm : cancelled_meanwhile broken_body_env = false) by reflexivity.
  assert (Hf : fetchNext broken_body_env (offset (session w))
                 (cursor (session w)) = Ok broken_response) by reflexivity.
  assert (Hb : arrayBuffer broken_response = Throw err) by reflexivity.
  destruct (@unread_body_still_moves_position hOffset hCursor hUpToDate
              broken_body_env w broken_response err
              Hc Hr Hl Hs Ha Hm Hf Hb) as (_ & P & Q & S).
  split; [repeat split; assumption|].
  split; [reflexivity|].
  split; [etransitivity; [exact P | reflexivity]|].
  split; [exact Q | exact S].
Defined.

(** X10 on the same session once it is cancelled: the environment is
    not consulted. *)
Lemma no_continuation_when_stopped_witness :
  let w0 := longpoll_world hOffset hCursor hUpToDate in
  let w := mkWorld (cancel (session w0)) (stream w0) in
  (canCloseOrEnqueue (controller (stream w)) = true
   /\ firstResponse (session w) = None
   /\ is_sse (live (session w)) && startSSE (session w) = false
   /\ aborted (session w) = true)
  /\ stream_pull hOffset hCursor hUpToDate next_env w
     = (Ok tt,
        mkWorld (session w)
          (mkStream true (mkController [] true StreamClosed))).
Proof.
  intros w0 w.
  assert (Hc : canCloseOrEnqueue (controller (stream w)) = true)
    by reflexivity.
  assert (Hr : firstResponse (session w) = None) by reflexivity.
  assert (Hs : is_sse (live (session w)) && startSSE (session w) = false)
    by reflexivity.
  assert (Ha : aborted (session w) = true) by reflexivity.
  split; [repeat split; assumption|].
  etransitivity;
    [exact (@no_continuation_when_stopped hOffset hCursor hUpToDate
              next_env w Hc Hr (or_intror (conj Hs Ha)))
    | reflexivity].
Defined.

(** X11 on the long-poll session: [body()] returns the first response
    and the session is closed although it is live. *)
Lemma body_reads_first_response_only_witness :
  let s := new_session longpoll_config in
  let bytes := list_byte_of_string "[1,2]" in
  firstResponse s = Some sample_first_response
  /\ arrayBuffer sample_first_response = Ok bytes
  /\ exists s',
      session_body hOffset hCursor hUpToDate quiet_env [next_env] s
      = (Ok (Some bytes),
         mkWorld s' (mkStream true (mkController [] true StreamClosed)))
      /\ state s' = Closed
      /\ position s' = position s
      /\ closed s' = mkDeferred (Some Fulfilled) 1.
Proof.
  intros s bytes.
  assert (Hr : firstResponse s = Some sample_first_response) by reflexivity.
  assert (Hb : arrayBuffer sample_first_response = Ok bytes) by reflexivity.
  split; [exact Hr|]. split; [exact Hb|].
  destruct (@body_reads_first_response_only hOffset hCursor hUpToDate
              quiet_env next_env [] s sample_first_response bytes Hr Hb)
    as (s' & A & B & C & D & _).
  exists s'. split; [exact A|]. split; [exact B|]. split; [exact C|].
  etransitivity; [apply D; discriminate | reflexivity].
Defined.

(** X12 on the same session. *)
Lemma json_decodes_first_response_only_witness :
  let s := new_session longpoll_config in
  let bytes := list_byte_of_string "[1,2]" in
  (isJsonMode s = true
   /\ firstResponse s = Some sample_first_response
   /\ arrayBuffer sample_first_response = Ok bytes)
  /\ exists s',
      json hOffset hCursor hUpToDate quiet_env [next_env] s
      = (Ok (Some [JNumber 1 0; JNumber 2 0]), s',
         Some (mkStream true (mkController [] true StreamClosed)))
      /\ state s' = Closed
      /\ position s' = position s.
Proof.
  intros s bytes.
  assert (Hj : isJsonMode s = true) by reflexivity.
  assert (Hr : firstResponse s = Some sample_first_response) by reflexivity.
  assert (Hb : arrayBuffer sample_first_response = Ok bytes) by reflexivity.
  split; [repeat split; assumption|].
  destruct (@json_decodes_first_response_only hOffset hCursor hUpToDate
              quiet_env next_env [] s sample_first_response bytes Hj Hr Hb)
    as (s' & A & B & C & _).
  exists s'. split; [|split; assumption].
  etransitivity; [exact A | reflexivity].
Defined.

(** X13 on the byte session. *)
Lemma text_decodes_body_witness :
  let s := new_session bytes_config in
  let bytes := list_byte_of_string "[1,2]" in
  let w := snd (session_body hOffset hCursor hUpToDate quiet_env [] s) in
  session_body hOffset hCursor hUpToDate quiet_env [] s
  = (Ok (Some bytes), w)
  /\ session_text hOffset hCursor hUpToDate quiet_env [] s
     = (Ok (Some [91; 49; 44; 50; 93]%N), w).
Proof.
  intros s bytes w.
  assert (H : session_body hOffset hCursor hUpToDate quiet_env [] s
              = (Ok (Some bytes), w)) by reflexivity.
  split; [exact H|].
  etransitivity;
    [exact (@text_decodes_body hOffset hCursor hUpToDate quiet_env [] s
              bytes w H)
    | reflexivity].
Defined.

(** X15 on a session whose first response breaks while it is read, with
    a thrown value that is not an [Error]: the helpers reject with the
    value itself, the promise with the [Error] made from it. *)
Lemma helpers_reject_when_body_fails_witness :
  let s := new_session odd_config in
  let err := NonError "timeout" in
  let st := mkStream true (mkController [] false (Errored err)) in
  (firstResponse s = Some odd_response
   /\ arrayBuffer odd_response = Throw err
   /\ aborted s = false
   /\ cancelled_meanwhile quiet_env = false)
  /\ exists s',
      session_body hOffset hCursor hUpToDate quiet_env [] s
      = (Throw err, mkWorld s' st)
      /\ session_text hOffset hCursor hUpToDate quiet_env [] s
         = (Throw err, mkWorld s' st)
      /\ json hOffset hCursor hUpToDate quiet_env [] s
         = (Throw err, s', Some st)
      /\ state s' = Closed
      /\ closed s' = mkDeferred (Some (Rejected (ErrorObj "timeout"))) 1.
Proof.
  intros s err st.
  assert (Hr : firstResponse s = Some odd_response) by reflexivity.
  assert (Hb : arrayBuffer odd_response = Throw err) by reflexivity.
  assert (Ha : aborted s = false) by reflexivity.
  assert (Hm : cancelled_meanwhile quiet_env = false) by reflexivity.
  split; [repeat split; assumption|].
  destruct (@helpers_reject_when_body_fails hOffset hCursor hUpToDate
              quiet_env [] s odd_response err Hr Hb Ha Hm)
    as (s' & A & B & C & D & _ & F).
  exists s'. split; [exact A|]. split; [exact B|].
  split; [apply C; reflexivity|]. split; [exact D|].
  etransitivity; [apply F; discriminate | reflexivity].
Defined.

(** X16 on a session whose first response breaks while it is read, and
    which is cancelled meanwhile. *)
Lemma helpers_resolve_empty_when_aborted_witness :
  let s := new_session broken_config in
  let err := ErrorObj "network down" in
  let st := mkStream true (mkController [] true StreamClosed) in
  (firstResponse s = Some broken_response
   /\ arrayBuffer broken_response = Throw err
   /\ aborted s || cancelled_meanwhile aborting_env = true)
  /\ exists s',
      session_body hOffset hCursor hUpToDate aborting_env [] s
      = (Ok (Some []), mkWorld s' st)
      /\ session_text hOffset hCursor hUpToDate aborting_env [] s
         = (Ok (Some []), mkWorld s' st)
      /\ json hOffset hCursor hUpToDate aborting_env [] s
         = (Ok (Some []), s', Some st)
      /\ state s' = Closed
      /\ closed s' = mkDeferred (Some Fulfilled) 1.
Proof.
  intros s err st.
  assert (Hr : firstResponse s = Some broken_response) by reflexivity.
  assert (Hb : arrayBuffer broken_response = Throw err) by reflexivity.
  assert (Ha : aborted s || cancelled_meanwhile aborting_env = true)
    by reflexivity.
  split; [repeat split; assumption|].
  destruct (@helpers_resolve_empty_when_aborted hOffset hCursor hUpToDate
              aborting_env [] s broken_response err Hr Hb Ha)
    as (s' & A & B & C & D & _ & F).
  exists s'. split; [exact A|]. split; [exact B|].
  split; [apply C; reflexivity|]. split; [exact D|].
  etransitivity; [apply F; discriminate | reflexivity].
Defined.

(** X17 on the long-poll session after its first chunk was read: a
    helper called now returns nothing and closes the session. *)
Lemma helpers_return_empty_once_consumed_witness :
  let s := session (longpoll_world hOffset hCursor hUpToDate) in
  let s' := markClosed (markConsuming (set_stopAfterUpToDate true s)) in
  let st := mkStream false (mkController [] true StreamClosed) in
  firstResponse s = None
  /\ state s' = Closed
  /\ session_body hOffset hCursor hUpToDate next_env [] s
     = (Ok (Some []), mkWorld s' st)
  /\ session_text hOffset hCursor hUpToDate next_env [] s
     = (Ok (Some []), mkWorld s' st)
  /\ json hOffset hCursor hUpToDate next_env [] s
     = (Ok (Some []), s', Some st).
Proof.
  intros s s' st.
  assert (Hr : firstResponse s = None) by reflexivity.
  destruct (@helpers_return_empty_once_consumed hOffset hCursor hUpToDate
              next_env [] s Hr) as (A & B & C).
  split; [exact Hr|]. split; [reflexivity|].
  split; [exact A|]. split; [exact B|].
  apply C. reflexivity.
Defined.

(** X20 on a byte subscription that is left while its first read is
    under way: the throwing subscriber is not called. *)
Lemma unsubscribed_loop_is_silent_witness :
  let w := createByteStream (new_session longpoll_config) in
  let after :=
    subscribeBytes_turn hOffset hCursor hUpToDate throwing_subscriber
                        leaving_sub_env (new_subscription, w) in
  (unsubscribed_during_read leaving_sub_env = true
   /\ status new_subscription = Running)
  /\ after
     = subscribeBytes_turn hOffset hCursor hUpToDate patient_subscriber
                           leaving_sub_env (new_subscription, w)
  /\ status (fst after) = Finished
  /\ signal_aborted (fst after) = true.
Proof.
  intros w after.
  assert (Hu : unsubscribed_during_read leaving_sub_env = true)
    by reflexivity.
  assert (Hs : status new_subscription = Running) by reflexivity.
  destruct (@unsubscribed_loop_is_silent hOffset hCursor hUpToDate
              ByteChunk bytes_payload throwing_subscriber patient_subscriber
              leaving_sub_env new_subscription w (or_intror Hu) Hs)
    as (A & _ & C & D).
  split; [split; assumption|].
  split; [exact A|]. split; [|exact D].
  apply C. discriminate.
Defined.

(** X18 on the long-poll session after its first chunk: the response
    without headers leaves the position, its body is the next chunk. *)
Lemma longpoll_pull_emits_response_witness :
  let w := longpoll_world hOffset hCursor hUpToDate in
  let bytes := list_byte_of_string "[3]" in
  let w' := snd (stream_pull hOffset hCursor hUpToDate quiet_env w) in
  (canCloseOrEnqueue (controller (stream w)) = true
   /\ firstResponse (session w) = None
   /\ shouldContinueLive (session w) = true
   /\ is_sse (live (session w)) && startSSE (session w) = false
   /\ aborted (session w) = false
   /\ cancelled_meanwhile quiet_env = false
   /\ fetchNext quiet_env (offset (session w)) (cursor (session w))
      = Ok bare_response
   /\ arrayBuffer bare_response = Ok bytes)
  /\ queue (controller (stream w'))
     = [mkChunk bytes "5" (Some "c1"%string) false]
  /\ state (session w') = Consuming.
Proof.
  intros w bytes w'.
  assert (Hc : canCloseOrEnqueue (controller (stream w)) = true)
    by reflexivity.
  assert (Hr : firstResponse (session w) = None) by reflexivity.
  assert (Hl : shouldContinueLive (session w) = true) by reflexivity.
  assert (Hs : is_sse (live (session w)) && startSSE (session w) = false)
    by reflexivity.
  assert (Ha : aborted (session w) = false) by reflexivity.
  assert (Hm : cancelled_meanwhile quiet_env = false) by reflexivity.
  assert (Hf : fetchNext quiet_env (offset (session w)) (cursor (session w))
               = Ok bare_response) by reflexivity.
  assert (Hb : arrayBuffer bare_response = Ok bytes) by reflexivity.
  destruct (@longpoll_pull_emits_response hOffset hCursor hUpToDate
              quiet_env w bare_response bytes Hc Hr Hl Hs Ha Hm Hf Hb)
    as (A & B & _).
  split; [repeat split; assumption|].
  split.
  - unfold w'. rewrite A. reflexivity.
  - unfold w'. rewrite A. etransitivity; [exact B | reflexivity].
Defined.

(** X19 on the push session after its first chunk: the event replaces
    the position, cursor included, and the iterator is started with the
    position of the first response. *)
Lemma sse_pull_follows_iterator_witness :
  let w := sse_world hOffset hCursor hUpToDate in
  let w' := snd (stream_pull hOffset hCursor hUpToDate event_env w) in
  (canCloseOrEnqueue (controller (stream w)) = true
   /\ firstResponse (session w) = None
   /\ shouldContinueLive (session w) = true
   /\ is_sse (live (session w)) && startSSE (session w) = true
   /\ cancelled_meanwhile event_env = false
   /\ sse_next event_env = Ok (Some sample_event))
  /\ position (session w) = ("5"%string, Some "c1"%string, true)
  /\ position (session w') = ("9"%string, None, false)
  /\ queue (controller (stream w')) = [sample_event]
  /\ sseIterator (session w') = Some (mkSse "5" (Some "c1"%string) 0).
Proof.
  intros w w'.
  assert (Hc : canCloseOrEnqueue (controller (stream w)) = true)
    by reflexivity.
  assert (Hr : firstResponse (session w) = None) by reflexivity.
  assert (Hl : shouldContinueLive (session w) = true) by reflexivity.
  assert (Hs : is_sse (live (session w)) && startSSE (session w) = true)
    by reflexivity.
  assert (Hm : cancelled_meanwhile event_env = false) by reflexivity.
  assert (Hn : sse_next event_env = Ok (Some sample_event)) by reflexivity.
  destruct (@sse_pull_follows_iterator hOffset hCursor hUpToDate
              event_env w sample_event Hc Hr Hl Hs Hm Hn)
    as (A & B & _ & _ & E).
  split; [repeat split; assumption|].
  split; [reflexivity|].
  split; [etransitivity; [exact A | reflexivity]|].
  split; [etransitivity; [exact B | reflexivity]|].
  etransitivity; [exact E | reflexivity].
Defined.
